(** * SOTA content pipeline: scheduler, linking engine, AEO optimizer, tracker

    A shallow embedding of the four engines of the repository
    (parallel-engine.ts, internal-linking-engine, aeo-optimizer.ts,
    performance-tracker) and the properties of their specification.

    Conventions of the embedding.
    - A JavaScript string is a list of code units.  The code units covered
      are 0..255 (type [ascii]); [toLowerCase], [\s] and [trim] are the
      JavaScript ones restricted to that range.
    - A JavaScript [number] used as a count, score or offset is a [nat] or a
      [Z]; one used as a measurement is an exact rational [Q] (rounding, NaN
      and signed zeros of IEEE-754 are outside the model).
    - [null] and [undefined] are [None].
    - A loop of the source that may run forever is a [Fixpoint] on a fuel
      argument returning [None] when the fuel runs out.
    - [Set<T>] is stdpp's [gset T].
    - A regular expression of the source is a function that gives the
      length of its match at the head of a text, searched for with
      [firstMatch], [countRegex] or [matchAll]. *)

From Stdlib Require Import ZArith QArith Ascii String List Sorted Permutation Lia.
From Stdlib Require Import DecimalString.
From stdpp Require Import base list gmap strings.

(** ** JavaScript strings and arrays *)

Module JS.

Abbreviation jsstring := (list ascii).

(** A string literal of the source. *)
Definition lit (s : string) : jsstring := list_ascii_of_string s.

Definition code (c : ascii) : nat := nat_of_ascii c.

Definition between (lo hi n : nat) : bool := (lo <=? n) && (n <=? hi).

(** [String.prototype.toLowerCase] on one code unit below 256: A-Z and the
    Latin-1 capitals U+00C0..U+00DE (without the multiplication sign). *)
Definition toLowerChar (c : ascii) : ascii :=
  let n := code c in
  if between 65 90 n || (between 192 222 n && negb (n =? 215))
  then ascii_of_nat (n + 32) else c.

Definition toLowerCase (s : jsstring) : jsstring := map toLowerChar s.

(** The class [\s] (and the characters [trim] removes) below 256. *)
Definition isWhitespace (c : ascii) : bool :=
  let n := code c in between 9 13 n || (n =? 32) || (n =? 160).

(** Line terminators: the characters [.] of a regular expression rejects. *)
Definition isLineTerminator (c : ascii) : bool :=
  let n := code c in (n =? 10) || (n =? 13).

Definition isDigit (c : ascii) : bool := between 48 57 (code c).

(** [s.startsWith(p)] *)
Fixpoint startsWith (s p : jsstring) : bool :=
  match p, s with
  | [], _ => true
  | _ :: _, [] => false
  | a :: p', b :: s' => Ascii.eqb a b && startsWith s' p'
  end.

(** Scan for the first occurrence of [p]; [k] is the index of the head of
    [s] in the original string. *)
Fixpoint indexOfScan (s p : jsstring) (k : nat) : option nat :=
  match s with
  | [] => if startsWith [] p then Some k else None
  | _ :: s' => if startsWith s p then Some k else indexOfScan s' p (S k)
  end.

(** [s.indexOf(p, from)]; [None] is the result -1. *)
Definition indexOf (s p : jsstring) (from : nat) : option nat :=
  indexOfScan (drop from s) p (Nat.min from (length s)).

(** [s.includes(p)] *)
Definition includes (s p : jsstring) : bool :=
  match indexOf s p 0 with Some _ => true | None => false end.

(** [s.substring(a, b)]: both ends are clamped to the length and swapped
    when [a > b]. *)
Definition substring (s : jsstring) (a b : nat) : jsstring :=
  let lo := Nat.min a b in
  let hi := Nat.max a b in
  take (hi - lo) (drop lo s).

(** [s.substring(a)] *)
Definition substringFrom (s : jsstring) (a : nat) : jsstring := drop a s.

(** The relative index of [Array.prototype.slice]: negative counts from the
    end, everything is clamped to [0..len]. *)
Definition relIndex (len i : Z) : Z :=
  if (i <? 0)%Z then Z.max (len + i) 0 else Z.min i len.

(** [a.slice(start, end)] *)
Definition slice {A} (l : list A) (start stop : Z) : list A :=
  let len := Z.of_nat (length l) in
  let k := relIndex len start in
  let final := relIndex len stop in
  take (Z.to_nat (final - k)) (drop (Z.to_nat k) l).

(** [a.slice(start)] *)
Definition sliceFrom {A} (l : list A) (start : Z) : list A :=
  drop (Z.to_nat (relIndex (Z.of_nat (length l)) start)) l.

(** [s.split(/\s+/)]: [cur] is the piece being read (reversed), [inSep]
    tells that the previous character was whitespace. *)
Fixpoint splitWsAux (cur : jsstring) (inSep : bool) (s : jsstring)
  : list jsstring :=
  match s with
  | [] => [rev cur]
  | c :: s' =>
      if isWhitespace c then
        if inSep then splitWsAux cur true s'
        else rev cur :: splitWsAux [] true s'
      else splitWsAux (c :: cur) false s'
  end.

Definition splitWhitespace (s : jsstring) : list jsstring :=
  splitWsAux [] false s.

(** [s.split(sep)] for a non-empty literal separator: [skip] counts the
    characters of a separator still to be passed over. *)
Fixpoint splitOnAux (sep : jsstring) (skip : nat) (cur : jsstring)
  (s : jsstring) : list jsstring :=
  match s with
  | [] => [rev cur]
  | c :: s' =>
      match skip with
      | S k => splitOnAux sep k cur s'
      | O =>
          if startsWith s sep
          then rev cur :: splitOnAux sep (length sep - 1) [] s'
          else splitOnAux sep 0 (c :: cur) s'
      end
  end.

Definition splitOn (s sep : jsstring) : list jsstring :=
  splitOnAux sep 0 [] s.

Fixpoint dropWhile {A} (f : A -> bool) (l : list A) : list A :=
  match l with
  | [] => []
  | x :: l' => if f x then dropWhile f l' else l
  end.

Fixpoint takeWhile {A} (f : A -> bool) (l : list A) : list A :=
  match l with
  | [] => []
  | x :: l' => if f x then x :: takeWhile f l' else []
  end.

(** [s.trim()] *)
Definition trim (s : jsstring) : jsstring :=
  rev (dropWhile isWhitespace (rev (dropWhile isWhitespace s))).

(** [(s.match(new RegExp(p, 'g')) || []).length] for a pattern [p] without
    regular-expression metacharacters: the number of non-overlapping
    occurrences of [p], scanning left to right. *)
Fixpoint countMatchesAux (p : jsstring) (skip : nat) (s : jsstring) : nat :=
  match s with
  | [] => 0
  | _ :: s' =>
      match skip with
      | S k => countMatchesAux p k s'
      | O =>
          if startsWith s p
          then S (countMatchesAux p (length p - 1) s')
          else countMatchesAux p 0 s'
      end
  end.

Definition countMatches (s p : jsstring) : nat := countMatchesAux p 0 s.

(** [m || fallback] on an optional string: [undefined] and the empty string
    are falsy. *)
Definition orElse (m : option jsstring) (fallback : jsstring) : jsstring :=
  match m with
  | Some (c :: s) => c :: s
  | _ => fallback
  end.

(** [Array.prototype.sort(cmp)].  The sort of ECMAScript is stable, so for
    a comparator that is a total preorder the result is the one of any
    stable sort; here insertion from the right.  [cmp a b] is the sign of
    the comparator's result: [Gt] moves [a] after [b]. *)
Fixpoint insertBy {A} (cmp : A -> A -> comparison) (x : A) (l : list A)
  : list A :=
  match l with
  | [] => [x]
  | y :: l' =>
      match cmp x y with
      | Gt => y :: insertBy cmp x l'
      | _ => x :: l
      end
  end.

Fixpoint sort {A} (cmp : A -> A -> comparison) (l : list A) : list A :=
  match l with
  | [] => []
  | x :: l' => insertBy cmp x (sort cmp l')
  end.

(** The last [n] elements of a list. *)
Definition lastN {A} (n : nat) (l : list A) : list A :=
  drop (length l - n) l.

(** [p] occurs in [s] at offset [k]. *)
Definition occursAt (s p : jsstring) (k : nat) : Prop :=
  startsWith (drop k s) p = true.

(** [String(n)] for a count [n]: its decimal digits. *)
Definition numberToString (n : nat) : jsstring :=
  list_ascii_of_string (NilZero.string_of_uint (Nat.to_uint n)).

(** Each element stands in the relation [R] to its successor. *)
Definition adjacent {A} (R : A -> A -> Prop) (l : list A) : Prop :=
  forall pre a b post, l = pre ++ a :: b :: post -> R a b.

(** [GetSubstitution] for a pattern that is a string (no captures): in the
    replacement [$$] stands for a dollar sign, [$&] for the matched text,
    [$`] for the text before the match and [$'] for the text after it; every
    other [$] stands for itself. *)
Definition isDollar (c : ascii) : bool := code c =? 36.

(** A character that [GetSubstitution] copies as it is. *)
Definition plainChar (c : ascii) : Prop := isDollar c = false.

Fixpoint getSubstitution (matched before after replacement : jsstring)
  : jsstring :=
  match replacement with
  | [] => []
  | c :: r =>
      if isDollar c then
        match r with
        | [] => [c]
        | d :: r' =>
            if isDollar d then d :: getSubstitution matched before after r'
            else if code d =? 38
            then matched ++ getSubstitution matched before after r'
            else if code d =? 96
            then before ++ getSubstitution matched before after r'
            else if code d =? 39
            then after ++ getSubstitution matched before after r'
            else c :: getSubstitution matched before after r
        end
      else c :: getSubstitution matched before after r
  end.

(** [s.replace(pattern, replacement)] for two strings: the first occurrence
    of [pattern] is replaced. *)
Definition replace (s pattern replacement : jsstring) : jsstring :=
  match indexOf s pattern 0 with
  | Some k =>
      let before := take k s in
      let after := drop (k + length pattern) s in
      before ++ getSubstitution pattern before after replacement ++ after
  | None => s
  end.

(** The first match of a regular expression without flag [g]: [m] gives the
    length of the match at the head of a text, [k] is the index of the head
    of [s]; the result is the index and the length of the leftmost match. *)
Fixpoint firstMatch (m : jsstring -> option nat) (s : jsstring) (k : nat)
  : option (nat * nat) :=
  match m s with
  | Some n => Some (k, n)
  | None =>
      match s with
      | [] => None
      | _ :: s' => firstMatch m s' (S k)
      end
  end.

(** [(s.match(re) || []).length] for a regular expression with flag [g]
    whose matches are not empty: the search goes on behind each match.
    [skip] counts the characters of a match still to be passed over. *)
Fixpoint countRegexAux (m : jsstring -> option nat) (skip : nat)
  (s : jsstring) : nat :=
  match s with
  | [] => 0
  | _ :: s' =>
      match skip with
      | S k => countRegexAux m k s'
      | O =>
          match m s with
          | Some n => S (countRegexAux m (n - 1) s')
          | None => countRegexAux m 0 s'
          end
      end
  end.

Definition countRegex (m : jsstring -> option nat) (s : jsstring) : nat :=
  countRegexAux m 0 s.

(** [s.match(re) || []] for such a regular expression: the matched
    texts. *)
Fixpoint matchAllAux (m : jsstring -> option nat) (skip : nat) (s : jsstring)
  : list jsstring :=
  match s with
  | [] => []
  | _ :: s' =>
      match skip with
      | S k => matchAllAux m k s'
      | O =>
          match m s with
          | Some n => take n s :: matchAllAux m (n - 1) s'
          | None => matchAllAux m 0 s'
          end
      end
  end.

Definition matchAll (m : jsstring -> option nat) (s : jsstring)
  : list jsstring :=
  matchAllAux m 0 s.

End JS.

Import JS.

(** ** The parallel task scheduler (parallel-engine.ts) *)

Module ParallelEngine.

Inductive Priority := high | medium | low.

#[global] Instance Priority_eq_dec : EqDecision Priority.
Proof. solve_decision. Defined.

(** [AITask]; the arguments are opaque to the scheduler. *)
Record AITask := {
  promptKey : jsstring;
  args : list jsstring;
  model : jsstring;
  priority : Priority;
  id : jsstring
}.

(** A value raised by the collaborator: [null]/[undefined], or a value whose
    [message] property reads as a string or as [undefined]. *)
Inductive Thrown :=
| ThrownNullish
| ThrownValue (message : option jsstring).

(** [reason?.message] *)
Definition messageOf (e : Thrown) : option jsstring :=
  match e with
  | ThrownNullish => None
  | ThrownValue m => m
  end.

Section Engine.

(** What the collaborator resolves to ([any]). *)
Context {Payload : Type}.

(** [AIBatchResult]; [data = None] is [null], [error = None] an absent
    field. *)
Record AIBatchResult := {
  resultId : jsstring;
  success : bool;
  data : option Payload;
  error : option jsstring;
  duration : Q
}.

(** One call of [callAI], with the time [performance.now()] measured
    around it. *)
Inductive Outcome :=
| Resolved (result : option Payload) (elapsed : Q)
| Failed (e : Thrown) (elapsed : Q).

(** A settled promise of [Promise.allSettled]. *)
Inductive Settled :=
| Fulfilled (value : AIBatchResult)
| Rejected (reason : Thrown).

(** The collaborator, and the message of the [TypeError] the runtime
    raises when a property of [null] or [undefined] is read. *)
Variable callAI : AITask -> Outcome.
Variable typeErrorMessage : jsstring.

(** The field [maxConcurrent] of the engine. *)
Variable maxConcurrent : Z.

(** [executeTask]: the [catch] block reads [error.message], which itself
    raises when the caught value is [null] or [undefined]; the promise is
    then rejected with that [TypeError]. *)
Definition executeTask (task : AITask) : Settled :=
  match callAI task with
  | Resolved result elapsed =>
      Fulfilled {| resultId := id task; success := true; data := result;
                   error := None; duration := elapsed |}
  | Failed (ThrownValue m) elapsed =>
      Fulfilled {| resultId := id task; success := false; data := None;
                   error := Some (orElse m (lit "AI call failed"));
                   duration := elapsed |}
  | Failed ThrownNullish _ =>
      Rejected (ThrownValue (Some typeErrorMessage))
  end.

(** The callback of [chunkResults.map] in [executeParallelBatch];
    [task] is [chunk[index]]. *)
Definition processResult (task : AITask) (result : Settled) : AIBatchResult :=
  match result with
  | Fulfilled value => value
  | Rejected reason =>
      {| resultId := id task; success := false; data := None;
         error := Some (orElse (messageOf reason) (lit "Unknown error"));
         duration := 0 |}
  end.

(** The loop of [chunkTasks], from index [i]. *)
Fixpoint chunkLoop (fuel : nat) (tasks : list AITask) (chunkSize i : Z)
  : option (list (list AITask)) :=
  match fuel with
  | O => None
  | S fuel' =>
      if (i <? Z.of_nat (length tasks))%Z
      then cons (slice tasks i (i + chunkSize))
             <$> chunkLoop fuel' tasks chunkSize (i + chunkSize)%Z
      else Some []
  end.

Definition chunkTasks (fuel : nat) (tasks : list AITask) (chunkSize : Z)
  : option (list (list AITask)) :=
  chunkLoop fuel tasks chunkSize 0.

(** One window: [Promise.allSettled(chunk.map(executeTask))] followed by
    the mapping of the settled promises; both keep the order of [chunk]. *)
Definition runChunk (chunk : list AITask) : list AIBatchResult :=
  map (fun task => processResult task (executeTask task)) chunk.

Definition executeParallelBatch (fuel : nat) (tasks : list AITask)
  : option (list AIBatchResult) :=
  match chunkTasks fuel tasks maxConcurrent with
  | Some chunks => Some (concat (map runChunk chunks))
  | None => None
  end.

Definition executeGroup (fuel : nat) (tasks : list AITask)
  : option (list AIBatchResult) :=
  executeParallelBatch fuel tasks.

(** [groupByPriority]: the entries of the [Map] in insertion order. *)
Definition groupByPriority (tasks : list AITask)
  : list (Priority * list AITask) :=
  flat_map
    (fun p =>
       let filtered := filter (fun t => priority t = p) tasks in
       if 0 <? length filtered then [(p, filtered)] else [])
    [high; medium; low].

Definition executeBatch (fuel : nat) (tasks : list AITask)
  : option (list AIBatchResult) :=
  match mapM (fun g => executeGroup fuel g.2) (groupByPriority tasks) with
  | Some batches => Some (concat batches)
  | None => None
  end.

(** *** The scheduler as a transition system

    The events are the start of a remote call ([Dispatch]) and the
    settling of its promise ([Collect]).  [chunk.map] starts the calls of a
    window one after the other without yielding; the promises then settle
    in any order, and the next window starts when all have settled. *)

Inductive Event :=
| Dispatch (t : AITask)
| Collect (t : AITask).

Record Sched := {
  groups : list (Priority * list AITask);  (* entries [executeBatch] has not reached *)
  windows : list (list AITask);            (* chunks [executeParallelBatch] has not reached *)
  todo : list AITask;                      (* tasks of the window not yet mapped *)
  inflight : list AITask;                  (* pending promises *)
  trace : list Event
}.

Definition initial (tasks : list AITask) : Sched :=
  {| groups := groupByPriority tasks; windows := []; todo := [];
     inflight := []; trace := [] |}.

Inductive step : Sched -> Sched -> Prop :=
| step_group p g gs fuel cs tr :
    chunkTasks fuel g maxConcurrent = Some cs ->
    step {| groups := (p, g) :: gs; windows := []; todo := [];
            inflight := []; trace := tr |}
         {| groups := gs; windows := cs; todo := [];
            inflight := []; trace := tr |}
| step_window gs w ws tr :
    step {| groups := gs; windows := w :: ws; todo := [];
            inflight := []; trace := tr |}
         {| groups := gs; windows := ws; todo := w;
            inflight := []; trace := tr |}
| step_dispatch gs ws t ts fl tr :
    step {| groups := gs; windows := ws; todo := t :: ts;
            inflight := fl; trace := tr |}
         {| groups := gs; windows := ws; todo := ts;
            inflight := fl ++ [t]; trace := tr ++ [Dispatch t] |}
| step_collect gs ws fl1 t fl2 tr :
    step {| groups := gs; windows := ws; todo := [];
            inflight := fl1 ++ t :: fl2; trace := tr |}
         {| groups := gs; windows := ws; todo := [];
            inflight := fl1 ++ fl2; trace := tr ++ [Collect t] |}.

Inductive reachable (tasks : list AITask) : Sched -> Prop :=
| reach_init : reachable tasks (initial tasks)
| reach_step s s' : reachable tasks s -> step s s' -> reachable tasks s'.

(** The object [getStats] returns. *)
Record Stats := {
  totalProcessed : nat;
  avgDuration : Q;
  successRate : Q
}.

(** [getStats]; [results] is [Array.from(this.results.values())]. *)
Definition getStats (results : list AIBatchResult) : Stats :=
  let successful := length (filter (fun r => success r = true) results) in
  let totalDuration := foldl (fun sum r => sum + duration r)%Q 0%Q results in
  let count := inject_Z (Z.of_nat (length results)) in
  {| totalProcessed := length results;
     avgDuration := if 0 <? length results then totalDuration / count else 0;
     successRate :=
       if 0 <? length results
       then inject_Z (Z.of_nat successful) / count * 100
       else 0 |}.

End Engine.

(** The sizes of the windows of a group of [total] tasks under the limit
    [n]: full windows, then the remainder if there is one. *)
Definition windowSizes (total n : nat) : list nat :=
  List.repeat n (total / n)
  ++ (if total mod n =? 0 then [] else [total mod n]).

(** The position of a priority in the order [executeBatch] follows. *)
Definition rank (p : Priority) : nat :=
  match p with high => 0 | medium => 1 | low => 2 end.

(** Vocabulary for the ordering property of the trace. *)

(** The tasks of the groups not reached yet. *)
Definition pendingTasks (gs : list (Priority * list AITask)) : list AITask :=
  flat_map snd gs.

(** The tasks of the group being run that have not settled. *)
Definition active (s : Sched) : list AITask :=
  concat (windows s) ++ todo s ++ inflight s.

(** The call of [t] has started and its promise has settled. *)
Definition settledIn (tr : list Event) (t : AITask) : Prop :=
  In (Dispatch t) tr /\ In (Collect t) tr.

(** Every call that starts is preceded by the start and the settling of
    every call of a group that comes earlier in the order. *)
Definition priorityOrdered (tasks : list AITask) (tr : list Event) : Prop :=
  forall pre t post h,
    tr = pre ++ Dispatch t :: post ->
    In h tasks ->
    rank (priority h) < rank (priority t) ->
    settledIn pre h.

Definition byRank (a b : Priority * list AITask) : Prop :=
  rank a.1 < rank b.1.

Record SchedInv (tasks : list AITask) (s : Sched) : Prop := {
  inv_sorted : StronglySorted byRank (groups s);
  inv_labels : forall g t, In g (groups s) -> In t g.2 -> priority t = g.1;
  inv_cover : forall h, In h tasks ->
    In h (pendingTasks (groups s)) \/ In h (concat (windows s)) \/ In h (todo s)
    \/ (In (Dispatch h) (trace s)
        /\ (In h (inflight s) \/ In (Collect h) (trace s)));
  inv_later : forall t g, In t (active s) -> In g (groups s) ->
    rank (priority t) < rank g.1;
  inv_same : forall t u, In t (active s) -> In u (active s) ->
    priority t = priority u;
  inv_ordered : priorityOrdered tasks (trace s)
}.

(** [createOptimizedAITasks].  A task keeps its content item as its only
    argument and reads the property [id] of it; here an item is a text with
    an [id] that is a string or [undefined]. *)
Inductive Operation := generate | analyze | optimize.

Definition operationName (operation : Operation) : jsstring :=
  match operation with
  | generate => lit "generate"
  | analyze => lit "analyze"
  | optimize => lit "optimize"
  end.

Record ContentItem := {
  itemText : jsstring;
  itemId : option jsstring
}.

(** [contentItems.map((item, index) => ...)] from the index [index] on. *)
Fixpoint tasksFrom (operation : Operation) (index : nat)
  (contentItems : list ContentItem) : list AITask :=
  match contentItems with
  | [] => []
  | item :: rest =>
      {| promptKey := operationName operation;
         args := [itemText item];
         model := lit "gemini";
         priority := if index <? 3 then high else medium;
         id := operationName operation ++ lit "-"
               ++ orElse (itemId item) (numberToString index) |}
      :: tasksFrom operation (S index) rest
  end.

Definition createOptimizedAITasks (contentItems : list ContentItem)
  (operation : Operation) : list AITask :=
  tasksFrom operation 0 contentItems.

End ParallelEngine.

(** ** The internal linking engine (internal-linking-engine) *)

Module LinkingEngine.

Record SitemapPage := {
  id : jsstring;
  title : jsstring;
  slug : jsstring;
  wordCount : option nat
}.

Record LinkOpportunity := {
  fromPage : jsstring;
  toPage : jsstring;
  anchorText : jsstring;
  relevanceScore : nat;
  contextSnippet : jsstring;
  position : nat;
  reason : jsstring
}.

Record LinkCluster := {
  pillarPage : SitemapPage;
  clusterPages : list SitemapPage;
  linkDensity : Q;
  topicRelevance : Q
}.

(** An element of the array [extractSentences] returns; [end_] is the
    field [end]. *)
Record Sentence := {
  text : jsstring;
  start : nat;
  end_ : nat
}.

(** The double quote of the template literals. *)
Definition dquote : jsstring := [ascii_of_nat 34].

Definition isTerminator (c : ascii) : bool :=
  let n := code c in (n =? 46) || (n =? 33) || (n =? 63).

(** The matches of [/[^.!?]+[.!?]+/g], left to right.  [pos] is the index
    of the head of [s]; [body] and [terms] are the two runs of the match
    being read (reversed), [from] the index where it began.  Terminators
    in front of the first body are passed over, and a body that reaches the
    end of the text without a terminator is no match. *)
Fixpoint sentencesAux (s : jsstring) (pos from : nat) (body terms : jsstring)
  : list Sentence :=
  match s with
  | [] =>
      match terms with
      | [] => []
      | _ :: _ => [{| text := rev body ++ rev terms; start := from; end_ := pos |}]
      end
  | c :: s' =>
      if isTerminator c then
        match body with
        | [] => sentencesAux s' (S pos) (S pos) [] []
        | _ :: _ => sentencesAux s' (S pos) from body (c :: terms)
        end
      else
        match terms with
        | [] => sentencesAux s' (S pos) from (c :: body) []
        | _ :: _ =>
            {| text := rev body ++ rev terms; start := from; end_ := pos |}
            :: sentencesAux s' (S pos) pos [c] []
        end
  end.

Definition extractSentences (content : jsstring) : list Sentence :=
  sentencesAux content 0 0 [] [].

Definition stopWords : gset jsstring :=
  list_to_set
    (map lit ["the"; "a"; "an"; "and"; "or"; "but"; "in"; "on"; "at"; "to";
              "for"; "of"; "with"; "by"]%string).

Definition extractKeywords (title : jsstring) : list jsstring :=
  let words := splitWhitespace (toLowerCase title) in
  filter (fun w => (w ∉ stopWords) ∧ (3 < length w)) words.

(** The loop of [findKeywordPositions], from [index]. *)
Fixpoint findKeywordPositionsLoop (fuel : nat) (content keyword : jsstring)
  (index : nat) : option (list nat) :=
  match fuel with
  | O => None
  | S fuel' =>
      match indexOf content (toLowerCase keyword) index with
      | None => Some []
      | Some i =>
          cons i <$> findKeywordPositionsLoop fuel' content keyword
                       (i + length keyword)
      end
  end.

Definition findKeywordPositions (fuel : nat) (content keyword : jsstring)
  : option (list nat) :=
  findKeywordPositionsLoop fuel content keyword 0.

Fixpoint findSentenceAtPosition (sentences : list Sentence) (position : nat)
  : option jsstring :=
  match sentences with
  | [] => None
  | sentence :: rest =>
      if (start sentence <=? position) && (position <=? end_ sentence)
      then Some (text sentence)
      else findSentenceAtPosition rest position
  end.

Definition hasLinkNearby (content : jsstring) (position range : nat) : bool :=
  let before := substring content (Nat.max 0 (position - range)) position in
  let after :=
    substring content position (Nat.min (length content) (position + range)) in
  includes before (lit "<a ") || includes after (lit "<a ").

(** [calculateRelevance], for a keyword without regular-expression
    metacharacters. *)
Definition calculateRelevance (keyword sentence : jsstring) : nat :=
  let score := 50 in
  let keywordCount := countMatches (toLowerCase sentence) keyword in
  let score := score + Nat.min (keywordCount * 10) 30 in
  let score := if length sentence <? 150 then score + 10 else score in
  let score :=
    if includes sentence (lit "learn") || includes sentence (lit "read")
       || includes sentence (lit "guide")
    then score + 10 else score in
  Nat.min score 100.

(** The loop of [distributeEvenly]: the array built so far and
    [lastPosition]. *)
Definition distributeStep (minDistance : nat)
  (st : list LinkOpportunity * nat) (opp : LinkOpportunity)
  : list LinkOpportunity * nat :=
  let '(distributed, lastPosition) := st in
  if (Z.of_nat minDistance <=? Z.of_nat (position opp) - Z.of_nat lastPosition)%Z
     || (length distributed =? 0)
  then (distributed ++ [opp], position opp)
  else st.

Definition distributeEvenly (opportunities : list LinkOpportunity)
  (contentLength : nat) : list LinkOpportunity :=
  let minDistance := contentLength / (length opportunities + 1) in
  (foldl (distributeStep minDistance) ([], 0) opportunities).1.

(** The body of the innermost loop of [generateLinkOpportunities]: the
    opportunity pushed for one position, if any. *)
Definition opportunityAt (targetContent : jsstring) (sentences : list Sentence)
  (page : SitemapPage) (keyword : jsstring) (position : nat)
  : option LinkOpportunity :=
  match findSentenceAtPosition sentences position with
  | Some (c :: s) =>
      let sentence := c :: s in
      if hasLinkNearby targetContent position 100 then None
      else Some {| fromPage := lit "current";
                   toPage := slug page;
                   anchorText := keyword;
                   relevanceScore := calculateRelevance keyword sentence;
                   contextSnippet := substring sentence 0 100;
                   position := position;
                   reason := lit "Contextually relevant mention of "
                             ++ dquote ++ keyword ++ dquote |}
  | _ => None
  end.

(** The opportunities one keyword of one page contributes. *)
Definition keywordOpportunities (fuel : nat) (targetContent : jsstring)
  (page : SitemapPage) (keyword : jsstring) : option (list LinkOpportunity) :=
  let contentLower := toLowerCase targetContent in
  let sentences := extractSentences targetContent in
  match findKeywordPositions fuel contentLower keyword with
  | Some positions =>
      Some (omap (opportunityAt targetContent sentences page keyword) positions)
  | None => None
  end.

Definition pageOpportunities (fuel : nat) (targetContent : jsstring)
  (page : SitemapPage) : option (list LinkOpportunity) :=
  match mapM (keywordOpportunities fuel targetContent page)
          (extractKeywords (title page)) with
  | Some perKeyword => Some (concat perKeyword)
  | None => None
  end.

(** The array [opportunities] before it is sorted. *)
Definition candidates (fuel : nat) (targetContent : jsstring)
  (existingPages : list SitemapPage) : option (list LinkOpportunity) :=
  match mapM (pageOpportunities fuel targetContent) existingPages with
  | Some perPage => Some (concat perPage)
  | None => None
  end.

Definition byRelevance (a b : LinkOpportunity) : comparison :=
  Nat.compare (relevanceScore b) (relevanceScore a).

Definition generateLinkOpportunities (fuel : nat) (targetContent : jsstring)
  (existingPages : list SitemapPage) (maxLinks : Z)
  : option (list LinkOpportunity) :=
  match candidates fuel targetContent existingPages with
  | Some opportunities =>
      let sorted := slice (sort byRelevance opportunities) 0 maxLinks in
      Some (distributeEvenly sorted (length targetContent))
  | None => None
  end.

(** [findRelatedPages] *)
Definition commonKeywords (pageKeywords otherKeywords : list jsstring)
  : list jsstring :=
  filter (fun k => k ∈ otherKeywords) pageKeywords.

Definition byScore (a b : SitemapPage * nat) : comparison :=
  Nat.compare b.2 a.2.

Definition findRelatedPages (page : SitemapPage) (allPages : list SitemapPage)
  : list SitemapPage :=
  let pageKeywords := extractKeywords (title page) in
  let related :=
    flat_map
      (fun otherPage =>
         if decide (id otherPage = id page) then []
         else
           let common :=
             commonKeywords pageKeywords (extractKeywords (title otherPage)) in
           if 0 <? length common then [(otherPage, length common)] else [])
      allPages in
  map fst (slice (sort byScore related) 0 8).

Definition ofNat (n : nat) : Q := inject_Z (Z.of_nat n).

Definition calculateClusterLinkDensity (pillar : SitemapPage)
  (cluster : list SitemapPage) : Q :=
  let words := match wordCount pillar with Some (S n) => S n | _ => 1000 end in
  (ofNat (length cluster) / ofNat (Nat.max words 1000) * 100)%Q.

Definition calculateTopicRelevance (pillar : SitemapPage)
  (cluster : list SitemapPage) : Q :=
  let pillarKeywords := extractKeywords (title pillar) in
  let totalOverlap :=
    foldl (fun total page =>
             total + length (commonKeywords pillarKeywords
                               (extractKeywords (title page))))
      0 cluster in
  (ofNat totalOverlap / ofNat (length cluster) * 20)%Q.

(** The loop of [identifyTopicClusters]: the clusters pushed so far and the
    set [processed]. *)
Definition clusterStep (pages : list SitemapPage)
  (st : list LinkCluster * gset jsstring) (page : SitemapPage)
  : list LinkCluster * gset jsstring :=
  let '(clusters, processed) := st in
  if decide (id page ∈ processed) then st
  else
    let relatedPages := findRelatedPages page pages in
    if 2 <=? length relatedPages then
      (clusters ++ [{| pillarPage := page;
                       clusterPages := relatedPages;
                       linkDensity := calculateClusterLinkDensity page relatedPages;
                       topicRelevance := calculateTopicRelevance page relatedPages |}],
       processed ∪ {[id page]} ∪ list_to_set (map id relatedPages))
    else st.

(** The clusters in the order they are pushed. *)
Definition emittedClusters (pages : list SitemapPage) : list LinkCluster :=
  (foldl (clusterStep pages) ([], ∅) pages).1.

Definition byTopicRelevance (a b : LinkCluster) : comparison :=
  (topicRelevance b ?= topicRelevance a)%Q.

Definition identifyTopicClusters (pages : list SitemapPage) : list LinkCluster :=
  sort byTopicRelevance (emittedClusters pages).

(** The identifiers a cluster holds: its pillar and its members. *)
Definition claimed (c : LinkCluster) : list jsstring :=
  id (pillarPage c) :: map id (clusterPages c).

(** [injectContextualLinks] *)
Definition linkTag (opp : LinkOpportunity) : jsstring :=
  lit "<a href=" ++ dquote ++ lit "/" ++ toPage opp ++ dquote
  ++ lit " class=" ++ dquote ++ lit "internal-link" ++ dquote ++ lit ">"
  ++ anchorText opp ++ lit "</a>".

(** One iteration: [modifiedContent] and the set [injected]. *)
Definition injectStep (st : jsstring * gset nat) (opp : LinkOpportunity)
  : jsstring * gset nat :=
  let '(modifiedContent, injected) := st in
  if decide (position opp ∈ injected) then st
  else
    let afterLink := substringFrom modifiedContent (position opp) in
    match indexOf afterLink (anchorText opp) 0 with
    | Some anchorStart =>
        if anchorStart <? 200 then
          let actualPosition := position opp + anchorStart in
          let before := substring modifiedContent 0 actualPosition in
          let after :=
            substringFrom modifiedContent
              (actualPosition + length (anchorText opp)) in
          (before ++ linkTag opp ++ after, injected ∪ {[actualPosition]})
        else st
    | None => st
    end.

Definition injectLoop (content : jsstring) (opportunities : list LinkOpportunity)
  : jsstring * gset nat :=
  foldl injectStep (content, ∅) opportunities.

Definition injectContextualLinks (content : jsstring)
  (opportunities : list LinkOpportunity) : jsstring :=
  (injectLoop content opportunities).1.

(** The offsets recorded in [injected] at the end of a pass. *)
Definition injectedOffsets (content : jsstring)
  (opportunities : list LinkOpportunity) : gset nat :=
  (injectLoop content opportunities).2.

(** The deepest nesting of anchor elements in a text: an opening [<a ] one
    level down, a closing tag one level up. *)
Fixpoint anchorDepthAux (s : jsstring) (depth deepest : nat) : nat :=
  match s with
  | [] => deepest
  | _ :: s' =>
      if startsWith s (lit "<a ")
      then anchorDepthAux s' (S depth) (Nat.max deepest (S depth))
      else if startsWith s (lit "</a>")
      then anchorDepthAux s' (depth - 1) deepest
      else anchorDepthAux s' depth deepest
  end.

Definition anchorDepth (s : jsstring) : nat := anchorDepthAux s 0 0.

(** [generateSmartLinkingStrategy] *)
Record MissingLink := {
  from : jsstring;
  to : jsstring;
  priority : nat
}.

Record Strategy := {
  recommendations : list jsstring;
  missingLinks : list MissingLink
}.

Definition recommendationFor (cluster : LinkCluster) : jsstring :=
  lit "Create a pillar page hub for " ++ dquote ++ title (pillarPage cluster)
  ++ dquote ++ lit " linking to "
  ++ numberToString (length (clusterPages cluster)) ++ lit " related articles".

(** The links pushed for one page of a cluster: to the pillar, from the
    pillar, and to every other page of the cluster. *)
Definition linksOfPage (cluster : LinkCluster) (clusterPage : SitemapPage)
  : list MissingLink :=
  let pillarSlug := slug (pillarPage cluster) in
  [{| from := slug clusterPage; to := pillarSlug; priority := 90 |};
   {| from := pillarSlug; to := slug clusterPage; priority := 95 |}]
  ++ flat_map
       (fun otherPage =>
          if decide (id otherPage = id clusterPage) then []
          else [{| from := slug clusterPage; to := slug otherPage;
                   priority := 60 |}])
       (clusterPages cluster).

Definition linksOfCluster (cluster : LinkCluster) : list MissingLink :=
  flat_map (linksOfPage cluster) (clusterPages cluster).

Definition byPriority (a b : MissingLink) : comparison :=
  Nat.compare (priority b) (priority a).

Definition generateSmartLinkingStrategy (clusters : list LinkCluster)
  : Strategy :=
  {| recommendations := map recommendationFor clusters;
     missingLinks :=
       slice (sort byPriority (flat_map linksOfCluster clusters)) 0 50 |}.

(** No anchor element inside another one. *)
Definition noNestedAnchors (s : jsstring) : Prop := anchorDepth s <= 1.

(** A list of clusters, in the order of their emission, in which a page
    held by a cluster is held by no later one. *)
Definition firstComeExclusive (clusters : list LinkCluster) : Prop :=
  forall pre c1 mid c2 post x,
    clusters = pre ++ c1 :: mid ++ c2 :: post ->
    In x (claimed c1) -> ~ In x (claimed c2).

(** A list of clusters, in the order of their emission, in which no
    pillar is a page held by an earlier cluster. *)
Definition pillarsUnclaimed (clusters : list LinkCluster) : Prop :=
  forall pre c1 mid c2 post,
    clusters = pre ++ c1 :: mid ++ c2 :: post ->
    ~ In (id (pillarPage c2)) (claimed c1).

(** What the loop of [identifyTopicClusters] keeps: the pages of the
    clusters pushed so far are in [processed], and no pillar was held by an
    earlier cluster. *)
Definition clusterInv (st : list LinkCluster * gset jsstring) : Prop :=
  (forall c x, In c st.1 -> In x (claimed c) -> x ∈ st.2)
  /\ pillarsUnclaimed st.1.

End LinkingEngine.

(** ** The answer-engine optimizer (aeo-optimizer.ts) *)

Module AEOOptimizer.

(** The field [type] of a snippet; [list_] is the tag ['list']. *)
Inductive SnippetType := featured | paragraph | list_ | table | faq.

Record AEOSnippet := {
  type : SnippetType;
  content : jsstring;
  score : nat;
  optimization : jsstring
}.

Definition isLt (c : ascii) : bool := code c =? 60.
Definition isGt (c : ascii) : bool := code c =? 62.

(** [s.replace(/<[^>]+>/g, '')].  [inTag] tells that an opening [<] has
    been read and [buf] holds what followed it (reversed).  A [<] directly
    followed by [>], or with no [>] after it, starts no match and stays. *)
Fixpoint stripTagsAux (s : jsstring) (inTag : bool) (buf : jsstring)
  : jsstring :=
  match s with
  | [] => if inTag then lit "<" ++ rev buf else []
  | c :: s' =>
      if inTag then
        if isGt c then
          match buf with
          | [] => lit "<" ++ c :: stripTagsAux s' false []
          | _ :: _ => stripTagsAux s' false []
          end
        else stripTagsAux s' true (c :: buf)
      else if isLt c then stripTagsAux s' true []
      else c :: stripTagsAux s' false []
  end.

Definition stripTags (s : jsstring) : jsstring := stripTagsAux s false [].

(** [/^(.*?is|are|means|refers to|can be defined as)/i.test(s)]: the
    anchor binds the whole group, so the first alternative matches when
    [is] occurs anywhere on the first line ([.] stops at a line
    terminator) and the others when the text starts with them. *)
Definition hasDefinitionPattern (paragraph : jsstring) : bool :=
  let lower := toLowerCase paragraph in
  includes (takeWhile (fun c => negb (isLineTerminator c)) lower) (lit "is")
  || startsWith lower (lit "are")
  || startsWith lower (lit "means")
  || startsWith lower (lit "refers to")
  || startsWith lower (lit "can be defined as").

(** [/\d+/.test(s)] *)
Definition hasNumbersOrData (paragraph : jsstring) : bool :=
  existsb isDigit paragraph.

(** The score of [scoreParagraphForAEO] before [Math.min(score, 100)]. *)
Definition rawParagraphScore (paragraph keyword : jsstring) : nat :=
  let score := 50 in
  let len := length paragraph in
  let score :=
    if (40 <=? len) && (len <=? 160) then score + 20
    else if (160 <? len) && (len <=? 300) then score + 10
    else score in
  let score :=
    if includes (toLowerCase paragraph) (toLowerCase keyword)
    then score + 15 else score in
  let startsWithKeyword :=
    startsWith (toLowerCase paragraph) (toLowerCase keyword) in
  let score := if startsWithKeyword then score + 10 else score in
  let score := if hasDefinitionPattern paragraph then score + 15 else score in
  let score := if hasNumbersOrData paragraph then score + 5 else score in
  score.

Definition scoreParagraphForAEO (paragraph keyword : jsstring) : nat :=
  Nat.min (rawParagraphScore paragraph keyword) 100.

(** The paragraphs [createDirectAnswer] walks through. *)
Definition paragraphsOf (content : jsstring) : list jsstring :=
  filter (fun p => 0 < length p) (map trim (splitOn content (lit "</p>"))).

(** The body of the loop of [createDirectAnswer]: the snippet returned at
    this paragraph, if any. *)
Definition directAnswerAt (keyword para : jsstring) : option AEOSnippet :=
  let cleanPara := stripTags para in
  if (40 <=? length cleanPara) && (length cleanPara <=? 300)
     && includes (toLowerCase cleanPara) (toLowerCase keyword)
  then
    let score := scoreParagraphForAEO cleanPara keyword in
    if 70 <=? score
    then Some {| type := paragraph; content := cleanPara; score := score;
                 optimization := lit "Direct answer optimized for AI Overview" |}
    else None
  else None.

Fixpoint firstAnswer (keyword : jsstring) (paragraphs : list jsstring)
  : option AEOSnippet :=
  match paragraphs with
  | [] => None
  | para :: rest =>
      match directAnswerAt keyword para with
      | Some snippet => Some snippet
      | None => firstAnswer keyword rest
      end
  end.

Definition createDirectAnswer (content keyword : jsstring) : option AEOSnippet :=
  firstAnswer keyword (paragraphsOf content).

(** The guard of the loop of [createDirectAnswer] on the length of a
    paragraph and on the keyword. *)
Definition passesGuard (keyword para : jsstring) : bool :=
  (40 <=? length (stripTags para)) && (length (stripTags para) <=? 300)
  && includes (toLowerCase (stripTags para)) (toLowerCase keyword).

(** *** The other snippets and the assembled result *)

Definition nl : jsstring := [ascii_of_nat 10].
Definition spaces (n : nat) : jsstring := repeat (ascii_of_nat 32) n.
Definition dquote : jsstring := [ascii_of_nat 34].

(** [[^>]*>]: the number of characters up to and including the first
    [>]. *)
Fixpoint throughGt (s : jsstring) : option nat :=
  match s with
  | [] => None
  | c :: s' => if isGt c then Some 1 else option_map S (throughGt s')
  end.

(** A text against the alternatives of a group under flag [i]; the
    alternatives are in lower case. *)
Definition alternative (alts : list jsstring) (s : jsstring)
  : option jsstring :=
  find (startsWith (toLowerCase s)) alts.

(** [<(open)[^>]*>] at the head of [s]: the length of the match. *)
Definition openTagAt (opens : list jsstring) (s : jsstring) : option nat :=
  match alternative opens s with
  | Some open =>
      option_map (Nat.add (length open)) (throughGt (drop (length open) s))
  | None => None
  end.

(** [X*?(close)] at the head of [s], for a lazy [X*?] and closing tags
    [closes]: the number of characters up to the end of the first closing
    tag.  [X] is [[\s\S]] when [anyChar] holds and [.] otherwise, which
    stops at a line terminator. *)
Fixpoint lazyThrough (anyChar : bool) (closes : list jsstring) (s : jsstring)
  : option nat :=
  match alternative closes s with
  | Some close => Some (length close)
  | None =>
      match s with
      | [] => None
      | c :: s' =>
          if anyChar || negb (isLineTerminator c)
          then option_map S (lazyThrough anyChar closes s')
          else None
      end
  end.

(** [<(open)[^>]*>X*?(close)] at the head of [s]. *)
Definition elementAt (opens : list jsstring) (anyChar : bool)
  (closes : list jsstring) (s : jsstring) : option nat :=
  match openTagAt opens s with
  | Some n => option_map (Nat.add n) (lazyThrough anyChar closes (drop n s))
  | None => None
  end.

(** [/<(ul|ol)[^>]*>[\s\S]*?<\/(ul|ol)>/gi] *)
Definition listAt : jsstring -> option nat :=
  elementAt [lit "<ul"; lit "<ol"] true [lit "</ul>"; lit "</ol>"].

(** [/<li[^>]*>.*?<\/li>/gi] *)
Definition itemAt : jsstring -> option nat :=
  elementAt [lit "<li"] false [lit "</li>"].

(** [/<table[^>]*>[\s\S]*?<\/table>/gi] *)
Definition tableAt : jsstring -> option nat :=
  elementAt [lit "<table"] true [lit "</table>"].

(** [/<tr[^>]*>/gi] *)
Definition rowAt : jsstring -> option nat := openTagAt [lit "<tr"].

(** [/<p[^>]*>.*?<\/p>/i] *)
Definition paragraphAt : jsstring -> option nat :=
  elementAt [lit "<p"] false [lit "</p>"].

Definition createListSnippet (content : jsstring) : option AEOSnippet :=
  match firstMatch listAt content 0 with
  | Some (k, n) =>
      let firstList := take n (drop k content) in
      let items := countRegex itemAt firstList in
      if (3 <=? items) && (items <=? 10)
      then Some {| type := list_; content := firstList; score := 85;
                   optimization :=
                     lit "List format optimized for featured snippet" |}
      else None
  | None => None
  end.

Definition createTableSnippet (content : jsstring) : option AEOSnippet :=
  match firstMatch tableAt content 0 with
  | Some (k, n) =>
      let firstTable := take n (drop k content) in
      let rows := countRegex rowAt firstTable in
      if (3 <=? rows) && (rows <=? 8)
      then Some {| type := table; content := firstTable; score := 90;
                   optimization :=
                     lit "Table format optimized for comparison snippet" |}
      else None
  | None => None
  end.

Record FAQ := {
  question : jsstring;
  answer : jsstring
}.

(** The template of [createFAQSnippet]. *)
Definition faqItem (entry : FAQ) : jsstring :=
  nl ++ spaces 10 ++ lit "<div itemscope itemprop=" ++ dquote
  ++ lit "mainEntity" ++ dquote ++ lit " itemtype=" ++ dquote
  ++ lit "https://schema.org/Question" ++ dquote ++ lit ">" ++ nl
  ++ spaces 12 ++ lit "<h3 itemprop=" ++ dquote ++ lit "name" ++ dquote
  ++ lit ">" ++ question entry ++ lit "</h3>" ++ nl ++ spaces 12
  ++ lit "<div itemscope itemprop=" ++ dquote ++ lit "acceptedAnswer"
  ++ dquote ++ lit " itemtype=" ++ dquote ++ lit "https://schema.org/Answer"
  ++ dquote ++ lit ">" ++ nl ++ spaces 14 ++ lit "<div itemprop=" ++ dquote
  ++ lit "text" ++ dquote ++ lit ">" ++ answer entry ++ lit "</div>" ++ nl
  ++ spaces 12 ++ lit "</div>" ++ nl ++ spaces 10 ++ lit "</div>" ++ nl
  ++ spaces 8.

Definition createFAQSnippet (faqSection : list FAQ) : AEOSnippet :=
  let faqHtml := concat (map faqItem (slice faqSection 0 5)) in
  {| type := faq; content := faqHtml; score := 95;
     optimization :=
       lit "FAQ schema markup for voice search and AI overviews" |}.

(** The template of [injectDirectAnswer]. *)
Definition directAnswerBox (answer : jsstring) : jsstring :=
  nl ++ spaces 8 ++ lit "<div class=" ++ dquote ++ lit "direct-answer"
  ++ dquote ++ lit " style=" ++ dquote
  ++ lit "background: #f0f9ff; padding: 1.5rem; border-left: 4px solid #3b82f6; margin-bottom: 2rem; border-radius: 8px;"
  ++ dquote ++ lit ">" ++ nl ++ spaces 10 ++ lit "<h3 style=" ++ dquote
  ++ lit "margin-top: 0; color: #1e40af; font-size: 1.125rem;" ++ dquote
  ++ lit ">Quick Answer</h3>" ++ nl ++ spaces 10 ++ lit "<p style=" ++ dquote
  ++ lit "margin-bottom: 0; font-size: 1rem; line-height: 1.6;" ++ dquote
  ++ lit ">" ++ answer ++ lit "</p>" ++ nl ++ spaces 8 ++ lit "</div>" ++ nl
  ++ spaces 6.

Definition injectDirectAnswer (content : jsstring) (answer : AEOSnippet)
  : jsstring :=
  match firstMatch paragraphAt content 0 with
  | Some (k, n) =>
      let firstParagraph := take n (drop k content) in
      replace content firstParagraph
        (directAnswerBox (AEOOptimizer.content answer) ++ firstParagraph)
  | None => content
  end.

(** The templates of [enhanceFAQMarkup]. *)
Definition faqMarkupItem (entry : FAQ) : jsstring :=
  nl ++ spaces 12 ++ lit "<div itemscope itemprop=" ++ dquote
  ++ lit "mainEntity" ++ dquote ++ lit " itemtype=" ++ dquote
  ++ lit "https://schema.org/Question" ++ dquote ++ lit " style=" ++ dquote
  ++ lit "margin-bottom: 1.5rem;" ++ dquote ++ lit ">" ++ nl ++ spaces 14
  ++ lit "<h3 itemprop=" ++ dquote ++ lit "name" ++ dquote ++ lit " style="
  ++ dquote
  ++ lit "color: #1e40af; font-size: 1.125rem; margin-bottom: 0.5rem;"
  ++ dquote ++ lit ">" ++ question entry ++ lit "</h3>" ++ nl ++ spaces 14
  ++ lit "<div itemscope itemprop=" ++ dquote ++ lit "acceptedAnswer"
  ++ dquote ++ lit " itemtype=" ++ dquote ++ lit "https://schema.org/Answer"
  ++ dquote ++ lit ">" ++ nl ++ spaces 16 ++ lit "<div itemprop=" ++ dquote
  ++ lit "text" ++ dquote ++ lit " style=" ++ dquote
  ++ lit "color: #4b5563; line-height: 1.6;" ++ dquote ++ lit ">"
  ++ answer entry ++ lit "</div>" ++ nl ++ spaces 14 ++ lit "</div>" ++ nl
  ++ spaces 12 ++ lit "</div>" ++ nl ++ spaces 10.

Definition faqMarkup (faqSection : list FAQ) : jsstring :=
  nl ++ spaces 6 ++ lit "<div itemscope itemtype=" ++ dquote
  ++ lit "https://schema.org/FAQPage" ++ dquote ++ lit " style=" ++ dquote
  ++ lit "margin-top: 3rem;" ++ dquote ++ lit ">" ++ nl ++ spaces 8
  ++ lit "<h2>Frequently Asked Questions</h2>" ++ nl ++ spaces 8
  ++ concat (map faqMarkupItem faqSection)
  ++ (nl ++ spaces 6 ++ lit "</div>" ++ nl ++ spaces 4).

Definition enhanceFAQMarkup (content : jsstring) (faqSection : list FAQ)
  : jsstring :=
  content ++ faqMarkup faqSection.

Definition ofNat (n : nat) : Q := inject_Z (Z.of_nat n).

(** [Math.min] on two rationals. *)
Definition minQ (a b : Q) : Q := if Qle_bool a b then a else b.

Definition hasType (t : SnippetType) (snippets : list AEOSnippet) : bool :=
  existsb (fun s => match type s, t with
                    | featured, featured | paragraph, paragraph
                    | list_, list_ | table, table | faq, faq => true
                    | _, _ => false
                    end) snippets.

Definition calculateAEOScore (snippets : list AEOSnippet) : Q :=
  match snippets with
  | [] => 0
  | _ :: _ =>
      let totalScore := foldl (fun sum snippet => sum + score snippet) 0 snippets in
      let avgScore := (ofNat totalScore / ofNat (length snippets))%Q in
      let bonus := 0 in
      let bonus := if hasType paragraph snippets then bonus + 10 else bonus in
      let bonus := if hasType list_ snippets then bonus + 10 else bonus in
      let bonus := if hasType table snippets then bonus + 10 else bonus in
      let bonus := if hasType faq snippets then bonus + 15 else bonus in
      minQ (avgScore + ofNat bonus) 100
  end.

Definition generateRecommendations (snippets : list AEOSnippet) (score : Q)
  : list jsstring :=
  let recommendations := [] in
  let recommendations :=
    if negb (hasType paragraph snippets)
    then recommendations
         ++ [lit "Add a concise direct answer (40-160 characters) at the beginning of the content"]
    else recommendations in
  let recommendations :=
    if negb (hasType list_ snippets)
    then recommendations
         ++ [lit "Include a bulleted or numbered list for better snippet capture"]
    else recommendations in
  let recommendations :=
    if negb (hasType table snippets)
    then recommendations
         ++ [lit "Consider adding a comparison table for structured data presentation"]
    else recommendations in
  let recommendations :=
    if negb (hasType faq snippets)
    then recommendations
         ++ [lit "Add FAQ section with schema markup for voice search optimization"]
    else recommendations in
  let recommendations :=
    if negb (Qle_bool 70 score)
    then recommendations
         ++ [lit "Improve content structure with clear headers and direct answers to common questions"]
    else recommendations in
  recommendations.

Record AEOOptimizationResult := {
  snippets : list AEOSnippet;
  overallScore : Q;
  recommendations : list jsstring;
  optimizedContent : jsstring
}.

(** [push] of an optional snippet. *)
Definition pushIf (snippets : list AEOSnippet) (snippet : option AEOSnippet)
  : list AEOSnippet :=
  match snippet with
  | Some found => snippets ++ [found]
  | None => snippets
  end.

Definition optimizeForAnswerEngines (content primaryKeyword : jsstring)
  (faqSection : option (list FAQ)) : AEOOptimizationResult :=
  let snippets := [] in
  let optimizedContent := content in
  let directAnswer := createDirectAnswer content primaryKeyword in
  let snippets := pushIf snippets directAnswer in
  let optimizedContent :=
    match directAnswer with
    | Some found => injectDirectAnswer optimizedContent found
    | None => optimizedContent
    end in
  let snippets := pushIf snippets (createListSnippet content) in
  let snippets := pushIf snippets (createTableSnippet content) in
  (* [faqSection && faqSection.length > 0] *)
  let faqs :=
    match faqSection with
    | Some (entry :: rest) => Some (entry :: rest)
    | _ => None
    end in
  let snippets := pushIf snippets (option_map createFAQSnippet faqs) in
  let optimizedContent :=
    match faqs with
    | Some entries => enhanceFAQMarkup optimizedContent entries
    | None => optimizedContent
    end in
  let overallScore := calculateAEOScore snippets in
  let recommendations := generateRecommendations snippets overallScore in
  {| snippets := snippets; overallScore := overallScore;
     recommendations := recommendations;
     optimizedContent := optimizedContent |}.

(** [body] is a segment of [text] that begins with one of the opening
    tags [opens] and ends with one of the closing tags [closes], letter
    case ignored. *)
Definition delimited (opens closes : list jsstring) (text body : jsstring)
  : Prop :=
  (exists pre post, text = pre ++ body ++ post)
  /\ (exists open, In open opens
                   /\ startsWith (toLowerCase body) open = true)
  /\ (exists close, In close closes
                    /\ drop (length body - length close) (toLowerCase body)
                       = close).

End AEOOptimizer.

(** ** The performance tracker (performance-tracker) *)

Module PerformanceTracker.

Record PerformanceMetrics := {
  optimizationSpeed : Q;
  contentQualityScore : Q;
  internalLinkDensity : Q;
  semanticRichness : Q;
  aeoScore : Q;
  timestamp : Z
}.

Record OptimizationLog := {
  id : jsstring;
  url : jsstring;
  title : jsstring;
  logTimestamp : Z;
  beforeScore : Q;
  afterScore : Q;
  improvements : list jsstring;
  duration : Q
}.

(** The two private arrays of the tracker.  [saveToStorage] copies them to
    the key-value store and swallows its failures; it does not touch the
    arrays, and is left out. *)
Record Tracker := {
  metrics : list PerformanceMetrics;
  logs : list OptimizationLog
}.

Definition MAX_HISTORY : nat := 100.

(** [new PerformanceTracker()] *)
Definition empty : Tracker := {| metrics := []; logs := [] |}.

(** [{ ...m, timestamp: Date.now() }] *)
Definition stamp (now : Z) (m : PerformanceMetrics) : PerformanceMetrics :=
  {| optimizationSpeed := optimizationSpeed m;
     contentQualityScore := contentQualityScore m;
     internalLinkDensity := internalLinkDensity m;
     semanticRichness := semanticRichness m;
     aeoScore := aeoScore m;
     timestamp := now |}.

(** [recordMetrics]; [now] is the value [Date.now()] returns. *)
Definition recordMetrics (now : Z) (m : PerformanceMetrics) (t : Tracker)
  : Tracker :=
  let pushed := metrics t ++ [stamp now m] in
  {| metrics :=
       if MAX_HISTORY <? length pushed
       then sliceFrom pushed (- Z.of_nat MAX_HISTORY)
       else pushed;
     logs := logs t |}.

(** Recording a sequence of samples, each with the time of its call. *)
Definition recordAll (samples : list (Z * PerformanceMetrics)) (t : Tracker)
  : Tracker :=
  foldl (fun t s => recordMetrics s.1 s.2 t) t samples.

Definition zeroMetrics : PerformanceMetrics :=
  {| optimizationSpeed := 0; contentQualityScore := 0;
     internalLinkDensity := 0; semanticRichness := 0; aeoScore := 0;
     timestamp := 0 |}.

(** The reducer of [getAverageMetrics]. *)
Definition addMetrics (acc m : PerformanceMetrics) : PerformanceMetrics :=
  {| optimizationSpeed := optimizationSpeed acc + optimizationSpeed m;
     contentQualityScore := contentQualityScore acc + contentQualityScore m;
     internalLinkDensity := internalLinkDensity acc + internalLinkDensity m;
     semanticRichness := semanticRichness acc + semanticRichness m;
     aeoScore := aeoScore acc + aeoScore m;
     timestamp := 0 |}.

(** [getAverageMetrics]; [now] is the value [Date.now()] returns. *)
Definition getAverageMetrics (now : Z) (t : Tracker)
  : option PerformanceMetrics :=
  if length (metrics t) =? 0 then None
  else
    let sum := foldl addMetrics zeroMetrics (metrics t) in
    let count := inject_Z (Z.of_nat (length (metrics t))) in
    Some {| optimizationSpeed := optimizationSpeed sum / count;
            contentQualityScore := contentQualityScore sum / count;
            internalLinkDensity := internalLinkDensity sum / count;
            semanticRichness := semanticRichness sum / count;
            aeoScore := aeoScore sum / count;
            timestamp := now |}.

(** [recordOptimization] *)
Definition recordOptimization (log : OptimizationLog) (t : Tracker) : Tracker :=
  let pushed := logs t ++ [log] in
  {| metrics := metrics t;
     logs :=
       if MAX_HISTORY <? length pushed
       then sliceFrom pushed (- Z.of_nat MAX_HISTORY)
       else pushed |}.

(** [getRecentMetrics(count)] and [getRecentLogs(count)] *)
Definition getRecentMetrics (count : Z) (t : Tracker) : list PerformanceMetrics :=
  sliceFrom (metrics t) (- count).

Definition getRecentLogs (count : Z) (t : Tracker) : list OptimizationLog :=
  sliceFrom (logs t) (- count).

Inductive Trend := improving | stable | declining.

(** The mean [reduce((sum, m) => sum + m.contentQualityScore, 0) / length],
    in exact arithmetic: the source rounds every sum and the quotient to a
    double, which gives the same value when the scores are whole numbers
    and the mean is one. *)
Definition meanQuality (window : list PerformanceMetrics) : Q :=
  (foldl (fun sum m => sum + contentQualityScore m) 0 window
   / inject_Z (Z.of_nat (length window)))%Q.

(** [getPerformanceTrend] *)
Definition getPerformanceTrend (t : Tracker) : Trend :=
  if length (metrics t) <? 5 then stable
  else
    let recent := sliceFrom (metrics t) (-5) in
    let older := slice (metrics t) (-10) (-5) in
    if length older =? 0 then stable
    else
      let diff := (meanQuality recent - meanQuality older)%Q in
      match (diff ?= 2)%Q with
      | Gt => improving
      | _ => match (diff ?= -2)%Q with
             | Lt => declining
             | _ => stable
             end
      end.

Definition getTotalOptimizations (t : Tracker) : nat := length (logs t).

(** [getAverageImprovement], in exact arithmetic: the source rounds every
    difference, every sum and the quotient to a double. *)
Definition getAverageImprovement (t : Tracker) : Q :=
  if length (logs t) =? 0 then 0%Q
  else
    let improvements :=
      map (fun log => afterScore log - beforeScore log)%Q (logs t) in
    let sum := foldl (fun acc val => acc + val)%Q 0%Q improvements in
    (sum / inject_Z (Z.of_nat (length improvements)))%Q.

(** A score that is the whole number [z], from 0 to 100, as the score
    functions of the repository give them.  The sums, the differences and
    the means of equal values that the tracker computes on such scores are
    whole numbers below 2^53, which the arithmetic of the source computes
    exactly, and a quotient that is not exact is rounded to the nearest
    number, which keeps it between whole-number bounds. *)
Definition wholeScore (q : Q) (z : Z) : Prop :=
  (0 <= z <= 100)%Z /\ (q == inject_Z z)%Q.

End PerformanceTracker.

(** ** The score functions exported beside the tracker *)

Module Scoring.

(** The fields of the [content] argument that the score functions read.
    [None] is an absent field; of an array only the length is read, of
    [jsonLdSchema] only its keys, of [strategy] only whether it is truthy. *)
Record GeneratedContent := {
  title : option jsstring;
  metaDescription : option jsstring;
  semanticKeywords : option (list jsstring);
  content : option jsstring;
  imageDetails : option (list jsstring);
  faqSection : option (list (jsstring * jsstring));
  jsonLdSchema : option (list jsstring);
  references : option (list jsstring);
  strategy : bool;
  keyTakeaways : option (list jsstring)
}.

(** [x && x.length >= n] and [x?.length >= n] *)
Definition atLeast {A} (x : option (list A)) (n : nat) : bool :=
  match x with
  | Some l => n <=? length l
  | None => false
  end.

(** [x && x.length > n] *)
Definition longerThan {A} (x : option (list A)) (n : nat) : bool :=
  match x with
  | Some l => n <? length l
  | None => false
  end.

Definition isSome {A} (x : option A) : bool :=
  match x with Some _ => true | None => false end.

Definition points (b : bool) (n : nat) : nat := if b then n else 0.

Definition calculateContentQualityScore (c : GeneratedContent) : nat :=
  let score := 0 in
  let score := score + points (longerThan (title c) 20) 10 in
  let score := score + points (atLeast (metaDescription c) 120) 10 in
  let score := score + points (atLeast (semanticKeywords c) 5) 15 in
  let score := score + points (longerThan (content c) 1000) 20 in
  let score := score + points (atLeast (imageDetails c) 2) 10 in
  let score := score + points (atLeast (faqSection c) 3) 10 in
  let score := score + points (isSome (jsonLdSchema c)) 10 in
  let score := score + points (atLeast (references c) 3) 15 in
  Nat.min score 100.

Definition calculateSemanticRichness (c : GeneratedContent) : nat :=
  let score := 0 in
  let semanticKeywords :=
    match semanticKeywords c with Some l => length l | None => 0 end in
  let score := score + Nat.min (semanticKeywords * 5) 30 in
  let score := score + points (strategy c) 20 in
  let score := score + points (atLeast (faqSection c) 3) 20 in
  let score := score + points (atLeast (references c) 3) 15 in
  let score := score + points (atLeast (keyTakeaways c) 3) 15 in
  Nat.min score 100.

(** [text.indexOf(p) < n], where a missing [p] gives -1. *)
Definition indexBelow (text p : jsstring) (n : nat) : bool :=
  match indexOf text p 0 with
  | Some i => i <? n
  | None => true
  end.

(** The five criteria of [calculateAEOScore]. *)
Definition hasConciseAnswer (c : GeneratedContent) : bool :=
  match content c with
  | Some text => includes text (lit "<p>") && indexBelow text (lit "</p>") 300
  | None => false
  end.

Definition hasList (c : GeneratedContent) : bool :=
  match content c with
  | Some text => includes text (lit "<ul>") || includes text (lit "<ol>")
  | None => false
  end.

Definition hasTable (c : GeneratedContent) : bool :=
  match content c with
  | Some text => includes text (lit "<table>")
  | None => false
  end.

Definition hasSchema (c : GeneratedContent) : bool :=
  match jsonLdSchema c with
  | Some keys => 0 <? length keys
  | None => false
  end.

Definition calculateAEOScore (c : GeneratedContent) : nat :=
  let score := 0 in
  let score := score + points (hasConciseAnswer c) 20 in
  let score := score + points (hasList c) 15 in
  let score := score + points (hasTable c) 15 in
  let hasFAQ := atLeast (faqSection c) 3 in
  let score := score + points hasFAQ 25 in
  let score := score + points (hasSchema c) 25 in
  Nat.min score 100.

(** Of a page of [existingPages] only the slug is read. *)
Record ExistingPage := {
  slug : jsstring
}.

Definition isQuote (c : ascii) : bool := (code c =? 34) || (code c =? 39).

(** The regular expression of [calculateInternalLinkDensity] at the head of
    [s]: the length of the match.  The expression reads [href=], a single
    or double quote, the value and again a single or double quote; the
    value is the longest run without a quote, it must not be empty and a
    quote must follow it. *)
Definition hrefAt (s : jsstring) : option nat :=
  if startsWith s (lit "href=") then
    match drop 5 s with
    | q :: rest =>
        if isQuote q then
          let value := takeWhile (fun c => negb (isQuote c)) rest in
          match value, drop (length value) rest with
          | _ :: _, _ :: _ => Some (5 + 1 + length value + 1)
          | _, _ => None
          end
        else None
    | [] => None
    end
  else None.

Definition internalLinks (content : jsstring)
  (existingPages : list ExistingPage) : list jsstring :=
  let linkMatches := matchAll hrefAt content in
  List.filter
    (fun link => existsb (fun page => includes link (slug page)) existingPages)
    linkMatches.

Definition calculateInternalLinkDensity (content : jsstring)
  (existingPages : list ExistingPage) : Q :=
  let internalLinks := internalLinks content existingPages in
  let wordCount := length (splitWhitespace content) in
  let linksPerHundred :=
    (LinkingEngine.ofNat (length internalLinks)
     / LinkingEngine.ofNat wordCount * 100)%Q in
  AEOOptimizer.minQ (linksPerHundred * 10) 100.

End Scoring.

(** ** Test data *)

Module Data.

Import ParallelEngine.

Definition mkTask (name : string) (p : Priority) : AITask :=
  {| promptKey := lit "generateContent"; args := []; model := lit "gemini";
     priority := p; id := lit name |}.

Definition taskHigh : AITask := mkTask "t-high" high.
Definition taskLow : AITask := mkTask "t-low" low.

(** A collaborator that fails every call with an [Error] carrying a
    message. *)
Definition failingCall (t : AITask) : @Outcome unit :=
  Failed (ThrownValue (Some (lit "quota exceeded"))) 12.



(** A collaborator that resolves the high-priority calls and fails the
    others. *)
Definition mixedCall (t : AITask) : @Outcome unit :=
  match priority t with
  | high => Resolved (Some tt) 7
  | _ => Failed (ThrownValue (Some (lit "quota exceeded"))) 12
  end.

(** The scheduler after the high-priority call of [[taskLow; taskHigh]] has
    settled and the low-priority call has started. *)
Definition lowStarted : Sched :=
  {| groups := []; windows := []; todo := []; inflight := [taskLow];
     trace := [Dispatch taskHigh; Collect taskHigh; Dispatch taskLow] |}.

(** The corpus page and the texts of the link scenarios. *)
Import LinkingEngine.

Definition cyclingPage : SitemapPage :=
  {| id := lit "p1"; title := lit "Best Smartwatches For Cycling";
     slug := lit "smartwatches"; wordCount := Some 1200 |}.

Definition guideText : jsstring :=
  lit "This is a cycling guide. Another sentence here!".

Definition guideSentence : jsstring := lit "This is a cycling guide.".


(** A mention that directly follows the terminator of the sentence
    before. *)
Definition abuttingText : jsstring := lit "Hello.cycling guide here.".



Definition cyclingAt (position : nat) : LinkOpportunity :=
  {| fromPage := lit "current"; toPage := lit "bike";
     anchorText := lit "cycling"; relevanceScore := 80;
     contextSnippet := lit "cycling"; position := position;
     reason := lit "mention" |}.

(** The opening tag [injectContextualLinks] writes for [cyclingAt]. *)
Definition bikeOpen : jsstring :=
  lit "<a href=" ++ dquote ++ lit "/bike" ++ dquote ++ lit " class="
  ++ dquote ++ lit "internal-link" ++ dquote ++ lit ">".

Definition mkPage (name heading : string) : SitemapPage :=
  {| id := lit name; title := lit heading; slug := lit name;
     wordCount := None |}.

(** Four pages: A shares a keyword with B and with C, D with B and C but
    not with A. *)
Definition pageA : SitemapPage := mkPage "A" "alpha gamma".
Definition pageB : SitemapPage := mkPage "B" "alpha delta".
Definition pageC : SitemapPage := mkPage "C" "gamma delta".
Definition pageD : SitemapPage := mkPage "D" "delta omega".

Definition fourPages : list SitemapPage := [pageA; pageB; pageC; pageD].

Definition clusterOf (pillar : SitemapPage) (members : list SitemapPage)
  : LinkCluster :=
  {| pillarPage := pillar; clusterPages := members;
     linkDensity := calculateClusterLinkDensity pillar members;
     topicRelevance := calculateTopicRelevance pillar members |}.

Definition clusterA : LinkCluster := clusterOf pageA [pageB; pageC].
Definition clusterD : LinkCluster := clusterOf pageD [pageB; pageC].

(** Samples for the tracker. *)
Import PerformanceTracker.

Definition sampleAt (clock : Z) (quality : Q) : PerformanceMetrics :=
  {| optimizationSpeed := 350; contentQualityScore := quality;
     internalLinkDensity := 12 # 10; semanticRichness := 55; aeoScore := 70;
     timestamp := clock |}.

(** The [n]-th recording: at time [n], with quality [n]. *)
Definition recording (n : nat) : Z * PerformanceMetrics :=
  (Z.of_nat n, sampleAt 0 (inject_Z (Z.of_nat n))).

(** The recordings 2 to 100. *)
Definition ninetyNine : list (Z * PerformanceMetrics) :=
  map recording (seq 2 99).

(** A text for the direct answer: a short paragraph, the definitional one,
    and a last one. *)
Definition definitionalParagraph : jsstring :=
  lit "Cycling is a sport that uses bikes on public roads".

(** A paragraph of 50 characters like the definitional one, with a
    digit. *)
Definition digitParagraph : jsstring :=
  lit "Cycling is a sport that uses 2 wheels on the roads".

Definition articleText : jsstring :=
  lit "<p>Short one.</p> <p>Cycling is a sport that uses bikes on public roads</p><p>x</p>".

(** Four content items; the first carries the identifier that the index
    gives to the second. *)
Definition fourItems : list ParallelEngine.ContentItem :=
  [{| ParallelEngine.itemText := lit "first";
      ParallelEngine.itemId := Some (lit "1") |};
   {| ParallelEngine.itemText := lit "second";
      ParallelEngine.itemId := None |};
   {| ParallelEngine.itemText := lit "third";
      ParallelEngine.itemId := Some (lit "c") |};
   {| ParallelEngine.itemText := lit "fourth";
      ParallelEngine.itemId := None |}].

(** The opportunity discovered in [guideText]. *)
Definition guideMention : LinkingEngine.LinkOpportunity :=
  {| fromPage := lit "current"; toPage := lit "smartwatches";
     anchorText := lit "cycling"; relevanceScore := 80;
     contextSnippet := guideSentence; position := 10;
     reason := lit "Contextually relevant mention of "
               ++ dquote ++ lit "cycling" ++ dquote |}.

(** A text without a sentence terminator, and one with a single mention. *)
Definition plainText : jsstring := lit "plain words only".
Definition mentionText : jsstring := lit "about cycling today".

(** Five samples of one content quality, and two trackers built of them. *)
Definition plateau (quality : Q) : list PerformanceMetrics :=
  repeat (sampleAt 0 quality) 5.

Definition youngTracker : Tracker :=
  {| metrics := plateau 60; logs := [] |}.

Definition risingTracker : Tracker :=
  {| metrics := plateau 60 ++ plateau 70; logs := [] |}.

(** A generated content whose only paragraph is never closed. *)
Definition unclosedText : jsstring := lit "<p>never closed".

Definition unclosedContent : Scoring.GeneratedContent :=
  {| Scoring.title := None; Scoring.metaDescription := None;
     Scoring.semanticKeywords := None; Scoring.content := Some unclosedText;
     Scoring.imageDetails := None; Scoring.faqSection := None;
     Scoring.jsonLdSchema := None; Scoring.references := None;
     Scoring.strategy := false; Scoring.keyTakeaways := None |}.

(** A FAQ entry, a text with a list of three items, and a paragraph with a
    doubled dollar sign. *)
Definition cyclingFAQ : AEOOptimizer.FAQ :=
  {| AEOOptimizer.question := lit "What is cycling?";
     AEOOptimizer.answer := lit "A sport on two wheels." |}.

Definition listText : jsstring :=
  lit "Tips: <UL class='x'><li>one</li><li>two</li><li>three</li></ul> end".

Definition pricedText : jsstring :=
  lit "<p>Cycling is a sport that costs $$ and uses bikes</p>".

End Data.

(** * Properties *)

(** ** Strings and arrays *)

Section JSFacts.

Lemma startsWith_nil (s : jsstring) : startsWith s [] = true.
Proof. destruct s; reflexivity. Qed.

Lemma startsWith_app (s p : jsstring) :
  startsWith s p = true <-> exists r, s = p ++ r.
Proof.
  revert s. induction p as [|a p IH]; intros s.
  - rewrite startsWith_nil. split; [intros _; exists s; reflexivity | reflexivity].
  - destruct s as [|b s]; simpl.
    + split; [discriminate | intros [r Hr]; discriminate].
    + rewrite andb_true_iff, Ascii.eqb_eq, IH. split.
      * intros [-> [r ->]]. exists r. reflexivity.
      * intros [r Hr]. simpl in Hr. injection Hr as -> ->.
        split; [reflexivity | exists r; reflexivity].
Qed.

Lemma startsWith_length (s p : jsstring) :
  startsWith s p = true -> length p <= length s.
Proof.
  intros [r ->]%startsWith_app. rewrite length_app. lia.
Qed.

Lemma toLowerCase_length (s : jsstring) : length (toLowerCase s) = length s.
Proof. apply length_map. Qed.

(** [indexOfScan] returns an offset where the pattern occurs. *)
Lemma indexOfScan_sound (s p : jsstring) (k i : nat) :
  indexOfScan s p k = Some i ->
  k <= i /\ i - k <= length s /\ startsWith (drop (i - k) s) p = true.
Proof.
  revert k. induction s as [|c s IH]; intros k.
  - unfold indexOfScan. destruct (startsWith [] p) eqn:E; [|discriminate].
    intros [= <-]. rewrite Nat.sub_diag. simpl. auto with lia.
  - cbn [indexOfScan]. destruct (startsWith (c :: s) p) eqn:E.
    + intros [= <-]. rewrite Nat.sub_diag. simpl. auto with lia.
    + intros H. apply IH in H as (Hle & Hlen & Hocc).
      replace (i - k) with (S (i - S k)) by lia. simpl. auto with lia.
Qed.

Lemma indexOf_sound (s p : jsstring) (from i : nat) :
  indexOf s p from = Some i ->
  from <= i \/ length s <= from /\ i = length s /\ p = [].
Proof.
  unfold indexOf. intros H.
  destruct (Nat.le_gt_cases (length s) from) as [Hge|Hlt].
  - right. rewrite drop_ge in H by lia. simpl in H.
    destruct p; simpl in H; [|discriminate].
    injection H as <-. split; [lia | split; [lia | reflexivity]].
  - left. apply indexOfScan_sound in H. lia.
Qed.

Lemma indexOf_occurs (s p : jsstring) (from i : nat) :
  indexOf s p from = Some i -> occursAt s p i.
Proof.
  unfold indexOf, occursAt. intros H.
  apply indexOfScan_sound in H as (Hle & Hlen & Hocc).
  rewrite drop_drop in Hocc.
  destruct (Nat.le_gt_cases (length s) from) as [Hge|Hlt].
  - rewrite drop_ge in Hocc by lia. rewrite drop_ge; [exact Hocc|].
    rewrite length_drop in Hlen. lia.
  - replace (from + (i - Nat.min from (length s))) with i in Hocc by lia.
    exact Hocc.
Qed.

Lemma occursAt_bound (s p : jsstring) (i : nat) :
  occursAt s p i -> p <> [] -> i + length p <= length s.
Proof.
  unfold occursAt. intros H Hp. apply startsWith_length in H.
  rewrite length_drop in H. destruct p; [congruence|]. simpl in *. lia.
Qed.

(** [sort] rearranges its argument. *)
Lemma insertBy_perm {A} (cmp : A -> A -> comparison) (x : A) (l : list A) :
  Permutation (insertBy cmp x l) (x :: l).
Proof.
  induction l as [|y l IH]; simpl; [reflexivity|].
  destruct (cmp x y); try reflexivity.
  rewrite IH. apply perm_swap.
Qed.

Lemma sort_perm {A} (cmp : A -> A -> comparison) (l : list A) :
  Permutation (sort cmp l) l.
Proof.
  induction l as [|x l IH]; simpl; [reflexivity|].
  rewrite insertBy_perm. constructor. exact IH.
Qed.

Lemma sort_In {A} (cmp : A -> A -> comparison) (l : list A) (x : A) :
  In x (sort cmp l) <-> In x l.
Proof.
  split; apply Permutation_in; [|symmetry]; apply sort_perm.
Qed.

Lemma In_take {A} (n : nat) (l : list A) (x : A) : In x (take n l) -> In x l.
Proof.
  revert l. induction n as [|n IH]; intros [|y l]; simpl; try tauto.
  intros [->|H]; [left; reflexivity | right; apply IH, H].
Qed.

Lemma In_drop {A} (n : nat) (l : list A) (x : A) : In x (drop n l) -> In x l.
Proof.
  revert l. induction n as [|n IH]; intros [|y l]; simpl; try tauto.
  intros H. right. apply IH, H.
Qed.

Lemma slice_In {A} (l : list A) (a b : Z) (x : A) :
  In x (slice l a b) -> In x l.
Proof.
  unfold slice. intros H. apply In_take, In_drop in H. exact H.
Qed.

(** A window [slice(i, i + n)] with [0 <= i] and [0 < n]. *)
Lemma slice_window {A} (l : list A) (i n : Z) :
  (0 <= i)%Z -> (0 < n)%Z ->
  slice l i (i + n) = take (Z.to_nat n) (drop (Z.to_nat i) l).
Proof.
  intros Hi Hn. unfold slice, relIndex.
  destruct (Z.ltb_spec i 0); [lia|].
  destruct (Z.ltb_spec (i + n) 0); [lia|].
  destruct (Z.le_gt_cases (Z.of_nat (length l)) i) as [Hout|Hin].
  - rewrite !drop_ge by lia. rewrite !take_nil. reflexivity.
  - rewrite (Z.min_l i) by lia.
    destruct (Z.le_gt_cases (i + n) (Z.of_nat (length l))).
    + rewrite Z.min_l by lia. do 2 f_equal. lia.
    + rewrite Z.min_r by lia.
      rewrite !take_ge; [reflexivity | |]; rewrite length_drop; lia.
Qed.

(** The primitives on small inputs. *)

Example toLowerCase_title :
  toLowerCase (lit "Best Smartwatches For Cycling")
  = lit "best smartwatches for cycling".
Proof. reflexivity. Qed.

Example splitWhitespace_edges :
  splitWhitespace (lit " a  b ") = [lit ""; lit "a"; lit "b"; lit ""].
Proof. reflexivity. Qed.

Example splitOn_paragraphs :
  splitOn (lit "<p>a</p><p>b</p>") (lit "</p>") = [lit "<p>a"; lit "<p>b"; lit ""].
Proof. reflexivity. Qed.

Example indexOf_examples :
  indexOf (lit "abcabc") (lit "bc") 2 = Some 4
  /\ indexOf (lit "abc") (lit "") 7 = Some 3
  /\ indexOf (lit "abc") (lit "d") 0 = None.
Proof. repeat split; reflexivity. Qed.

Example slice_examples :
  slice [1; 2; 3; 4; 5] 0 (-1) = [1; 2; 3; 4]
  /\ slice [1; 2; 3; 4; 5] 3 10 = [4; 5]
  /\ slice [1; 2; 3] (-1) (-2) = []
  /\ sliceFrom [1; 2; 3; 4; 5] (-2) = [4; 5].
Proof. repeat split; reflexivity. Qed.

Example stable_sort_keeps_ties :
  sort (fun a b : nat * nat => Nat.compare b.1 a.1) [(1, 0); (2, 1); (1, 2); (2, 3)]
  = [(2, 1); (2, 3); (1, 0); (1, 2)].
Proof. reflexivity. Qed.

End JSFacts.

(** ** The scheduler *)

Section SchedulerFacts.

Import ParallelEngine.

Context {Payload : Type}.
Variable callAI : AITask -> @Outcome Payload.
Variable typeErrorMessage : jsstring.
Variable maxConcurrent : Z.

(** With a chunk size that is not positive the index never reaches the
    length: the loop of [chunkTasks] does not end. *)
Lemma chunkLoop_stuck (fuel : nat) (tasks : list AITask) (n i : Z) :
  (n <= 0)%Z -> (i < Z.of_nat (length tasks))%Z ->
  chunkLoop fuel tasks n i = None.
Proof.
  intros Hn. revert i. induction fuel as [|fuel IH]; intros i Hi; simpl.
  - reflexivity.
  - destruct (Z.ltb_spec i (Z.of_nat (length tasks))); [|lia].
    rewrite IH by lia. reflexivity.
Qed.

(** When the loop ends, the chunks are the tasks from [i] on, in order. *)
Lemma chunkLoop_concat (fuel : nat) (tasks : list AITask) (n i : Z) cs :
  chunkLoop fuel tasks n i = Some cs -> (0 <= i)%Z ->
  concat cs = drop (Z.to_nat i) tasks.
Proof.
  revert i cs. induction fuel as [|fuel IH]; intros i cs; simpl.
  - discriminate.
  - destruct (Z.ltb_spec i (Z.of_nat (length tasks))) as [Hin|Hout].
    + destruct (Z.le_gt_cases n 0) as [Hn|Hn].
      * rewrite chunkLoop_stuck by lia. discriminate.
      * destruct (chunkLoop fuel tasks n (i + n)) as [cs'|] eqn:E; [|discriminate].
        intros [= <-] Hi. simpl.
        rewrite (IH _ _ E) by lia. rewrite slice_window by lia.
        replace (Z.to_nat (i + n)) with (Z.to_nat i + Z.to_nat n) by lia.
        rewrite <- drop_drop. apply take_drop.
    + intros [= <-] Hi. rewrite drop_ge by lia. reflexivity.
Qed.

(** With a positive chunk size the loop ends within [length tasks - i]
    rounds. *)
Lemma chunkLoop_total (fuel : nat) (tasks : list AITask) (n i : Z) :
  (0 < n)%Z -> (0 <= i)%Z ->
  (Z.max 0 (Z.of_nat (length tasks) - i) < Z.of_nat fuel)%Z ->
  exists cs, chunkLoop fuel tasks n i = Some cs.
Proof.
  intros Hn. revert i. induction fuel as [|fuel IH]; intros i Hi Hfuel; simpl.
  - lia.
  - destruct (Z.ltb_spec i (Z.of_nat (length tasks))) as [Hin|Hout].
    + destruct (IH (i + n)%Z) as [cs ->]; [lia | lia |]. eauto.
    + eauto.
Qed.

Lemma runChunk_concat (cs : list (list AITask)) :
  concat (map (runChunk callAI typeErrorMessage) cs)
  = runChunk callAI typeErrorMessage (concat cs).
Proof.
  unfold runChunk. induction cs as [|c cs IH]; simpl; [reflexivity|].
  rewrite IH, map_app. reflexivity.
Qed.

(** A batch that returns, returns the results of its tasks in order. *)
Lemma executeParallelBatch_returns (fuel : nat) (tasks : list AITask) results :
  executeParallelBatch callAI typeErrorMessage maxConcurrent fuel tasks
  = Some results ->
  results = runChunk callAI typeErrorMessage tasks.
Proof.
  unfold executeParallelBatch, chunkTasks.
  destruct (chunkLoop fuel tasks maxConcurrent 0) as [cs|] eqn:E; [|discriminate].
  intros [= <-]. rewrite runChunk_concat.
  rewrite (chunkLoop_concat _ _ _ _ _ E) by lia. reflexivity.
Qed.

Lemma executeParallelBatch_total (fuel : nat) (tasks : list AITask) :
  (0 < maxConcurrent)%Z -> length tasks < fuel ->
  executeParallelBatch callAI typeErrorMessage maxConcurrent fuel tasks
  = Some (runChunk callAI typeErrorMessage tasks).
Proof.
  intros Hn Hfuel.
  destruct (chunkLoop_total fuel tasks maxConcurrent 0) as [cs E]; [lia..|].
  unfold executeParallelBatch, chunkTasks. rewrite E, runChunk_concat.
  rewrite (chunkLoop_concat _ _ _ _ _ E) by lia. reflexivity.
Qed.

Lemma processResult_id (task : AITask) :
  resultId (processResult task (executeTask callAI typeErrorMessage task))
  = id task.
Proof.
  unfold executeTask. destruct (callAI task) as [r d|[|m] d]; reflexivity.
Qed.

Lemma NoDup_map_inj {A B} (f : A -> B) (l : list A) (x y : A) :
  List.NoDup (map f l) -> In x l -> In y l -> f x = f y -> x = y.
Proof.
  induction l as [|a l IH]; simpl; [tauto|].
  intros Hnd Hx Hy Hf. inversion Hnd as [|? ? Hnotin Hnd']; subst.
  destruct Hx as [->|Hx], Hy as [->|Hy]; auto.
  - exfalso. apply Hnotin. rewrite Hf. apply in_map, Hy.
  - exfalso. apply Hnotin. rewrite <- Hf. apply in_map, Hx.
Qed.

(** C1 (as amended): for every batch and every positive concurrency limit,
    [executeParallelBatch] returns, with one result per task: the results
    are as many as the tasks, their identifiers are those of the tasks in
    the same order, and when the identifiers of the batch are unique each
    result carries the identifier of exactly one task. *)
Theorem executeParallelBatch_one_result_per_task (tasks : list AITask) :
  (0 < maxConcurrent)%Z ->
  exists results,
    (forall fuel, length tasks < fuel ->
       executeParallelBatch callAI typeErrorMessage maxConcurrent fuel tasks
       = Some results)
    /\ length results = length tasks
    /\ map resultId results = map id tasks
    /\ (List.NoDup (map id tasks) ->
        forall r, In r results ->
          exists! t, In t tasks /\ id t = resultId r).
Proof.
  intros Hn. exists (runChunk callAI typeErrorMessage tasks).
  assert (Hids : map resultId (runChunk callAI typeErrorMessage tasks)
                 = map id tasks).
  { unfold runChunk. rewrite map_map. apply map_ext. apply processResult_id. }
  split; [|split; [|split]].
  - intros fuel Hfuel. apply executeParallelBatch_total; assumption.
  - unfold runChunk. apply length_map.
  - exact Hids.
  - intros Hnd r Hr. unfold runChunk in Hr.
    apply in_map_iff in Hr as (t & <- & Ht).
    exists t. split.
    + split; [exact Ht | symmetry; apply processResult_id].
    + intros t' [Ht' Heq]. rewrite processResult_id in Heq.
      apply (NoDup_map_inj id tasks); auto.
Qed.


End SchedulerFacts.

(** ** The order of the priority groups *)

Section PriorityOrder.

Import ParallelEngine.

Variable maxConcurrent : Z.

(** The entry [groupByPriority] makes for one priority. *)
Lemma groupByPriority_In (tasks : list AITask) g :
  In g (groupByPriority tasks) ->
  g.2 = filter (fun t => priority t = g.1) tasks.
Proof.
  unfold groupByPriority. rewrite in_flat_map. intros (p & _ & Hg).
  destruct (0 <? length (filter (fun t => priority t = p) tasks)); simpl in Hg.
  - destruct Hg as [<-|[]]. reflexivity.
  - destruct Hg.
Qed.

Lemma groupByPriority_labels (tasks : list AITask) g t :
  In g (groupByPriority tasks) -> In t g.2 -> priority t = g.1.
Proof.
  intros Hg Ht. rewrite (groupByPriority_In _ _ Hg) in Ht.
  apply list_elem_of_In, list_elem_of_filter in Ht. tauto.
Qed.

Lemma groupByPriority_cover (tasks : list AITask) h :
  In h tasks -> In h (pendingTasks (groupByPriority tasks)).
Proof.
  intros Hh.
  assert (Hf : In h (filter (fun t => priority t = priority h) tasks)).
  { apply list_elem_of_In, list_elem_of_filter. split; [reflexivity|].
    apply list_elem_of_In, Hh. }
  unfold pendingTasks. apply in_flat_map.
  exists (priority h, filter (fun t => priority t = priority h) tasks).
  split; [|exact Hf].
  unfold groupByPriority. apply in_flat_map. exists (priority h). split.
  - destruct (priority h); simpl; auto.
  - destruct (filter (fun t => priority t = priority h) tasks); [destruct Hf|].
    simpl. left. reflexivity.
Qed.

Lemma groupByPriority_sorted (tasks : list AITask) :
  StronglySorted byRank (groupByPriority tasks).
Proof.
  unfold groupByPriority. simpl.
  destruct (0 <? length (filter (fun t => priority t = high) tasks));
    destruct (0 <? length (filter (fun t => priority t = medium) tasks));
    destruct (0 <? length (filter (fun t => priority t = low) tasks));
    simpl; repeat constructor; unfold byRank; simpl; lia.
Qed.

Lemma In_pendingTasks gs h :
  In h (pendingTasks gs) <-> exists g, In g gs /\ In h g.2.
Proof. unfold pendingTasks. apply in_flat_map. Qed.

Lemma In_active s t :
  In t (active s) <->
  In t (concat (windows s)) \/ In t (todo s) \/ In t (inflight s).
Proof. unfold active. rewrite !in_app_iff. reflexivity. Qed.

(** Where a trace extended by one event splits at an event. *)
Lemma snoc_split {A} (tr pre post : list A) (e x : A) :
  tr ++ [e] = pre ++ x :: post ->
  (post = [] /\ pre = tr /\ x = e)
  \/ exists post', post = post' ++ [e] /\ tr = pre ++ x :: post'.
Proof.
  destruct post as [|y post _] using rev_ind.
  - intros H. apply app_inj_tail in H as [-> ->]. left. auto.
  - intros H. right. exists post.
    change (pre ++ x :: post ++ [y]) with (pre ++ (x :: post) ++ [y]) in H.
    rewrite app_assoc in H. apply app_inj_tail in H as [-> ->]. auto.
Qed.

Lemma priorityOrdered_collect (tasks : list AITask) tr t :
  priorityOrdered tasks tr -> priorityOrdered tasks (tr ++ [Collect t]).
Proof.
  intros Hord pre u post h Hsplit Hh Hrank.
  apply snoc_split in Hsplit as [(_ & _ & [=])|(post' & -> & ->)].
  eapply Hord; eauto.
Qed.

Lemma priorityOrdered_dispatch (tasks : list AITask) tr t :
  priorityOrdered tasks tr ->
  (forall h, In h tasks -> rank (priority h) < rank (priority t) ->
             settledIn tr h) ->
  priorityOrdered tasks (tr ++ [Dispatch t]).
Proof.
  intros Hord Hnew pre u post h Hsplit Hh Hrank.
  apply snoc_split in Hsplit as [(_ & -> & [= ->])|(post' & -> & ->)].
  - apply Hnew; assumption.
  - eapply Hord; eauto.
Qed.

Lemma SchedInv_initial (tasks : list AITask) : SchedInv tasks (initial tasks).
Proof.
  split; simpl.
  - apply groupByPriority_sorted.
  - apply groupByPriority_labels.
  - intros h Hh. left. apply groupByPriority_cover, Hh.
  - intros t g [].
  - intros t u [].
  - intros pre t post h Hsplit. destruct pre; discriminate.
Qed.

Lemma SchedInv_step (tasks : list AITask) s s' :
  SchedInv tasks s -> step maxConcurrent s s' -> SchedInv tasks s'.
Proof.
  intros [Hsorted Hlabels Hcover Hlater Hsame Hord] Hstep.
  destruct Hstep as [p g gs fuel cs tr Hchunks|gs w ws tr|gs ws t ts fl tr
                    |gs ws fl1 t fl2 tr]; simpl in *.
  - (* the next group is chunked *)
    apply chunkLoop_concat in Hchunks; [|lia].
    change (drop (Z.to_nat 0) g) with g in Hchunks.
    apply StronglySorted_inv in Hsorted as [Hsorted Hfirst].
    rewrite List.Forall_forall in Hfirst.
    assert (Hp : forall t, In t g -> priority t = p).
    { intros t Ht. apply (Hlabels (p, g)); simpl; auto. }
    split; simpl; auto.
    + intros h Hh. destruct (Hcover h Hh) as [Hpend|[[]|[[]|Hdone]]]; [|auto].
      simpl in Hpend. apply in_app_iff in Hpend as [Hg|Hgs]; [|auto].
      right. left. rewrite Hchunks. exact Hg.
    + intros t g' Ht Hg'. apply In_active in Ht as [Ht|[[]|[]]]. simpl in Ht.
      rewrite Hchunks in Ht. rewrite (Hp t Ht). apply (Hfirst g' Hg').
    + intros t u Ht Hu.
      apply In_active in Ht as [Ht|[[]|[]]], Hu as [Hu|[[]|[]]]. simpl in *.
      rewrite Hchunks in Ht, Hu. rewrite (Hp t Ht), (Hp u Hu). reflexivity.
  - (* the next window is taken *)
    assert (Hact : forall t,
      In t (active {| groups := gs; windows := ws; todo := w;
                      inflight := []; trace := tr |}) ->
      In t (active {| groups := gs; windows := w :: ws; todo := [];
                      inflight := []; trace := tr |})).
    { intros t. rewrite !In_active. simpl. rewrite in_app_iff. tauto. }
    split; simpl; auto.
    intros h Hh. destruct (Hcover h Hh) as [Hpend|[Hwin|[[]|Hdone]]]; auto.
    apply in_app_iff in Hwin as [Hw|Hws]; auto.
  - (* a call starts *)
    assert (Hact : forall u,
      In u (active {| groups := gs; windows := ws; todo := ts;
                      inflight := fl ++ [t]; trace := tr ++ [Dispatch t] |}) ->
      In u (active {| groups := gs; windows := ws; todo := t :: ts;
                      inflight := fl; trace := tr |})).
    { intros u. rewrite !In_active. simpl. rewrite in_app_iff. simpl. tauto. }
    assert (Ht : In t (active {| groups := gs; windows := ws; todo := t :: ts;
                                 inflight := fl; trace := tr |})).
    { apply In_active. simpl. auto. }
    split; simpl; auto.
    + intros h Hh. rewrite !in_app_iff. simpl.
      destruct (Hcover h Hh) as [Hpend|[Hwin|[[->|Hts]|[Hd [Hfl|Hc]]]]]; auto 8.
    + apply priorityOrdered_dispatch; [exact Hord|].
      intros h Hh Hrank.
      destruct (Hcover h Hh) as [Hpend|[Hwin|[Htodo|[Hd [Hfl|Hc]]]]].
      * apply In_pendingTasks in Hpend as (g' & Hg' & Hhg').
        pose proof (Hlater t g' Ht Hg') as Hlt.
        rewrite <- (Hlabels g' h Hg' Hhg') in Hlt. lia.
      * rewrite (Hsame h t) in Hrank; [lia| |exact Ht]. apply In_active. auto.
      * rewrite (Hsame h t) in Hrank; [lia| |exact Ht]. apply In_active. auto.
      * rewrite (Hsame h t) in Hrank; [lia| |exact Ht]. apply In_active. auto.
      * split; assumption.
  - (* a promise settles *)
    assert (Hact : forall u,
      In u (active {| groups := gs; windows := ws; todo := [];
                      inflight := fl1 ++ fl2; trace := tr ++ [Collect t] |}) ->
      In u (active {| groups := gs; windows := ws; todo := [];
                      inflight := fl1 ++ t :: fl2; trace := tr |})).
    { intros u. rewrite !In_active. simpl. rewrite !in_app_iff. simpl. tauto. }
    split; simpl; auto.
    + intros h Hh. rewrite !in_app_iff. simpl.
      destruct (Hcover h Hh) as [Hpend|[Hwin|[[]|[Hd [Hfl|Hc]]]]]; auto 8.
      apply in_app_iff in Hfl as [Hfl|[->|Hfl]]; auto 8.
    + apply priorityOrdered_collect, Hord.
Qed.

Lemma reachable_SchedInv (tasks : list AITask) s :
  reachable maxConcurrent tasks s -> SchedInv tasks s.
Proof.
  induction 1 as [|s s' _ IH Hstep].
  - apply SchedInv_initial.
  - eapply SchedInv_step; eauto.
Qed.

(** C2: in every state [executeBatch] reaches, each start of a remote call
    in the trace comes after the start and the settling of the call of
    every task of the batch whose priority is earlier in the order high,
    medium, low. *)
Theorem executeBatch_priority_order (tasks : list AITask) s pre t post h :
  reachable maxConcurrent tasks s ->
  trace s = pre ++ Dispatch t :: post ->
  In h tasks ->
  rank (priority h) < rank (priority t) ->
  In (Dispatch h) pre /\ In (Collect h) pre.
Proof.
  intros Hreach Hsplit Hh Hrank.
  apply reachable_SchedInv in Hreach. destruct Hreach as [_ _ _ _ _ Hord].
  exact (Hord pre t post h Hsplit Hh Hrank).
Qed.

(** Runs exist: with a positive limit the scheduler can always be driven
    to the end of the batch, and there every task has started and
    settled. *)

Lemma reachable_rtc (tasks : list AITask) s s' :
  reachable maxConcurrent tasks s -> rtc (step maxConcurrent) s s' ->
  reachable maxConcurrent tasks s'.
Proof.
  intros Hs Hrun. induction Hrun as [|s s1 s2 Hstep _ IH]; [exact Hs|].
  apply IH. eapply reach_step; eauto.
Qed.

Lemma settle_pending gs ws fl tr :
  exists tr',
    rtc (step maxConcurrent)
      {| groups := gs; windows := ws; todo := []; inflight := fl; trace := tr |}
      {| groups := gs; windows := ws; todo := []; inflight := []; trace := tr' |}.
Proof.
  revert tr. induction fl as [|t fl IH]; intros tr.
  - exists tr. apply rtc_refl.
  - destruct (IH (tr ++ [Collect t])) as [tr' Hrun]. exists tr'.
    eapply rtc_l; [|exact Hrun].
    exact (step_collect maxConcurrent gs ws [] t fl tr).
Qed.

Lemma run_window gs ws w fl tr :
  exists tr',
    rtc (step maxConcurrent)
      {| groups := gs; windows := ws; todo := w; inflight := fl; trace := tr |}
      {| groups := gs; windows := ws; todo := []; inflight := []; trace := tr' |}.
Proof.
  revert fl tr. induction w as [|t w IH]; intros fl tr.
  - apply settle_pending.
  - destruct (IH (fl ++ [t]) (tr ++ [Dispatch t])) as [tr' Hrun]. exists tr'.
    eapply rtc_l; [|exact Hrun]. apply step_dispatch.
Qed.

Lemma run_windows gs ws tr :
  exists tr',
    rtc (step maxConcurrent)
      {| groups := gs; windows := ws; todo := []; inflight := []; trace := tr |}
      {| groups := gs; windows := []; todo := []; inflight := []; trace := tr' |}.
Proof.
  revert tr. induction ws as [|w ws IH]; intros tr.
  - exists tr. apply rtc_refl.
  - destruct (run_window gs ws w [] tr) as [tr1 Hrun1].
    destruct (IH tr1) as [tr' Hrun]. exists tr'.
    eapply rtc_l; [apply step_window|]. eapply rtc_trans; eauto.
Qed.

Lemma run_groups gs tr :
  (0 < maxConcurrent)%Z ->
  exists tr',
    rtc (step maxConcurrent)
      {| groups := gs; windows := []; todo := []; inflight := []; trace := tr |}
      {| groups := []; windows := []; todo := []; inflight := []; trace := tr' |}.
Proof.
  intros Hlimit. revert tr. induction gs as [|[p g] gs IH]; intros tr.
  - exists tr. apply rtc_refl.
  - destruct (chunkLoop_total (S (length g)) g maxConcurrent 0) as [cs Hcs];
      [lia..|].
    destruct (run_windows gs cs tr) as [tr1 Hrun1].
    destruct (IH tr1) as [tr' Hrun]. exists tr'.
    eapply rtc_l; [exact (step_group maxConcurrent p g gs _ cs tr Hcs)|].
    eapply rtc_trans; eauto.
Qed.

Lemma executeBatch_run_completes (tasks : list AITask) :
  (0 < maxConcurrent)%Z ->
  exists s,
    reachable maxConcurrent tasks s
    /\ groups s = [] /\ active s = []
    /\ forall t, In t tasks -> settledIn (trace s) t.
Proof.
  intros Hlimit.
  destruct (run_groups (groupByPriority tasks) [] Hlimit) as [tr Hrun].
  assert (Hreach : reachable maxConcurrent tasks
            {| groups := []; windows := []; todo := []; inflight := [];
               trace := tr |}).
  { eapply reachable_rtc; [apply reach_init | exact Hrun]. }
  eexists. split; [exact Hreach|]. split; [reflexivity|]. split; [reflexivity|].
  intros t Ht. destruct (reachable_SchedInv _ _ Hreach) as [_ _ Hcover _ _ _].
  destruct (Hcover t Ht) as [[]|[[]|[[]|[Hd [[]|Hc]]]]]. split; assumption.
Qed.

End PriorityOrder.

(** [executeBatch] returns the results group by group. *)

Section BatchFacts.

Import ParallelEngine.

Context {Payload : Type}.
Variable callAI : AITask -> @Outcome Payload.
Variable typeErrorMessage : jsstring.
Variable maxConcurrent : Z.

Lemma executeBatch_total (fuel : nat) (tasks : list AITask) :
  (0 < maxConcurrent)%Z -> length tasks < fuel ->
  executeBatch callAI typeErrorMessage maxConcurrent fuel tasks
  = Some (concat (map (fun g => runChunk callAI typeErrorMessage g.2)
                    (groupByPriority tasks))).
Proof.
  intros Hlimit Hfuel. unfold executeBatch.
  assert (Hgroups : forall g, In g (groupByPriority tasks) ->
            length g.2 < fuel).
  { intros g Hg. rewrite (groupByPriority_In _ _ Hg).
    pose proof (length_filter (fun t => priority t = g.1) tasks). lia. }
  revert Hgroups. generalize (groupByPriority tasks) as gs.
  intros gs Hgs.
  assert (Hall : mapM (fun g => executeGroup callAI typeErrorMessage
                                  maxConcurrent fuel g.2) gs
                 = Some (map (fun g => runChunk callAI typeErrorMessage g.2) gs)).
  { apply mapM_Some_2. induction gs as [|g gs IH]; simpl; constructor.
    - unfold executeGroup. apply executeParallelBatch_total; [exact Hlimit|].
      apply Hgs. left. reflexivity.
    - apply IH. intros g' Hg'. apply Hgs. right. exact Hg'. }
  rewrite Hall. reflexivity.
Qed.

End BatchFacts.

Section SchedulerInstances.

Import ParallelEngine Data.

(** C1 at a batch of two tasks and the default limit of 5. *)
Lemma executeParallelBatch_one_result_per_task_witness :
  (0 < 5)%Z
  /\ exists results,
      (forall fuel, length [taskLow; taskHigh] < fuel ->
         executeParallelBatch failingCall [] 5 fuel [taskLow; taskHigh]
         = Some results)
      /\ length results = length [taskLow; taskHigh]
      /\ map resultId results = map id [taskLow; taskHigh]
      /\ (List.NoDup (map id [taskLow; taskHigh]) ->
          forall r, In r results ->
            exists! t, In t [taskLow; taskHigh] /\ id t = resultId r).
Proof.
  split; [reflexivity|].
  apply (executeParallelBatch_one_result_per_task failingCall []
           5 [taskLow; taskHigh]).
  reflexivity.
Defined.

(** C1 as stated fails at the concurrency limit 0: with one task in the
    batch, [chunkTasks] never leaves its loop and [executeParallelBatch]
    returns nothing, whatever the number of rounds allowed. *)
Lemma executeParallelBatch_limit_zero_never_returns :
  ~ exists fuel results,
      executeParallelBatch failingCall [] 0 fuel [taskHigh] = Some results.
Proof.
  intros (fuel & results & H). unfold executeParallelBatch, chunkTasks in H.
  rewrite chunkLoop_stuck in H; [discriminate | reflexivity | reflexivity].
Qed.



(** The run of [[taskLow; taskHigh]] with limit 5 up to the start of the
    low-priority call. *)
Lemma lowStarted_reachable : reachable 5 [taskLow; taskHigh] lowStarted.
Proof.
  pose (gLow := (low, [taskLow])).
  eapply reach_step;
    [|exact (step_dispatch 5 [] [] taskLow [] []
               [Dispatch taskHigh; Collect taskHigh])].
  eapply reach_step;
    [|exact (step_window 5 [] [taskLow] []
               [Dispatch taskHigh; Collect taskHigh])].
  eapply reach_step;
    [|exact (step_group 5 low [taskLow] [] 2 [[taskLow]]
               [Dispatch taskHigh; Collect taskHigh] eq_refl)].
  eapply reach_step;
    [|exact (step_collect 5 [gLow] [] [] taskHigh [] [Dispatch taskHigh])].
  eapply reach_step;
    [|exact (step_dispatch 5 [gLow] [] taskHigh [] [] [])].
  eapply reach_step;
    [|exact (step_window 5 [gLow] [taskHigh] [] [])].
  eapply reach_step;
    [|exact (step_group 5 high [taskHigh] [gLow] 2 [[taskHigh]] [] eq_refl)].
  apply reach_init.
Defined.

(** C2 at that run: the high-priority call started and settled before the
    low-priority call started. *)
Lemma executeBatch_priority_order_witness :
  In (Dispatch taskHigh) [Dispatch taskHigh; Collect taskHigh]
  /\ In (Collect taskHigh) [Dispatch taskHigh; Collect taskHigh].
Proof.
  apply (executeBatch_priority_order 5 [taskLow; taskHigh] lowStarted
           [Dispatch taskHigh; Collect taskHigh] taskLow [] taskHigh).
  - exact lowStarted_reachable.
  - reflexivity.
  - simpl. auto.
  - simpl. lia.
Defined.

End SchedulerInstances.

(** ** The linking engine: discovery *)

Section DiscoveryFacts.

Import LinkingEngine.

(** Every offset [findKeywordPositions] records is an occurrence of the
    lowercased keyword. *)
Lemma findKeywordPositionsLoop_sound (fuel : nat) (content keyword : jsstring)
  (index : nat) positions :
  findKeywordPositionsLoop fuel content keyword index = Some positions ->
  forall i, In i positions -> occursAt content (toLowerCase keyword) i.
Proof.
  revert index positions. induction fuel as [|fuel IH]; intros index positions;
    simpl; [discriminate|].
  destruct (indexOf content (toLowerCase keyword) index) as [j|] eqn:E.
  - destruct (findKeywordPositionsLoop fuel content keyword (j + length keyword))
      as [rest|] eqn:Erest; [|discriminate].
    intros [= <-] i [<-|Hi].
    + eapply indexOf_occurs, E.
    + eapply IH; eauto.
  - intros [= <-] i [].
Qed.

(** For a keyword that is not empty the loop ends: each round moves the
    index forward. *)
Lemma findKeywordPositionsLoop_total (fuel : nat) (content keyword : jsstring)
  (index : nat) :
  keyword <> [] -> length content - index < fuel ->
  exists positions,
    findKeywordPositionsLoop fuel content keyword index = Some positions.
Proof.
  intros Hkw. revert index. induction fuel as [|fuel IH]; intros index Hfuel;
    simpl; [lia|].
  destruct (indexOf content (toLowerCase keyword) index) as [j|] eqn:E; [|eauto].
  assert (Hne : toLowerCase keyword <> []) by (destruct keyword; [congruence|discriminate]).
  pose proof (occursAt_bound _ _ _ (indexOf_occurs _ _ _ _ E) Hne) as Hbound.
  rewrite toLowerCase_length in Hbound.
  apply indexOf_sound in E as [Hle|(_ & _ & Hnil)]; [|congruence].
  assert (0 < length keyword) by (destruct keyword; [congruence|simpl; lia]).
  destruct (IH (j + length keyword)) as [rest ->]; [lia|]. eauto.
Qed.

Example findKeywordPositions_non_overlapping :
  findKeywordPositions 10 (lit "aaaaa bbbb") (lit "AA") = Some [0; 2]
  /\ findKeywordPositions 3 (lit "abc") (lit "") = None.
Proof. split; reflexivity. Qed.

Example extractSentences_runs :
  extractSentences (lit "..Hi there. Yo?! rest")
  = [{| text := lit "Hi there."; start := 2; end_ := 11 |};
     {| text := lit " Yo?!"; start := 11; end_ := 16 |}].
Proof. reflexivity. Qed.

Lemma extractKeywords_nonempty (title keyword : jsstring) :
  In keyword (extractKeywords title) -> keyword <> [].
Proof.
  unfold extractKeywords. intros H.
  apply list_elem_of_In, list_elem_of_filter in H as [[_ Hlen] _].
  intros ->. simpl in Hlen. lia.
Qed.


(** Membership in the concatenation of the results of a traversal. *)
Lemma mapM_concat_In {A B} (f : A -> option (list B)) (l : list A) k y :
  mapM f l = Some k -> In y (concat k) ->
  exists x ys, In x l /\ f x = Some ys /\ In y ys.
Proof.
  intros H%mapM_Some. induction H as [|x ys l k Hx _ IH]; simpl; [tauto|].
  rewrite in_app_iff. intros [Hy|Hy].
  - exists x, ys. auto.
  - destruct (IH Hy) as (x' & ys' & Hin & Hf & Hy'). exists x', ys'. auto.
Qed.


Lemma candidates_total fuel content pages :
  length content < fuel -> exists cands, candidates fuel content pages = Some cands.
Proof.
  intros Hfuel. unfold candidates.
  assert (Hall : is_Some (mapM (pageOpportunities fuel content) pages)).
  { apply mapM_is_Some, Forall_forall. intros page _.
    change (is_Some (pageOpportunities fuel content page)).
    unfold pageOpportunities.
    assert (Hkw : is_Some (mapM (keywordOpportunities fuel content page)
                             (extractKeywords (title page)))).
    { apply mapM_is_Some, Forall_forall. intros kw Hkw%list_elem_of_In.
      change (is_Some (keywordOpportunities fuel content page kw)).
      unfold keywordOpportunities, findKeywordPositions.
      destruct (findKeywordPositionsLoop_total fuel (toLowerCase content) kw 0)
        as [ps ->]; [eapply extractKeywords_nonempty, Hkw| |eauto].
      rewrite toLowerCase_length. lia. }
    destruct Hkw as [k ->]. eauto. }
  destruct Hall as [k ->]. eauto.
Qed.

Lemma distributeEvenly_In opportunities contentLength opp :
  In opp (distributeEvenly opportunities contentLength) -> In opp opportunities.
Proof.
  unfold distributeEvenly.
  generalize (contentLength / (length opportunities + 1)). intros d.
  assert (Hgen : forall l st,
    In opp (foldl (distributeStep d) st l).1 -> In opp st.1 \/ In opp l).
  { induction l as [|o l IH]; intros [kept lastPos]; simpl; [auto|].
    intros H. apply IH in H as [H|H]; [|auto].
    unfold distributeStep in H.
    destruct ((Z.of_nat d <=? Z.of_nat (position o) - Z.of_nat lastPos)%Z
              || (length kept =? 0)); simpl in H; [|auto].
    apply in_app_iff in H as [H|[->|[]]]; auto. }
  intros H. apply Hgen in H as [[]|H]. exact H.
Qed.

Lemma generateLinkOpportunities_In fuel content pages maxLinks opps opp :
  generateLinkOpportunities fuel content pages maxLinks = Some opps ->
  In opp opps ->
  exists cands, candidates fuel content pages = Some cands /\ In opp cands.
Proof.
  unfold generateLinkOpportunities.
  destruct (candidates fuel content pages) as [cands|]; [|discriminate].
  intros [= <-] H. exists cands. split; [reflexivity|].
  apply distributeEvenly_In, slice_In, sort_In in H. exact H.
Qed.

End DiscoveryFacts.

(** ** The linking engine: the relevance of a mention *)

Section RelevanceFacts.

Import LinkingEngine Data.








End RelevanceFacts.

Section RelevanceInstances.

Import LinkingEngine Data.



(** A mention that directly follows a terminator is attributed to the
    sentence before it, because [findSentenceAtPosition] accepts the offset
    [end] of a sentence: here the score is 60. *)
Example cycling_mention_after_terminator :
  findSentenceAtPosition (extractSentences abuttingText) 6 = Some (lit "Hello.")
  /\ option_map (map relevanceScore)
       (generateLinkOpportunities 100 abuttingText [cyclingPage] 15)
     = Some [60].
Proof. split; reflexivity. Qed.

End RelevanceInstances.

(** ** The linking engine: injection *)

Section InjectionFacts.

Import LinkingEngine.

Lemma injectLoop_app content pre post :
  injectLoop content (pre ++ post)
  = foldl injectStep (injectLoop content pre) post.
Proof. unfold injectLoop. apply foldl_app. Qed.

Lemma injectStep_recorded st opp :
  position opp ∈ st.2 -> injectStep st opp = st.
Proof.
  destruct st as [c inj]. simpl. intros H. unfold injectStep.
  destruct (decide (position opp ∈ inj)); [reflexivity | contradiction].
Qed.

(** C5 (as amended): within one pass, an opportunity whose recorded
    position is an offset at which an earlier opportunity of the same pass
    was injected is skipped: the pass ends as if the opportunity were not
    in the list. *)
Theorem inject_skips_recorded_offset (content : jsstring)
  (pre : list LinkOpportunity) (opp : LinkOpportunity)
  (post : list LinkOpportunity) :
  position opp ∈ injectedOffsets content pre ->
  injectContextualLinks content (pre ++ opp :: post)
  = injectContextualLinks content (pre ++ post)
  /\ injectedOffsets content (pre ++ opp :: post)
     = injectedOffsets content (pre ++ post).
Proof.
  unfold injectContextualLinks, injectedOffsets. intros H.
  rewrite !injectLoop_app. simpl. rewrite injectStep_recorded by exact H.
  split; reflexivity.
Qed.



End InjectionFacts.

Section InjectionInstances.

Import LinkingEngine Data.

(** C5 at the same opportunity listed twice. *)
Lemma inject_skips_recorded_offset_witness :
  injectContextualLinks (lit "cycling") ([cyclingAt 0] ++ cyclingAt 0 :: [])
  = injectContextualLinks (lit "cycling") ([cyclingAt 0] ++ [])
  /\ injectedOffsets (lit "cycling") ([cyclingAt 0] ++ cyclingAt 0 :: [])
     = injectedOffsets (lit "cycling") ([cyclingAt 0] ++ []).
Proof.
  apply (inject_skips_recorded_offset (lit "cycling") [cyclingAt 0]
           (cyclingAt 0) []).
  apply (bool_decide_unpack _). vm_compute. exact I.
Defined.

(** C5 as stated fails: a second pass with the same list finds the anchor
    text inside the element the first pass wrote and wraps it again. *)
Lemma second_pass_nests_anchor :
  noNestedAnchors (lit "cycling")
  /\ injectContextualLinks (lit "cycling") [cyclingAt 0]
     = bikeOpen ++ lit "cycling</a>"
  /\ injectContextualLinks
       (injectContextualLinks (lit "cycling") [cyclingAt 0]) [cyclingAt 0]
     = bikeOpen ++ bikeOpen ++ lit "cycling</a></a>"
  /\ ~ noNestedAnchors
         (injectContextualLinks
            (injectContextualLinks (lit "cycling") [cyclingAt 0])
            [cyclingAt 0]).
Proof.
  split; [|split; [|split]].
  - vm_compute. lia.
  - vm_compute. reflexivity.
  - vm_compute. reflexivity.
  - vm_compute. lia.
Qed.


End InjectionInstances.

(** ** The linking engine: topic clusters *)

Section ClusterFacts.

Import LinkingEngine.

Lemma clusterStep_inv pages st page :
  clusterInv st -> clusterInv (clusterStep pages st page).
Proof.
  destruct st as [cs processed]. intros [Hheld Hfresh]. unfold clusterStep.
  destruct (decide (id page ∈ processed)) as [Hin|Hnotin]; [split; assumption|].
  destruct (2 <=? length (findRelatedPages page pages)); [|split; assumption].
  split; simpl in *.
  - intros c x Hc Hx. apply in_app_iff in Hc as [Hc|[<-|[]]].
    + apply elem_of_union_l, elem_of_union_l, (Hheld c x Hc Hx).
    + unfold claimed in Hx. simpl in Hx.
      destruct Hx as [Hx|Hx]; [rewrite <- Hx; set_solver|].
      apply elem_of_union_r, elem_of_list_to_set, list_elem_of_In, Hx.
  - intros pre c1 mid c2 post Hsplit.
    apply snoc_split in Hsplit as [(Habs & _)|(post' & Hpost & Hcs)].
    { destruct mid; discriminate. }
    symmetry in Hpost.
    apply snoc_split in Hpost as [(-> & -> & ->)|(post'' & -> & ->)].
    + simpl. intros Hx. apply Hnotin, (Hheld c1); [|exact Hx].
      rewrite Hcs. apply in_app_iff. right. left. reflexivity.
    + apply (Hfresh pre c1 mid c2 post''). exact Hcs.
Qed.

Lemma clusterLoop_inv pages l st :
  clusterInv st -> clusterInv (foldl (clusterStep pages) st l).
Proof.
  revert st. induction l as [|page l IH]; intros st Hst; simpl; [exact Hst|].
  apply IH, clusterStep_inv, Hst.
Qed.

(** C4 (as amended): the pillar of a cluster is never a page that an
    earlier-emitted cluster holds as pillar or as member (a page already
    held may still be a member of a later cluster); the clusters returned
    are the emitted ones, reordered. *)
Theorem later_pillar_is_unclaimed (pages : list SitemapPage)
  pre c1 mid c2 post :
  emittedClusters pages = pre ++ c1 :: mid ++ c2 :: post ->
  ~ In (id (pillarPage c2)) (claimed c1)
  /\ Permutation (identifyTopicClusters pages) (emittedClusters pages).
Proof.
  intros Hsplit. split.
  - assert (Hinv : clusterInv (foldl (clusterStep pages) ([], ∅) pages)).
    { apply clusterLoop_inv. split; simpl.
      - intros c x [].
      - intros p a m b q Habs. destruct p; discriminate. }
    destruct Hinv as [_ Hfresh]. eapply Hfresh, Hsplit.
  - apply sort_perm.
Qed.

End ClusterFacts.

Section ClusterInstances.

Import LinkingEngine Data.

Lemma emittedClusters_fourPages :
  emittedClusters fourPages = [clusterA; clusterD].
Proof. vm_compute. reflexivity. Qed.

(** C4 at four pages. *)
Lemma later_pillar_is_unclaimed_witness :
  ~ In (id (pillarPage clusterD)) (claimed clusterA)
  /\ Permutation (identifyTopicClusters fourPages) (emittedClusters fourPages).
Proof.
  apply (later_pillar_is_unclaimed fourPages [] clusterA [] clusterD []).
  vm_compute. reflexivity.
Defined.

(** C4 as stated fails: pages B and C are members of the cluster of A and
    again of the cluster of D, emitted later. *)
Lemma member_is_claimed_twice : ~ firstComeExclusive (emittedClusters fourPages).
Proof.
  intros H.
  apply (H [] clusterA [] clusterD [] (lit "B") emittedClusters_fourPages);
    simpl; auto.
Qed.

End ClusterInstances.

(** ** The performance tracker *)

Section TrackerFacts.

Import PerformanceTracker.

Lemma lastN_length {A} (n : nat) (l : list A) : length (lastN n l) <= n.
Proof. unfold lastN. rewrite length_drop. lia. Qed.

Lemma lastN_all {A} (n : nat) (l : list A) : length l <= n -> lastN n l = l.
Proof.
  intros H. unfold lastN. replace (length l - n) with 0 by lia. reflexivity.
Qed.

(** Keeping the last [n] after each push keeps the last [n] of all. *)
Lemma lastN_app_lastN {A} (n : nat) (l r : list A) :
  lastN n (lastN n l ++ r) = lastN n (l ++ r).
Proof.
  destruct (Nat.le_gt_cases (length l) n) as [Hle|Hgt].
  - rewrite (lastN_all n l) by exact Hle. reflexivity.
  - unfold lastN. rewrite !length_app, length_drop.
    replace (length l - (length l - n) + length r - n) with (length r) by lia.
    replace (length l + length r - n) with ((length l - n) + length r) by lia.
    rewrite <- drop_drop. rewrite (drop_app_le l r) by lia. reflexivity.
Qed.

(** [slice(-n)] keeps the last [n] elements ([slice(-0)] keeps all). *)
Lemma sliceFrom_lastN {A} (n : nat) (l : list A) :
  0 < n -> sliceFrom l (- Z.of_nat n) = lastN n l.
Proof.
  intros H. unfold sliceFrom, lastN, relIndex.
  destruct (Z.ltb_spec (- Z.of_nat n) 0) as [Hneg|Hpos]; [|lia].
  f_equal. lia.
Qed.

(** The window after one recording. *)
Lemma recordMetrics_window now m t :
  metrics (recordMetrics now m t)
  = lastN MAX_HISTORY (metrics t ++ [stamp now m]).
Proof.
  unfold recordMetrics. simpl.
  destruct (Nat.ltb_spec MAX_HISTORY (length (metrics t ++ [stamp now m])))
    as [Hover|Hfits].
  - apply sliceFrom_lastN. unfold MAX_HISTORY. lia.
  - symmetry. apply lastN_all, Hfits.
Qed.

(** The window after a sequence of recordings. *)
Lemma recordAll_window samples t :
  length (metrics t) <= MAX_HISTORY ->
  metrics (recordAll samples t)
  = lastN MAX_HISTORY (metrics t ++ map (fun s => stamp s.1 s.2) samples).
Proof.
  unfold recordAll. revert t.
  induction samples as [|s samples IH]; intros t Ht; simpl.
  - rewrite app_nil_r. symmetry. apply lastN_all, Ht.
  - rewrite IH.
    + rewrite recordMetrics_window, lastN_app_lastN, <- app_assoc. reflexivity.
    + rewrite recordMetrics_window. apply lastN_length.
Qed.

(** C6: a recording leaves at most 100 samples in the window, whatever
    the window was; the window of a tracker that starts empty never holds
    more than 100 samples and is the last 100 recorded, in the order of
    recording;
    after 101 recordings (a first one, 99 more and a last one) the window
    is exactly the 100 later samples in that order: the 101st is there and
    the first, when it differs from the later ones, is not. *)
Theorem metrics_window_fifo (t : Tracker) (now : Z) (m : PerformanceMetrics)
  (samples : list (Z * PerformanceMetrics))
  (first : Z * PerformanceMetrics) (middle : list (Z * PerformanceMetrics))
  (final : Z * PerformanceMetrics) :
  length middle = 99 ->
  let stamped := map (fun s => stamp s.1 s.2) in
  let window := metrics (recordAll (first :: middle ++ [final]) empty) in
  length (metrics (recordMetrics now m t)) <= 100
  /\ length (metrics (recordAll samples empty)) <= 100
  /\ metrics (recordAll samples empty) = lastN 100 (stamped samples)
  /\ length window = 100
  /\ window = stamped (middle ++ [final])
  /\ In (stamp final.1 final.2) window
  /\ (~ In (stamp first.1 first.2) (stamped (middle ++ [final])) ->
      ~ In (stamp first.1 first.2) window).
Proof.
  intros Hmiddle stamped window.
  assert (Hall : forall l, metrics (recordAll l empty) = lastN 100 (stamped l)).
  { intros l. rewrite recordAll_window by (simpl; unfold MAX_HISTORY; lia).
    reflexivity. }
  assert (Hlen : length (stamped (middle ++ [final])) = 100).
  { unfold stamped. rewrite length_map, length_app, Hmiddle. reflexivity. }
  assert (Hwin : window = stamped (middle ++ [final])).
  { unfold window. rewrite Hall. unfold lastN.
    change (stamped (first :: middle ++ [final]))
      with (stamp first.1 first.2 :: stamped (middle ++ [final])).
    simpl length. rewrite Hlen. reflexivity. }
  split; [rewrite recordMetrics_window; apply lastN_length|].
  split; [rewrite Hall; apply lastN_length|].
  split; [apply Hall|].
  split; [rewrite Hwin; exact Hlen|].
  split; [exact Hwin|].
  split; [|rewrite Hwin; tauto].
  rewrite Hwin. unfold stamped.
  apply (in_map (fun s => stamp s.1 s.2)), in_app_iff. right. left. reflexivity.
Qed.

(** The mean of one number. *)
Lemma Q_mean_of_one (x : Q) : ((0 + x) / inject_Z (Z.of_nat 1) = x)%Q.
Proof.
  destruct x as [n d]. unfold Qdiv, Qplus, Qmult, Qinv. simpl.
  f_equal; lia.
Qed.

(** C7 (as amended): [getAverageMetrics] on an empty window returns
    [null]; after exactly one recording it returns the five measurements
    of the recorded sample unchanged, and as timestamp the time of the
    call of [getAverageMetrics]. *)
Theorem average_of_one_sample (recordedAt askedAt : Z) (m : PerformanceMetrics) :
  getAverageMetrics askedAt empty = None
  /\ exists avg,
      getAverageMetrics askedAt (recordMetrics recordedAt m empty) = Some avg
      /\ optimizationSpeed avg = optimizationSpeed m
      /\ contentQualityScore avg = contentQualityScore m
      /\ internalLinkDensity avg = internalLinkDensity m
      /\ semanticRichness avg = semanticRichness m
      /\ aeoScore avg = aeoScore m
      /\ timestamp avg = askedAt.
Proof.
  split; [reflexivity|].
  unfold getAverageMetrics, recordMetrics. simpl.
  eexists. split; [reflexivity|]. simpl.
  rewrite !Q_mean_of_one. repeat split.
Qed.

End TrackerFacts.

Section TrackerInstances.

Import PerformanceTracker Data.

(** C6 at the recordings 1 to 101. *)
Lemma metrics_window_fifo_witness :
  let stamped := map (fun s : Z * PerformanceMetrics => stamp s.1 s.2) in
  let window :=
    metrics (recordAll (recording 1 :: ninetyNine ++ [recording 101]) empty) in
  length (metrics (recordMetrics 7 (sampleAt 0 80) empty)) <= 100
  /\ length (metrics (recordAll (map recording (seq 1 250)) empty)) <= 100
  /\ metrics (recordAll (map recording (seq 1 250)) empty)
     = lastN 100 (stamped (map recording (seq 1 250)))
  /\ length window = 100
  /\ window = stamped (ninetyNine ++ [recording 101])
  /\ In (stamp (recording 101).1 (recording 101).2) window
  /\ (~ In (stamp (recording 1).1 (recording 1).2)
          (stamped (ninetyNine ++ [recording 101])) ->
      ~ In (stamp (recording 1).1 (recording 1).2) window).
Proof.
  apply (metrics_window_fifo empty 7 (sampleAt 0 80)
           (map recording (seq 1 250)) (recording 1) ninetyNine
           (recording 101)).
  reflexivity.
Defined.

(** C7 as stated fails on the timestamp: a sample recorded at time 1000
    and averaged at time 2000 comes back with the timestamp 2000. *)
Lemma average_timestamp_is_call_time :
  metrics (recordMetrics 1000 (sampleAt 1000 80) empty) = [sampleAt 1000 80]
  /\ exists avg,
      getAverageMetrics 2000 (recordMetrics 1000 (sampleAt 1000 80) empty)
      = Some avg
      /\ timestamp avg = 2000%Z
      /\ timestamp avg <> timestamp (sampleAt 1000 80).
Proof.
  split; [reflexivity|].
  eexists. split; [reflexivity|]. split; [reflexivity|]. discriminate.
Qed.

End TrackerInstances.

(** ** The answer-engine optimizer *)

Section AEOFacts.

Import AEOOptimizer.

(** A paragraph that passes the guard of [createDirectAnswer] always
    reaches the threshold of 70: base 50, at least 10 for its length and 15
    for the keyword. *)
Lemma guarded_paragraph_reaches_70 (clean keyword : jsstring) :
  40 <= length clean <= 300 ->
  includes (toLowerCase clean) (toLowerCase keyword) = true ->
  70 <= scoreParagraphForAEO clean keyword.
Proof.
  intros [Hlo Hhi] Hinc. unfold scoreParagraphForAEO, rawParagraphScore.
  rewrite Hinc.
  destruct (Nat.leb_spec 40 (length clean)); [|lia].
  destruct (Nat.leb_spec (length clean) 160);
    destruct (Nat.ltb_spec 160 (length clean));
    destruct (Nat.leb_spec (length clean) 300); try lia; simpl;
    destruct (startsWith (toLowerCase clean) (toLowerCase keyword));
    destruct (hasDefinitionPattern clean);
    destruct (hasNumbersOrData clean); simpl; lia.
Qed.

Example stripTags_matches :
  stripTags (lit "a<b>c<>d<<e>f<g") = lit "ac<>df<g".
Proof. reflexivity. Qed.

Example hasDefinitionPattern_alternatives :
  hasDefinitionPattern (lit "Cats are pets") = false
  /\ hasDefinitionPattern (lit "Are cats pets") = true
  /\ hasDefinitionPattern (lit "This one counts") = true
  /\ hasDefinitionPattern (lit "Cats purr") = false.
Proof. repeat split; reflexivity. Qed.

Lemma firstAnswer_skip keyword pre para post :
  Forall (fun q => directAnswerAt keyword q = None) pre ->
  firstAnswer keyword (pre ++ para :: post)
  = match directAnswerAt keyword para with
    | Some snippet => Some snippet
    | None => firstAnswer keyword post
    end.
Proof.
  induction 1 as [|q pre Hq _ IH]; simpl; [reflexivity|].
  rewrite Hq. exact IH.
Qed.

(** C9: a paragraph of 50 characters that contains the primary keyword,
    starts with it and matches the definitional pattern scores
    50+20+15+10+15 = 110 before the clamp when it holds no digit and 115
    when it holds one, and 100 after the clamp (the score returned for any
    paragraph is the computed one cut at 100), and [createDirectAnswer]
    returns it, with that score, when no paragraph before it yields an
    answer. *)
Theorem definitional_paragraph_is_direct_answer (clean keyword content : jsstring)
  (pre : list jsstring) (para : jsstring) (post : list jsstring) :
  length clean = 50 ->
  includes (toLowerCase clean) (toLowerCase keyword) = true ->
  startsWith (toLowerCase clean) (toLowerCase keyword) = true ->
  hasDefinitionPattern clean = true ->
  paragraphsOf content = pre ++ para :: post ->
  stripTags para = clean ->
  Forall (fun q => directAnswerAt keyword q = None) pre ->
  rawParagraphScore clean keyword
  = 50 + 20 + 15 + 10 + 15 + (if hasNumbersOrData clean then 5 else 0)
  /\ scoreParagraphForAEO clean keyword = 100
  /\ (forall paragraph k,
        scoreParagraphForAEO paragraph k
        = Nat.min (rawParagraphScore paragraph k) 100)
  /\ createDirectAnswer content keyword
     = Some {| type := paragraph; content := clean; score := 100;
               optimization := lit "Direct answer optimized for AI Overview" |}.
Proof.
  intros Hlen Hinc Hstart Hdef Hparas Hclean Hpre.
  assert (Hraw : rawParagraphScore clean keyword
                 = 50 + 20 + 15 + 10 + 15
                   + (if hasNumbersOrData clean then 5 else 0)).
  { unfold rawParagraphScore. rewrite Hlen, Hinc, Hstart, Hdef. simpl.
    destruct (hasNumbersOrData clean); reflexivity. }
  assert (Hscore : scoreParagraphForAEO clean keyword = 100).
  { unfold scoreParagraphForAEO. rewrite Hraw.
    destruct (hasNumbersOrData clean); reflexivity. }
  split; [exact Hraw|]. split; [exact Hscore|].
  split; [intros paragraph k; reflexivity|].
  unfold createDirectAnswer. rewrite Hparas, firstAnswer_skip by exact Hpre.
  unfold directAnswerAt. rewrite Hclean, Hlen, Hinc, Hscore. reflexivity.
Qed.

End AEOFacts.

Section AEOInstances.

Import AEOOptimizer Data.

(** C9 at a text whose second paragraph is the definitional one. *)
Lemma definitional_paragraph_is_direct_answer_witness :
  rawParagraphScore definitionalParagraph (lit "cycling")
  = 50 + 20 + 15 + 10 + 15
    + (if hasNumbersOrData definitionalParagraph then 5 else 0)
  /\ scoreParagraphForAEO definitionalParagraph (lit "cycling") = 100
  /\ (forall paragraph k,
        scoreParagraphForAEO paragraph k
        = Nat.min (rawParagraphScore paragraph k) 100)
  /\ createDirectAnswer articleText (lit "cycling")
     = Some {| type := paragraph; content := definitionalParagraph;
               score := 100;
               optimization := lit "Direct answer optimized for AI Overview" |}.
Proof.
  apply (definitional_paragraph_is_direct_answer definitionalParagraph
           (lit "cycling") articleText [lit "<p>Short one."]
           (lit "<p>Cycling is a sport that uses bikes on public roads")
           [lit "<p>x"]).
  - reflexivity.
  - reflexivity.
  - reflexivity.
  - reflexivity.
  - vm_compute. reflexivity.
  - reflexivity.
  - repeat constructor.
Defined.

(** C9 as stated fails for a paragraph that holds a digit: it has 50
    characters, contains the keyword, starts with it and matches the
    definitional pattern, and scores 50+20+15+10+15+5 = 115 before the
    clamp, not 110. *)
Lemma digit_paragraph_scores_115 :
  length digitParagraph = 50
  /\ includes (toLowerCase digitParagraph) (toLowerCase (lit "cycling")) = true
  /\ startsWith (toLowerCase digitParagraph) (toLowerCase (lit "cycling"))
     = true
  /\ hasDefinitionPattern digitParagraph = true
  /\ rawParagraphScore digitParagraph (lit "cycling") = 115
  /\ rawParagraphScore digitParagraph (lit "cycling") <> 50 + 20 + 15 + 10 + 15.
Proof. repeat split; try reflexivity. discriminate. Qed.

End AEOInstances.

(** * Further properties *)

(** ** The scheduler: windows, groups and results *)

Section WindowFacts.

Import ParallelEngine.

Lemma windowSizes_step (m n : nat) :
  0 < n -> n <= m -> windowSizes m n = n :: windowSizes (m - n) n.
Proof.
  intros Hn Hm. unfold windowSizes.
  assert (Hdiv : m / n = S ((m - n) / n)).
  { replace m with ((m - n) + 1 * n) at 1 by lia.
    rewrite Nat.div_add by lia. lia. }
  assert (Hmod : m mod n = (m - n) mod n).
  { replace m with ((m - n) + 1 * n) at 1 by lia.
    apply Nat.Div0.mod_add. }
  rewrite Hdiv, Hmod. reflexivity.
Qed.

Lemma windowSizes_short (m n : nat) :
  0 < m -> m < n -> windowSizes m n = [m].
Proof.
  intros Hm Hn. unfold windowSizes.
  rewrite Nat.div_small, Nat.mod_small by lia.
  destruct (Nat.eqb_spec m 0); [lia | reflexivity].
Qed.

Lemma chunkLoop_sizes (fuel : nat) (tasks : list AITask) (n : Z) (j : nat) :
  (0 < n)%Z -> j <= length tasks -> length tasks - j < fuel ->
  exists cs,
    chunkLoop fuel tasks n (Z.of_nat j) = Some cs
    /\ map length cs = windowSizes (length tasks - j) (Z.to_nat n).
Proof.
  intros Hn. revert j. induction fuel as [|fuel IH]; intros j Hj Hfuel; [lia|].
  simpl. destruct (Z.ltb_spec (Z.of_nat j) (Z.of_nat (length tasks))) as [Hin|Hout].
  - rewrite slice_window by lia. rewrite Nat2Z.id.
    destruct (Nat.le_gt_cases (Z.to_nat n) (length tasks - j)) as [Hfull|Hshort].
    + destruct (IH (j + Z.to_nat n)) as (cs & Hcs & Hsizes); [lia..|].
      replace (Z.of_nat j + n)%Z with (Z.of_nat (j + Z.to_nat n)) by lia.
      rewrite Hcs. simpl. eexists. split; [reflexivity|]. simpl.
      rewrite Hsizes, length_take, length_drop.
      rewrite (windowSizes_step (length tasks - j)) by lia.
      f_equal; [lia | f_equal; lia].
    + destruct fuel as [|fuel]; [lia|]. simpl.
      destruct (Z.ltb_spec (Z.of_nat j + n) (Z.of_nat (length tasks))); [lia|].
      simpl. eexists. split; [reflexivity|]. simpl.
      rewrite length_take, length_drop, windowSizes_short by lia.
      f_equal. lia.
  - assert (j = length tasks) as -> by lia.
    eexists. split; [reflexivity|]. rewrite Nat.sub_diag. unfold windowSizes.
    rewrite Nat.Div0.div_0_l, Nat.Div0.mod_0_l. reflexivity.
Qed.

(** More rounds do not change what the loop returns. *)
Lemma chunkLoop_fuel_mono (fuel fuel' : nat) (tasks : list AITask) (n i : Z) cs :
  chunkLoop fuel tasks n i = Some cs -> fuel <= fuel' ->
  chunkLoop fuel' tasks n i = Some cs.
Proof.
  revert fuel' i cs. induction fuel as [|fuel IH]; intros fuel' i cs; simpl;
    [discriminate|].
  intros H Hle. destruct fuel' as [|fuel']; [lia|]. simpl.
  destruct (i <? Z.of_nat (length tasks))%Z; [|exact H].
  destruct (chunkLoop fuel tasks n (i + n)) as [rest|] eqn:E; [|discriminate].
  rewrite (IH fuel' _ _ E) by lia. exact H.
Qed.

(** X1: for a positive chunk size, [chunkTasks] cuts the tasks, in order,
    into full windows followed by one shorter window when the size does not
    divide their number. *)
Theorem chunkTasks_window_sizes (tasks : list AITask) (n : Z) :
  (0 < n)%Z ->
  exists cs,
    (forall fuel, length tasks < fuel -> chunkTasks fuel tasks n = Some cs)
    /\ concat cs = tasks
    /\ map length cs = windowSizes (length tasks) (Z.to_nat n).
Proof.
  intros Hn.
  destruct (chunkLoop_sizes (S (length tasks)) tasks n 0 Hn) as (cs & Hcs & Hsizes);
    [lia..|].
  change (Z.of_nat 0) with 0%Z in Hcs.
  exists cs. split; [|split].
  - intros fuel Hfuel. unfold chunkTasks.
    apply (chunkLoop_fuel_mono (S (length tasks))); [exact Hcs | lia].
  - rewrite (chunkLoop_concat _ _ _ _ _ Hcs) by lia. reflexivity.
  - rewrite Hsizes, Nat.sub_0_r. reflexivity.
Qed.

End WindowFacts.

Section BatchResults.

Import ParallelEngine.

Context {Payload : Type}.
Variable callAI : AITask -> @Outcome Payload.
Variable typeErrorMessage : jsstring.
Variable maxConcurrent : Z.

Lemma pendingTasks_groupByPriority (tasks : list AITask) :
  pendingTasks (groupByPriority tasks)
  = filter (fun t => priority t = high) tasks
    ++ filter (fun t => priority t = medium) tasks
    ++ filter (fun t => priority t = low) tasks.
Proof.
  unfold pendingTasks, groupByPriority. simpl.
  destruct (filter (fun t => priority t = high) tasks);
    destruct (filter (fun t => priority t = medium) tasks);
    destruct (filter (fun t => priority t = low) tasks);
    simpl; rewrite ?app_nil_r; reflexivity.
Qed.

Lemma by_priority_perm (tasks : list AITask) :
  Permutation tasks
    (filter (fun t => priority t = high) tasks
     ++ filter (fun t => priority t = medium) tasks
     ++ filter (fun t => priority t = low) tasks).
Proof.
  induction tasks as [|t tasks IH]; [reflexivity|].
  destruct (priority t) eqn:E.
  - rewrite (filter_cons_True (fun t => priority t = high)) by exact E.
    rewrite (filter_cons_False (fun t => priority t = medium)) by congruence.
    rewrite (filter_cons_False (fun t => priority t = low)) by congruence.
    simpl. constructor. exact IH.
  - rewrite (filter_cons_False (fun t => priority t = high)) by congruence.
    rewrite (filter_cons_True (fun t => priority t = medium)) by exact E.
    rewrite (filter_cons_False (fun t => priority t = low)) by congruence.
    rewrite <- app_comm_cons, <- Permutation_middle. constructor. exact IH.
  - rewrite (filter_cons_False (fun t => priority t = high)) by congruence.
    rewrite (filter_cons_False (fun t => priority t = medium)) by congruence.
    rewrite (filter_cons_True (fun t => priority t = low)) by exact E.
    rewrite app_assoc, <- Permutation_middle, <- app_assoc.
    constructor. exact IH.
Qed.

Lemma runChunk_groups (gs : list (Priority * list AITask)) :
  concat (map (fun g => runChunk callAI typeErrorMessage g.2) gs)
  = runChunk callAI typeErrorMessage (pendingTasks gs).
Proof.
  unfold runChunk, pendingTasks.
  induction gs as [|g gs IH]; simpl; [reflexivity|].
  rewrite IH, map_app. reflexivity.
Qed.

Lemma runChunk_ids (tasks : list AITask) :
  map resultId (runChunk callAI typeErrorMessage tasks) = map id tasks.
Proof.
  unfold runChunk. rewrite map_map. apply map_ext. apply processResult_id.
Qed.

(** X2: with a positive limit [executeBatch] returns one result per task,
    grouped by priority: the results of the high-priority tasks in their
    input order, then those of the medium-priority tasks, then those of the
    low-priority tasks. *)
Theorem executeBatch_results_by_priority (tasks : list AITask) :
  (0 < maxConcurrent)%Z ->
  exists results,
    (forall fuel, length tasks < fuel ->
       executeBatch callAI typeErrorMessage maxConcurrent fuel tasks
       = Some results)
    /\ map resultId results
       = map id (filter (fun t => priority t = high) tasks
                 ++ filter (fun t => priority t = medium) tasks
                 ++ filter (fun t => priority t = low) tasks)
    /\ length results = length tasks
    /\ Permutation (map resultId results) (map id tasks).
Proof.
  intros Hlimit.
  exists (runChunk callAI typeErrorMessage (pendingTasks (groupByPriority tasks))).
  assert (Hids : map resultId
                   (runChunk callAI typeErrorMessage
                      (pendingTasks (groupByPriority tasks)))
                 = map id (filter (fun t => priority t = high) tasks
                           ++ filter (fun t => priority t = medium) tasks
                           ++ filter (fun t => priority t = low) tasks)).
  { rewrite runChunk_ids, pendingTasks_groupByPriority. reflexivity. }
  split; [|split; [exact Hids|split]].
  - intros fuel Hfuel. rewrite executeBatch_total by assumption.
    rewrite runChunk_groups. reflexivity.
  - unfold runChunk. rewrite length_map, pendingTasks_groupByPriority.
    symmetry. apply Permutation_length, by_priority_perm.
  - rewrite Hids. symmetry. apply Permutation_map, by_priority_perm.
Qed.

(** X3: with a limit of 0 or less, [executeBatch] returns the empty list
    for the empty batch and never returns for any other batch. *)
Theorem executeBatch_nonpositive_limit (tasks : list AITask) (fuel : nat) :
  (maxConcurrent <= 0)%Z ->
  executeBatch callAI typeErrorMessage maxConcurrent fuel [] = Some []
  /\ (tasks <> [] ->
      executeBatch callAI typeErrorMessage maxConcurrent fuel tasks = None).
Proof.
  intros Hlimit. split; [reflexivity|].
  intros Hne. unfold executeBatch.
  assert (Hstuck : forall g, In g (groupByPriority tasks) ->
            executeGroup callAI typeErrorMessage maxConcurrent fuel g.2 = None).
  { intros g Hg. unfold executeGroup, executeParallelBatch, chunkTasks.
    rewrite chunkLoop_stuck; [reflexivity | exact Hlimit |].
    rewrite (groupByPriority_In _ _ Hg).
    unfold groupByPriority in Hg. apply in_flat_map in Hg as (p & _ & Hg).
    destruct (Nat.ltb_spec 0 (length (filter (fun t => priority t = p) tasks)))
      as [Hpos|Hzero]; [|destruct Hg].
    destruct Hg as [<-|[]]. simpl. lia. }
  destruct (groupByPriority tasks) as [|g gs] eqn:E.
  - exfalso. destruct tasks as [|t tasks]; [congruence|].
    pose proof (groupByPriority_cover (t :: tasks) t ltac:(left; reflexivity)) as H.
    rewrite E in H. destruct H.
  - simpl. rewrite Hstuck by (left; reflexivity). reflexivity.
Qed.

(** X4: in a batch that returns, the results follow the tasks one to one;
    a call that resolved gives [success = true] with the resolved value as
    [data], no [error] and the measured duration, and a call that raised
    gives [success = false]. *)
Theorem success_tells_resolved (fuel : nat) (tasks : list AITask) results :
  executeParallelBatch callAI typeErrorMessage maxConcurrent fuel tasks
  = Some results ->
  Forall2
    (fun t r =>
       resultId r = id t
       /\ match callAI t with
          | Resolved value elapsed =>
              success r = true /\ data r = value /\ error r = None
              /\ duration r = elapsed
          | Failed _ _ => success r = false
          end)
    tasks results.
Proof.
  intros Hrun. apply executeParallelBatch_returns in Hrun as ->.
  unfold runChunk. induction tasks as [|t tasks IH]; simpl; constructor.
  - split; [apply processResult_id|].
    unfold executeTask. destruct (callAI t) as [v d|[|m] d]; simpl; auto.
  - exact IH.
Qed.

(** The sum of the durations and the count of the successes. *)
Lemma successful_le (results : list (@AIBatchResult Payload)) :
  length (filter (fun r => success r = true) results) <= length results.
Proof. apply length_filter. Qed.

(** X5: the success rate [getStats] reports lies between 0 and 100; it is
    0 for an empty collection (as are the other two figures) and 100 when
    every result succeeded. *)
Theorem getStats_successRate_bounds (results : list (@AIBatchResult Payload)) :
  (0 <= successRate (getStats results) <= 100)%Q
  /\ (results = [] ->
      getStats results
      = {| totalProcessed := 0; avgDuration := 0; successRate := 0 |})
  /\ (results <> [] -> Forall (fun r => success r = true) results ->
      (successRate (getStats results) == 100)%Q).
Proof.
  assert (Hrate : forall a b : nat, a <= b -> 0 < b ->
            (0 <= inject_Z (Z.of_nat a) / inject_Z (Z.of_nat b) * 100 <= 100)%Q).
  { intros a b Hab Hb.
    assert (Hbq : (0 < inject_Z (Z.of_nat b))%Q).
    { change 0%Q with (inject_Z 0). rewrite <- Zlt_Qlt. lia. }
    assert (Haq : (0 <= inject_Z (Z.of_nat a))%Q).
    { change 0%Q with (inject_Z 0). rewrite <- Zle_Qle. lia. }
    split.
    - apply Qmult_le_0_compat; [|discriminate].
      apply Qle_shift_div_l; [exact Hbq|]. rewrite Qmult_0_l. exact Haq.
    - apply Qle_trans with (1 * 100)%Q; [|discriminate].
      apply Qmult_le_compat_r; [|discriminate].
      apply Qle_shift_div_r; [exact Hbq|]. rewrite Qmult_1_l.
      rewrite <- Zle_Qle. lia. }
  split; [|split].
  - unfold getStats. simpl.
    destruct (Nat.ltb_spec 0 (length results)) as [Hpos|Hzero].
    + apply Hrate; [apply successful_le | exact Hpos].
    + split; discriminate.
  - intros ->. reflexivity.
  - intros Hne Hall. unfold getStats. simpl.
    destruct (Nat.ltb_spec 0 (length results)) as [Hpos|Hzero];
      [|destruct results; [congruence | simpl in Hzero; lia]].
    replace (filter (fun r => success r = true) results) with results.
    + unfold Qdiv. rewrite Qmult_inv_r; [reflexivity|].
      intros Habs. unfold Qeq in Habs. simpl in Habs. lia.
    + symmetry. clear Hne Hpos. induction Hall as [|r rs Hr _ IH]; [reflexivity|].
      rewrite filter_cons_True by exact Hr. f_equal. exact IH.
Qed.

End BatchResults.

(** ** The linking engine: keywords and sentences *)

Section KeywordFacts.

Import LinkingEngine.

Lemma toLowerChar_idem (c : ascii) : toLowerChar (toLowerChar c) = toLowerChar c.
Proof.
  destruct c as [[] [] [] [] [] [] [] []]; vm_compute; reflexivity.
Qed.

(** The characters of a piece of [split(/\s+/)] come from the piece being
    read or from the text, and those from the text are not whitespace. *)
Lemma splitWsAux_chars (cur : jsstring) (inSep : bool) (s w : jsstring) (c : ascii) :
  In w (splitWsAux cur inSep s) -> In c w ->
  In c cur \/ (In c s /\ isWhitespace c = false).
Proof.
  revert cur inSep. induction s as [|c0 s IH]; intros cur inSep; simpl.
  - intros [<-|[]] Hc. left. apply in_rev, Hc.
  - destruct (isWhitespace c0) eqn:Ews.
    + destruct inSep.
      * intros Hw Hc. destruct (IH _ _ Hw Hc) as [H|[H1 H2]]; auto.
      * intros [<-|Hw] Hc; [left; apply in_rev, Hc|].
        destruct (IH _ _ Hw Hc) as [[]|[H1 H2]]; auto.
    + intros Hw Hc. destruct (IH _ _ Hw Hc) as [[<-|H]|[H1 H2]]; auto.
Qed.

(** X6: every keyword [extractKeywords] returns is longer than 3
    characters, is not a stop word, is in lower case and holds no
    whitespace. *)
Theorem extractKeywords_shape (title keyword : jsstring) :
  In keyword (extractKeywords title) ->
  3 < length keyword
  /\ (keyword ∉ stopWords)
  /\ toLowerCase keyword = keyword
  /\ Forall (fun c => isWhitespace c = false) keyword.
Proof.
  unfold extractKeywords. intros H.
  apply list_elem_of_In, list_elem_of_filter in H as [[Hstop Hlen] Hword].
  apply list_elem_of_In in Hword.
  assert (Hchars : forall c, In c keyword ->
            In c (toLowerCase title) /\ isWhitespace c = false).
  { intros c Hc. destruct (splitWsAux_chars _ _ _ _ _ Hword Hc) as [[]|H]. exact H. }
  split; [exact Hlen|]. split; [exact Hstop|]. split.
  - unfold toLowerCase. rewrite <- (map_id keyword) at 2.
    apply map_ext_in. intros c Hc. destruct (Hchars c Hc) as [Hin _].
    unfold toLowerCase in Hin. apply in_map_iff in Hin as (c' & <- & _).
    apply toLowerChar_idem.
  - apply List.Forall_forall. intros c Hc. apply (Hchars c Hc).
Qed.

(** The invariant of the scan of [extractSentences]: what has been read of
    the current match is the text from [from] to the current position. *)
Lemma sentencesAux_substring (s pre : jsstring) (from : nat)
  (body terms : jsstring) (sent : Sentence) :
  from <= length pre ->
  drop from pre = rev body ++ rev terms ->
  In sent (sentencesAux s (length pre) from body terms) ->
  text sent = substring (pre ++ s) (start sent) (end_ sent)
  /\ start sent < end_ sent <= length (pre ++ s).
Proof.
  revert pre from body terms.
  assert (Hemit : forall pre rest from body terms t ts,
    from <= length pre -> terms = t :: ts ->
    drop from pre = rev body ++ rev terms ->
    rev body ++ rev terms = substring (pre ++ rest) from (length pre)
    /\ from < length pre <= length (pre ++ rest)).
  { intros pre rest from body terms t ts Hfrom -> Hdrop.
    assert (Hlen : length (drop from pre) = length pre - from) by apply length_drop.
    assert (0 < length (drop from pre)).
    { rewrite Hdrop, length_app. simpl. rewrite length_app. simpl. lia. }
    split; [|rewrite length_app; lia].
    unfold substring. rewrite Nat.min_l, Nat.max_r by lia.
    rewrite drop_app_le by lia. rewrite <- Hdrop, <- Hlen.
    rewrite take_app_length. reflexivity. }
  induction s as [|c s IH]; intros pre from body terms Hfrom Hdrop; simpl.
  - destruct terms as [|t ts]; [intros []|]. intros [<-|[]]. simpl.
    apply (Hemit pre [] from body (t :: ts) t ts); auto.
  - assert (Hnext : forall from' body' terms',
      from' <= S (length pre) ->
      drop from' (pre ++ [c]) = rev body' ++ rev terms' ->
      In sent (sentencesAux s (S (length pre)) from' body' terms') ->
      text sent = substring (pre ++ c :: s) (start sent) (end_ sent)
      /\ start sent < end_ sent <= length (pre ++ c :: s)).
    { intros from' body' terms' Hf Hd Hin.
      replace (pre ++ c :: s) with ((pre ++ [c]) ++ s)
        by (rewrite <- app_assoc; reflexivity).
      apply (IH (pre ++ [c]) from' body' terms').
      - rewrite length_app. simpl. lia.
      - exact Hd.
      - rewrite length_app. simpl. rewrite Nat.add_1_r. exact Hin. }
    destruct (isTerminator c).
    + destruct body as [|b body].
      * apply Hnext; [lia|]. rewrite drop_ge; [reflexivity|].
        rewrite length_app. simpl. lia.
      * apply Hnext; [lia|]. rewrite drop_app_le by lia. rewrite Hdrop.
        simpl. rewrite <- !app_assoc. reflexivity.
    + destruct terms as [|t ts].
      * apply Hnext; [lia|]. rewrite drop_app_le by lia. rewrite Hdrop.
        simpl. rewrite !app_nil_r. reflexivity.
      * intros [<-|Hin].
        -- simpl. apply (Hemit pre (c :: s) from body (t :: ts) t ts); auto.
        -- revert Hin. apply Hnext; [lia|].
           rewrite drop_app_length. reflexivity.
Qed.

(** X7: every sentence [extractSentences] records is the text between its
    [start] and its [end], a non-empty range inside the content. *)
Theorem extractSentences_substring (content : jsstring) (sent : Sentence) :
  In sent (extractSentences content) ->
  text sent = substring content (start sent) (end_ sent)
  /\ start sent < end_ sent <= length content.
Proof.
  intros H. apply (sentencesAux_substring content [] 0 [] [] sent); auto.
Qed.

Lemma sentencesAux_no_terminator (s : jsstring) (pos from : nat) (body : jsstring) :
  Forall (fun c => isTerminator c = false) s ->
  sentencesAux s pos from body [] = [].
Proof.
  intros H. revert pos from body.
  induction H as [|c s Hc _ IH]; intros pos from body; simpl; [reflexivity|].
  rewrite Hc. apply IH.
Qed.

End KeywordFacts.

(** ** The linking engine: what discovery returns *)

Section DiscoveryBounds.

Import LinkingEngine.

(** Every candidate was pushed by the innermost loop. *)
Lemma candidates_source fuel content pages cands opp :
  candidates fuel content pages = Some cands -> In opp cands ->
  exists page keyword pos,
    In page pages /\ In keyword (extractKeywords (title page))
    /\ occursAt (toLowerCase content) (toLowerCase keyword) pos
    /\ opportunityAt content (extractSentences content) page keyword pos
       = Some opp.
Proof.
  unfold candidates.
  destruct (mapM (pageOpportunities fuel content) pages) as [perPage|] eqn:E;
    [|discriminate].
  intros [= <-] Hopp.
  destruct (mapM_concat_In _ _ _ _ E Hopp) as (page & opps & Hpage & Hopps & Hin).
  unfold pageOpportunities in Hopps.
  destruct (mapM (keywordOpportunities fuel content page)
              (extractKeywords (title page))) as [perKeyword|] eqn:E'; [|discriminate].
  injection Hopps as <-.
  destruct (mapM_concat_In _ _ _ _ E' Hin) as (kw & kopps & Hkw & Hkopps & Hin').
  unfold keywordOpportunities in Hkopps.
  destruct (findKeywordPositions fuel (toLowerCase content) kw) as [ps|] eqn:Eps;
    [|discriminate].
  injection Hkopps as <-.
  apply list_elem_of_In, list_elem_of_omap in Hin' as (pos & Hpos & Hat).
  exists page, kw, pos. repeat split; auto.
  eapply findKeywordPositionsLoop_sound; [exact Eps|]. apply list_elem_of_In, Hpos.
Qed.

Lemma calculateRelevance_bounds (keyword sentence : jsstring) :
  50 <= calculateRelevance keyword sentence <= 100.
Proof.
  unfold calculateRelevance.
  destruct (length sentence <? 150);
    destruct (includes sentence (lit "learn") || includes sentence (lit "read")
              || includes sentence (lit "guide")); lia.
Qed.

Lemma substring_length (s : jsstring) (a b : nat) :
  length (substring s a b) <= Nat.max a b - Nat.min a b.
Proof. unfold substring. rewrite length_take. lia. Qed.

(** X8: for every opportunity [generateLinkOpportunities] returns, the
    anchor text (in lower case) stands at the recorded position in the text
    put in lower case, which is the text the positions are searched in;
    the score lies between 50 and 100, whatever the number of matches
    counted, since it starts at 50 and is cut at 100; there is no anchor
    tag within 100 characters of the position in the text itself; the
    opportunity comes from the page marker "current", carries a snippet of
    at most 100 characters, and links a keyword of the title of a corpus
    page to the slug of that page. *)
Theorem returned_opportunity_is_wellformed (fuel : nat) (content : jsstring)
  (pages : list SitemapPage) (maxLinks : Z) (opps : list LinkOpportunity)
  (opp : LinkOpportunity) :
  generateLinkOpportunities fuel content pages maxLinks = Some opps ->
  In opp opps ->
  occursAt (toLowerCase content) (toLowerCase (anchorText opp)) (position opp)
  /\ 50 <= relevanceScore opp <= 100
  /\ hasLinkNearby content (position opp) 100 = false
  /\ fromPage opp = lit "current"
  /\ length (contextSnippet opp) <= 100
  /\ exists page,
       In page pages /\ In (anchorText opp) (extractKeywords (title page))
       /\ toPage opp = slug page.
Proof.
  intros Hgen Hin.
  destruct (generateLinkOpportunities_In _ _ _ _ _ _ Hgen Hin) as (cands & Hc & Hopp).
  destruct (candidates_source _ _ _ _ _ Hc Hopp)
    as (page & kw & pos & Hpage & Hkw & Hocc & Hat).
  unfold opportunityAt in Hat.
  destruct (findSentenceAtPosition (extractSentences content) pos)
    as [[|c s]|]; try discriminate.
  destruct (hasLinkNearby content pos 100) eqn:Hnear; [discriminate|].
  injection Hat as <-. simpl.
  split; [exact Hocc|]. split; [apply calculateRelevance_bounds|].
  split; [exact Hnear|]. split; [reflexivity|].
  split; [|exists page; auto].
  pose proof (substring_length (c :: s) 0 100). simpl in *. lia.
Qed.

Lemma distributeEvenly_length opportunities contentLength :
  length (distributeEvenly opportunities contentLength) <= length opportunities.
Proof.
  unfold distributeEvenly.
  generalize (contentLength / (length opportunities + 1)). intros d.
  assert (Hgen : forall l st,
    length (foldl (distributeStep d) st l).1 <= length st.1 + length l).
  { induction l as [|o l IH]; intros [kept lastPos]; simpl; [lia|].
    etransitivity; [apply IH|]. unfold distributeStep.
    destruct ((Z.of_nat d <=? Z.of_nat (position o) - Z.of_nat lastPos)%Z
              || (length kept =? 0)); simpl; [rewrite length_app; simpl|]; lia. }
  specialize (Hgen opportunities ([], 0)). simpl in Hgen. exact Hgen.
Qed.

Lemma slice_length_le {A} (l : list A) (n : Z) :
  (0 <= n)%Z -> length (slice l 0 n) <= Z.to_nat n.
Proof.
  intros Hn. unfold slice, relIndex. simpl.
  destruct (Z.ltb_spec n 0); [lia|]. rewrite length_take. lia.
Qed.

(** X9: for a [maxLinks] that is not negative, [generateLinkOpportunities]
    returns at most [maxLinks] opportunities (none when it is 0). *)
Theorem at_most_maxLinks (fuel : nat) (content : jsstring)
  (pages : list SitemapPage) (maxLinks : Z) (opps : list LinkOpportunity) :
  (0 <= maxLinks)%Z ->
  generateLinkOpportunities fuel content pages maxLinks = Some opps ->
  length opps <= Z.to_nat maxLinks.
Proof.
  intros Hmax. unfold generateLinkOpportunities.
  destruct (candidates fuel content pages) as [cands|]; [|discriminate].
  intros [= <-]. etransitivity; [apply distributeEvenly_length|].
  apply slice_length_le, Hmax.
Qed.

(** X10: a text without [.], [!] or [?] has no sentence, and
    [generateLinkOpportunities] returns no opportunity for it, whatever the
    corpus. *)
Theorem no_terminator_no_opportunity (fuel : nat) (content : jsstring)
  (pages : list SitemapPage) (maxLinks : Z) :
  length content < fuel ->
  Forall (fun c => isTerminator c = false) content ->
  extractSentences content = []
  /\ generateLinkOpportunities fuel content pages maxLinks = Some [].
Proof.
  intros Hfuel Hplain.
  assert (Hnone : extractSentences content = [])
    by (apply sentencesAux_no_terminator, Hplain).
  split; [exact Hnone|].
  destruct (candidates_total fuel content pages Hfuel) as [cands Hc].
  assert (cands = []) as ->.
  { destruct cands as [|opp cands]; [reflexivity|]. exfalso.
    destruct (candidates_source _ _ _ _ opp Hc ltac:(left; reflexivity))
      as (page & kw & pos & _ & _ & _ & Hat).
    rewrite Hnone in Hat. discriminate Hat. }
  unfold generateLinkOpportunities. rewrite Hc. simpl sort.
  unfold slice. rewrite drop_nil, take_nil. reflexivity.
Qed.

(** The invariant of the loop of [distributeEvenly]: the opportunities
    kept so far are apart by [d], and [lastPosition] is the position of the
    last one kept. *)
Lemma distributeStep_spaced (d : nat) (l : list LinkOpportunity)
  (kept : list LinkOpportunity) (lastPos : nat) :
  (forall pre a b post, kept = pre ++ a :: b :: post ->
     position a + d <= position b) ->
  (forall pre a, kept = pre ++ [a] -> position a = lastPos) ->
  forall pre a b post,
    (foldl (distributeStep d) (kept, lastPos) l).1 = pre ++ a :: b :: post ->
    position a + d <= position b.
Proof.
  revert kept lastPos. induction l as [|o l IH]; intros kept lastPos Hsp Hlast;
    simpl; [exact Hsp|].
  destruct (Z.leb_spec (Z.of_nat d) (Z.of_nat (position o) - Z.of_nat lastPos))
    as [Hfar|Hnear]; simpl.
  - apply IH.
    + intros pre a b post Hsplit.
      change (pre ++ a :: b :: post) with (pre ++ a :: [b] ++ post) in Hsplit.
      destruct post as [|x post _] using rev_ind.
      * rewrite app_nil_r in Hsplit.
        change (pre ++ a :: [b]) with (pre ++ [a] ++ [b]) in Hsplit.
        rewrite app_assoc in Hsplit.
        apply app_inj_tail in Hsplit as [-> ->].
        rewrite (Hlast pre a eq_refl). lia.
      * change (pre ++ a :: [b] ++ post ++ [x])
          with (pre ++ (a :: b :: post) ++ [x]) in Hsplit.
        rewrite app_assoc in Hsplit. apply app_inj_tail in Hsplit as [-> _].
        eapply Hsp. reflexivity.
    + intros pre a Hsplit. apply app_inj_tail in Hsplit as [_ ->]. reflexivity.
  - destruct (Nat.eqb_spec (length kept) 0) as [Hempty|Hsome]; simpl.
    + destruct kept; [|discriminate]. apply IH.
      * intros pre a b post Hsplit. destruct pre as [|? [|? ?]]; discriminate.
      * intros pre a Hsplit. destruct pre as [|? [|? ?]]; [|discriminate..].
        injection Hsplit as <-. reflexivity.
    + apply IH; assumption.
Qed.

(** X11: [distributeEvenly] keeps a subsequence of its input that starts
    with the first opportunity, and any two neighbours it keeps are at
    least [floor(contentLength / (n + 1))] characters apart, the later one
    further into the text. *)
Theorem distributeEvenly_spacing (opportunities : list LinkOpportunity)
  (contentLength : nat) :
  let d := contentLength / (length opportunities + 1) in
  let kept := distributeEvenly opportunities contentLength in
  sublist kept opportunities
  /\ (forall first rest, opportunities = first :: rest ->
        exists rest', kept = first :: rest')
  /\ (forall pre a b post, kept = pre ++ a :: b :: post ->
        position a + d <= position b).
Proof.
  intros d kept. subst kept. unfold distributeEvenly. fold d.
  split; [|split].
  - assert (Hgen : forall l kept lastPos,
      sublist (foldl (distributeStep d) (kept, lastPos) l).1 (kept ++ l)).
    { induction l as [|o l IH]; intros kept lastPos; simpl.
      - rewrite app_nil_r. reflexivity.
      - destruct ((Z.of_nat d <=? Z.of_nat (position o) - Z.of_nat lastPos)%Z
                  || (length kept =? 0)).
        + specialize (IH (kept ++ [o]) (position o)).
          rewrite <- app_assoc in IH. exact IH.
        + etransitivity; [apply IH|].
          apply sublist_app; [reflexivity|]. apply sublist_cons. reflexivity. }
    apply (Hgen opportunities [] 0).
  - intros first rest ->. simpl. rewrite orb_true_r.
    assert (Hgen : forall l kept lastPos,
      exists more, (foldl (distributeStep d) (kept, lastPos) l).1 = kept ++ more).
    { induction l as [|o l IH]; intros kept lastPos; simpl.
      - exists []. rewrite app_nil_r. reflexivity.
      - destruct ((Z.of_nat d <=? Z.of_nat (position o) - Z.of_nat lastPos)%Z
                  || (length kept =? 0)).
        + destruct (IH (kept ++ [o]) (position o)) as [more ->].
          exists (o :: more). rewrite <- app_assoc. reflexivity.
        + apply IH. }
    destruct (Hgen rest [first] (position first)) as [more ->].
    exists more. reflexivity.
  - apply distributeStep_spaced.
    + intros pre a b post Hsplit. destruct pre; discriminate.
    + intros pre a Hsplit. destruct pre; discriminate.
Qed.

End DiscoveryBounds.

(** ** The linking engine: what injection does to the text *)

Section InjectionShape.

Import LinkingEngine.

Lemma indexOf_at_head (s p : jsstring) :
  startsWith s p = true -> indexOf s p 0 = Some 0.
Proof.
  intros H. unfold indexOf. simpl. destruct s as [|c s]; simpl in *; rewrite H;
    reflexivity.
Qed.

(** X12: when the anchor text stands in the text exactly at the recorded
    position of an opportunity, and that position has not been used,
    [injectContextualLinks] replaces that occurrence by the anchor element
    and leaves the text before and after it as it was; the position is
    recorded as used. *)
Theorem inject_in_place (content : jsstring) (injected : gset nat)
  (opp : LinkOpportunity) :
  occursAt content (anchorText opp) (position opp) ->
  position opp ∉ injected ->
  injectStep (content, injected) opp
  = (take (position opp) content ++ linkTag opp
     ++ drop (position opp + length (anchorText opp)) content,
     injected ∪ {[position opp]}).
Proof.
  intros Hocc Hfresh. unfold injectStep.
  destruct (decide (position opp ∈ injected)); [contradiction|].
  unfold substringFrom. rewrite (indexOf_at_head _ _ Hocc). simpl.
  rewrite Nat.add_0_r. unfold substring. simpl. rewrite Nat.sub_0_r.
  reflexivity.
Qed.

Lemma linkTag_length (opp : LinkOpportunity) :
  length (anchorText opp) <= length (linkTag opp).
Proof. unfold linkTag. rewrite !length_app. lia. Qed.

Lemma injectStep_length (st : jsstring * gset nat) (opp : LinkOpportunity) :
  length st.1 <= length (injectStep st opp).1.
Proof.
  destruct st as [content injected]. unfold injectStep. cbn [fst].
  destruct (decide (position opp ∈ injected)); [reflexivity|].
  destruct (indexOf (substringFrom content (position opp)) (anchorText opp) 0)
    as [k|]; [|reflexivity].
  destruct (k <? 200); [|reflexivity]. cbn [fst].
  unfold substring, substringFrom.
  rewrite !length_app, length_take, !length_drop.
  pose proof (linkTag_length opp). lia.
Qed.

(** X13: [injectContextualLinks] never shortens the text. *)
Theorem inject_never_shortens (content : jsstring)
  (opportunities : list LinkOpportunity) :
  length content <= length (injectContextualLinks content opportunities).
Proof.
  unfold injectContextualLinks, injectLoop.
  assert (Hgen : forall l st, length st.1 <= length (foldl injectStep st l).1).
  { induction l as [|o l IH]; intros st; simpl; [reflexivity|].
    etransitivity; [apply injectStep_length|]. apply IH. }
  apply (Hgen opportunities (content, ∅)).
Qed.

End InjectionShape.

(** ** Sorting *)

Section SortFacts.

Context {A : Type} (cmp : A -> A -> comparison) (R : A -> A -> Prop).
Hypothesis cmp_le : forall a b, cmp a b <> Gt -> R a b.
Hypothesis cmp_gt : forall a b, cmp a b = Gt -> R b a.

Lemma insertBy_Sorted (x : A) (l : list A) :
  Sorted R l -> Sorted R (insertBy cmp x l).
Proof.
  induction 1 as [|y l Hl IH Hhd]; simpl.
  - repeat constructor.
  - destruct (cmp x y) eqn:E.
    + repeat constructor; auto. apply cmp_le. congruence.
    + repeat constructor; auto. apply cmp_le. congruence.
    + constructor; [exact IH|].
      destruct l as [|z l]; simpl.
      * constructor. apply cmp_gt, E.
      * destruct (cmp x z); constructor;
          try (apply cmp_gt, E); inversion Hhd; assumption.
Qed.

Lemma sort_Sorted (l : list A) : Sorted R (sort cmp l).
Proof.
  induction l as [|x l IH]; simpl; [constructor|].
  apply insertBy_Sorted, IH.
Qed.

Lemma Sorted_adjacent (l : list A) : Sorted R l -> adjacent R l.
Proof.
  intros Hs pre. revert l Hs. induction pre as [|p pre IH]; intros l Hs a b post ->.
  - simpl in Hs. inversion Hs as [|? ? _ Hhd]; subst.
    inversion Hhd; assumption.
  - simpl in Hs. inversion Hs as [|? ? Hs' _]; subst.
    eapply IH; [exact Hs' | reflexivity].
Qed.

Lemma adjacent_take (n : nat) (l : list A) : adjacent R l -> adjacent R (take n l).
Proof.
  intros Hl pre a b post Hsplit.
  apply (Hl pre a b (post ++ drop n l)).
  rewrite <- (take_drop n l) at 1. rewrite Hsplit, <- app_assoc. reflexivity.
Qed.

Lemma adjacent_drop (n : nat) (l : list A) : adjacent R l -> adjacent R (drop n l).
Proof.
  intros Hl pre a b post Hsplit.
  apply (Hl (take n l ++ pre) a b post).
  rewrite <- (take_drop n l) at 1. rewrite Hsplit, <- app_assoc. reflexivity.
Qed.

Lemma sort_slice_adjacent (l : list A) (a b : Z) :
  adjacent R (slice (sort cmp l) a b).
Proof.
  unfold slice. apply adjacent_take, adjacent_drop, Sorted_adjacent, sort_Sorted.
Qed.

End SortFacts.

(** ** The linking engine: the shape of the clusters *)

Section ClusterShape.

Import LinkingEngine.

(** A member [findRelatedPages] returns is another page of the corpus that
    shares a keyword with the page. *)
Lemma findRelatedPages_member page allPages m :
  In m (findRelatedPages page allPages) ->
  In m allPages /\ id m <> id page
  /\ 0 < length (commonKeywords (extractKeywords (title page))
                   (extractKeywords (title m))).
Proof.
  unfold findRelatedPages. intros H.
  apply in_map_iff in H as ([m' n] & <- & H). simpl.
  apply slice_In, sort_In in H. apply in_flat_map in H as (other & Hother & H).
  destruct (decide (id other = id page)) as [|Hne]; [destruct H|].
  destruct (Nat.ltb_spec 0
              (length (commonKeywords (extractKeywords (title page))
                         (extractKeywords (title other))))) as [Hpos|];
    [|destruct H].
  destruct H as [[= <- <-]|[]]. auto.
Qed.

Lemma findRelatedPages_length page allPages :
  length (findRelatedPages page allPages) <= 8.
Proof.
  unfold findRelatedPages. rewrite length_map.
  apply (slice_length_le _ 8). lia.
Qed.

(** Every cluster the loop has pushed was built from a page of the corpus
    and its related pages, of which there were at least two. *)
Lemma clusterLoop_built pages l st c :
  (forall p, In p l -> In p pages) ->
  (forall c, In c st.1 ->
     exists page, In page pages /\ 2 <= length (findRelatedPages page pages)
       /\ c = {| pillarPage := page;
                 clusterPages := findRelatedPages page pages;
                 linkDensity :=
                   calculateClusterLinkDensity page (findRelatedPages page pages);
                 topicRelevance :=
                   calculateTopicRelevance page (findRelatedPages page pages) |}) ->
  In c (foldl (clusterStep pages) st l).1 ->
  exists page, In page pages /\ 2 <= length (findRelatedPages page pages)
    /\ c = {| pillarPage := page;
              clusterPages := findRelatedPages page pages;
              linkDensity :=
                calculateClusterLinkDensity page (findRelatedPages page pages);
              topicRelevance :=
                calculateTopicRelevance page (findRelatedPages page pages) |}.
Proof.
  revert st. induction l as [|page l IH]; intros [cs processed] Hl Hst;
    [apply Hst|].
  cbn [foldl]. apply IH; [intros p Hp; apply Hl; right; exact Hp|].
  unfold clusterStep.
  destruct (decide (id page ∈ processed)); [exact Hst|].
  destruct (Nat.leb_spec 2 (length (findRelatedPages page pages))) as [Hbig|];
    [|exact Hst].
  cbn [fst]. intros c' Hc'. apply in_app_iff in Hc' as [Hc'|[<-|[]]].
  - apply Hst, Hc'.
  - exists page. split; [apply Hl; left; reflexivity|]. auto.
Qed.

(** X14: every cluster [identifyTopicClusters] returns has a pillar from
    the corpus and between 2 and 8 members; each member is a page of the
    corpus with an identifier other than the pillar's that shares at least
    one keyword with the pillar. *)
Theorem cluster_is_wellformed (pages : list SitemapPage) (c : LinkCluster) :
  In c (identifyTopicClusters pages) ->
  In (pillarPage c) pages
  /\ 2 <= length (clusterPages c) <= 8
  /\ forall m, In m (clusterPages c) ->
       In m pages /\ id m <> id (pillarPage c)
       /\ exists k, In k (extractKeywords (title (pillarPage c)))
                    /\ In k (extractKeywords (title m)).
Proof.
  unfold identifyTopicClusters, emittedClusters. intros H. apply sort_In in H.
  apply clusterLoop_built in H as (page & Hpage & Hbig & ->);
    [|auto|intros c' []].
  simpl. split; [exact Hpage|]. split.
  - split; [exact Hbig | apply findRelatedPages_length].
  - intros m Hm. apply findRelatedPages_member in Hm as (Hin & Hne & Hcommon).
    split; [exact Hin|]. split; [exact Hne|].
    destruct (commonKeywords (extractKeywords (title page))
                (extractKeywords (title m))) as [|k ks] eqn:E;
      [simpl in Hcommon; lia|].
    assert (Hk : In k (commonKeywords (extractKeywords (title page))
                         (extractKeywords (title m))))
      by (rewrite E; left; reflexivity).
    unfold commonKeywords in Hk.
    apply list_elem_of_In, list_elem_of_filter in Hk as [Hk1 Hk2].
    exists k. split; apply list_elem_of_In; assumption.
Qed.

Lemma pillarsUnclaimed_NoDup (cs : list LinkCluster) :
  pillarsUnclaimed cs -> List.NoDup (map (fun c => id (pillarPage c)) cs).
Proof.
  induction cs as [|c cs IH]; intros Hfresh; simpl; constructor.
  - intros Hin. apply in_map_iff in Hin as (c2 & Heq & Hc2).
    apply in_split in Hc2 as (mid & post & ->).
    apply (Hfresh [] c mid c2 post eq_refl).
    rewrite Heq. left. reflexivity.
  - apply IH. intros pre c1 mid c2 post ->.
    apply (Hfresh (c :: pre) c1 mid c2 post). reflexivity.
Qed.

(** X15: [identifyTopicClusters] returns the clusters by topic relevance,
    highest first, and no two of them have pillars with the same
    identifier. *)
Theorem clusters_sorted_with_distinct_pillars (pages : list SitemapPage) :
  adjacent (fun a b => (topicRelevance b <= topicRelevance a)%Q)
    (identifyTopicClusters pages)
  /\ List.NoDup (map (fun c => id (pillarPage c)) (identifyTopicClusters pages)).
Proof.
  split.
  - unfold identifyTopicClusters. apply Sorted_adjacent.
    apply (sort_Sorted byTopicRelevance).
    + intros a b H. unfold byTopicRelevance in H.
      apply Qle_alt. exact H.
    + intros a b H. unfold byTopicRelevance in H.
      apply Qlt_le_weak, Qgt_alt. exact H.
  - assert (Hinv : clusterInv (foldl (clusterStep pages) ([], ∅) pages)).
    { apply clusterLoop_inv. split; simpl.
      - intros c x [].
      - intros p a m b q Habs. destruct p; discriminate. }
    destruct Hinv as [_ Hfresh]. apply pillarsUnclaimed_NoDup in Hfresh.
    eapply Permutation_NoDup; [|exact Hfresh].
    apply Permutation_map. symmetry. apply sort_perm.
Qed.

End ClusterShape.

Section ClusterScores.

Import LinkingEngine.

Lemma overlap_sum_ge (f : SitemapPage -> nat) (l : list SitemapPage) (a : nat) :
  (forall m, In m l -> 1 <= f m) ->
  a + length l <= foldl (fun total page => total + f page) a l.
Proof.
  revert a. induction l as [|m l IH]; intros a Hf; simpl; [lia|].
  etransitivity; [|apply IH; intros m' Hm'; apply Hf; right; exact Hm'].
  pose proof (Hf m ltac:(left; reflexivity)). lia.
Qed.

Lemma ofNat_pos (n : nat) : 0 < n -> (0 < ofNat n)%Q.
Proof.
  intros H. unfold ofNat. change 0%Q with (inject_Z 0). rewrite <- Zlt_Qlt. lia.
Qed.

(** X16: every cluster [identifyTopicClusters] returns has a topic
    relevance of at least 20 (each member shares a keyword with the pillar)
    and a link density above 0 and at most 0.8 (at most 8 members over at
    least 1000 words). *)
Theorem cluster_scores_bounds (pages : list SitemapPage) (c : LinkCluster) :
  In c (identifyTopicClusters pages) ->
  (20 <= topicRelevance c)%Q /\ (0 < linkDensity c)%Q
  /\ (linkDensity c <= 4 # 5)%Q.
Proof.
  unfold identifyTopicClusters, emittedClusters. intros H. apply sort_In in H.
  apply clusterLoop_built in H as (page & Hpage & Hbig & ->);
    [|auto|intros c' []].
  pose proof (findRelatedPages_length page pages) as Hsmall.
  cbn [topicRelevance linkDensity].
  assert (Hlen : (0 < ofNat (length (findRelatedPages page pages)))%Q)
    by (apply ofNat_pos; lia).
  split; [|split].
  - unfold calculateTopicRelevance.
    apply Qle_trans with (1 * 20)%Q; [discriminate|].
    apply Qmult_le_compat_r; [|discriminate].
    apply Qle_shift_div_l; [exact Hlen|]. rewrite Qmult_1_l.
    unfold ofNat. rewrite <- Zle_Qle. apply inj_le.
    apply (overlap_sum_ge
             (fun m => length (commonKeywords (extractKeywords (title page))
                                 (extractKeywords (title m))))
             (findRelatedPages page pages) 0).
    intros m Hm. apply findRelatedPages_member in Hm as (_ & _ & Hm). lia.
  - unfold calculateClusterLinkDensity.
    apply Qmult_lt_0_compat; [|reflexivity].
    apply Qlt_shift_div_l; [apply ofNat_pos; lia|].
    rewrite Qmult_0_l. exact Hlen.
  - unfold calculateClusterLinkDensity.
    set (words := Nat.max _ 1000).
    assert (Hwords : 1000 <= words) by (unfold words; lia).
    apply Qle_trans with ((8 # 1000) * 100)%Q; [|discriminate].
    apply Qmult_le_compat_r; [|discriminate].
    apply Qle_shift_div_r; [apply ofNat_pos; lia|].
    unfold ofNat, Qle. simpl. lia.
Qed.

End ClusterScores.

(** ** The linking engine: the linking strategy *)

Section StrategyFacts.

Import LinkingEngine.

Lemma linksOfCluster_In (cluster : LinkCluster) (link : MissingLink) :
  In link (linksOfCluster cluster) ->
  (priority link = 95 /\ from link = slug (pillarPage cluster)
   /\ exists m, In m (clusterPages cluster) /\ to link = slug m)
  \/ (priority link = 90 /\ to link = slug (pillarPage cluster)
      /\ exists m, In m (clusterPages cluster) /\ from link = slug m)
  \/ (priority link = 60
      /\ exists m m', In m (clusterPages cluster) /\ In m' (clusterPages cluster)
           /\ id m' <> id m /\ from link = slug m /\ to link = slug m').
Proof.
  unfold linksOfCluster. intros H. apply in_flat_map in H as (m & Hm & H).
  unfold linksOfPage in H. apply in_app_iff in H as [[<-|[<-|[]]]|H].
  - right. left. simpl. eauto.
  - left. simpl. eauto.
  - apply in_flat_map in H as (m' & Hm' & H).
    destruct (decide (id m' = id m)) as [|Hne]; [destruct H|].
    destruct H as [<-|[]]. right. right. simpl. eauto 10.
Qed.

(** X17: [generateSmartLinkingStrategy] gives one recommendation per
    cluster and at most 50 links, highest priority first; every link is a
    link from the pillar of a cluster to one of its members (95), from a
    member to its pillar (90), or between two members of one cluster with
    different identifiers (60). *)
Theorem strategy_shape (clusters : list LinkCluster) :
  let strategy := generateSmartLinkingStrategy clusters in
  length (recommendations strategy) = length clusters
  /\ length (missingLinks strategy) <= 50
  /\ adjacent (fun a b => priority b <= priority a) (missingLinks strategy)
  /\ forall link, In link (missingLinks strategy) ->
       exists cluster, In cluster clusters /\
         ((priority link = 95 /\ from link = slug (pillarPage cluster)
           /\ exists m, In m (clusterPages cluster) /\ to link = slug m)
          \/ (priority link = 90 /\ to link = slug (pillarPage cluster)
              /\ exists m, In m (clusterPages cluster) /\ from link = slug m)
          \/ (priority link = 60
              /\ exists m m', In m (clusterPages cluster)
                   /\ In m' (clusterPages cluster)
                   /\ id m' <> id m /\ from link = slug m /\ to link = slug m')).
Proof.
  intros strategy. subst strategy. unfold generateSmartLinkingStrategy.
  cbn [recommendations missingLinks].
  split; [apply length_map|]. split; [apply (slice_length_le _ 50); lia|]. split.
  - apply (sort_slice_adjacent byPriority).
    + intros a b H. unfold byPriority in H.
      destruct (Nat.compare_spec (priority b) (priority a)); [lia | lia | congruence].
    + intros a b H. unfold byPriority in H.
      apply Nat.compare_gt_iff in H. lia.
  - intros link H. apply slice_In, sort_In, in_flat_map in H as (cluster & Hc & H).
    exists cluster. split; [exact Hc|]. apply linksOfCluster_In, H.
Qed.

End StrategyFacts.

(** ** The performance tracker: logs, recent samples, trend *)

Section TrackerMore.

Import PerformanceTracker.

(** X18: [recordOptimization] keeps the last 100 logs in order and leaves
    the metrics window alone; [recordMetrics] leaves the logs alone; after
    a recording of a log at most 100 optimizations are counted. *)
Theorem windows_are_independent (t : Tracker) (log : OptimizationLog)
  (now : Z) (m : PerformanceMetrics) :
  logs (recordOptimization log t) = lastN 100 (logs t ++ [log])
  /\ metrics (recordOptimization log t) = metrics t
  /\ logs (recordMetrics now m t) = logs t
  /\ getTotalOptimizations (recordOptimization log t) <= 100.
Proof.
  assert (Hlogs : logs (recordOptimization log t) = lastN 100 (logs t ++ [log])).
  { unfold recordOptimization. cbn [logs].
    destruct (Nat.ltb_spec MAX_HISTORY (length (logs t ++ [log]))) as [Hover|Hfits].
    - apply (sliceFrom_lastN 100). lia.
    - symmetry. apply lastN_all, Hfits. }
  split; [exact Hlogs|]. split; [reflexivity|]. split; [reflexivity|].
  unfold getTotalOptimizations. rewrite Hlogs. apply lastN_length.
Qed.

(** X19: [getRecentMetrics(count)] returns the last [count] samples of the
    window for a positive [count], but the whole window for [count = 0]
    ([slice(-0)] is [slice(0)]), and the window without its first [-count]
    samples for a negative [count]. *)
Theorem getRecentMetrics_cases (t : Tracker) (count : Z) :
  ((0 < count)%Z ->
     getRecentMetrics count t = lastN (Z.to_nat count) (metrics t))
  /\ getRecentMetrics 0 t = metrics t
  /\ ((count < 0)%Z ->
        getRecentMetrics count t = drop (Z.to_nat (- count)) (metrics t)).
Proof.
  split; [|split].
  - intros Hpos. unfold getRecentMetrics.
    rewrite <- (Z2Nat.id count) at 1 by lia. apply sliceFrom_lastN. lia.
  - unfold getRecentMetrics, sliceFrom, relIndex. simpl.
    rewrite Z.min_l by lia. reflexivity.
  - intros Hneg. unfold getRecentMetrics, sliceFrom, relIndex.
    destruct (Z.ltb_spec (- count) 0); [lia|].
    destruct (Z.le_gt_cases (- count) (Z.of_nat (length (metrics t)))).
    + rewrite Z.min_l by lia. reflexivity.
    + rewrite Z.min_r by lia. rewrite Nat2Z.id, drop_all.
      rewrite drop_ge by lia. reflexivity.
Qed.

(** X20: with 5 samples or fewer [getPerformanceTrend] answers [stable]:
    with exactly 5 the older group [slice(-10, -5)] is empty. *)
Theorem trend_needs_six_samples (t : Tracker) :
  length (metrics t) <= 5 -> getPerformanceTrend t = stable.
Proof.
  intros Hlen. unfold getPerformanceTrend.
  destruct (Nat.ltb_spec (length (metrics t)) 5) as [|Hfive]; [reflexivity|].
  assert (Hnone : slice (metrics t) (-10) (-5) = []).
  { unfold slice, relIndex. simpl.
    replace (Z.to_nat _) with 0 by lia. reflexivity. }
  rewrite Hnone. reflexivity.
Qed.

(** The sum and the mean of a list of equal values. *)
Lemma sum_of_equal (f : PerformanceMetrics -> Q) (a acc : Q)
  (l : list PerformanceMetrics) :
  Forall (fun m => f m == a)%Q l ->
  (foldl (fun sum m => sum + f m) acc l
   == acc + inject_Z (Z.of_nat (length l)) * a)%Q.
Proof.
  intros H. revert acc. induction H as [|m l Hm _ IH]; intros acc; simpl foldl.
  - simpl. ring.
  - rewrite IH, Hm. simpl length. rewrite Nat2Z.inj_succ.
    unfold Z.succ. rewrite inject_Z_plus. ring.
Qed.

Lemma meanQuality_of_equal (a : Q) (l : list PerformanceMetrics) :
  l <> [] -> Forall (fun m => contentQualityScore m == a)%Q l ->
  (meanQuality l == a)%Q.
Proof.
  intros Hne H. unfold meanQuality. rewrite (sum_of_equal _ a 0 l H).
  assert (Hlen : ~ (inject_Z (Z.of_nat (length l)) == 0)%Q).
  { unfold Qeq. simpl. destruct l; [congruence | simpl; lia]. }
  field. exact Hlen.
Qed.

Lemma inject_Z_sub (x y : Z) : (inject_Z (x - y) == inject_Z x - inject_Z y)%Q.
Proof. unfold Qeq, Qminus, Qplus, Qopp. simpl. lia. Qed.

Lemma Qcompare_inject_Z (x y : Z) :
  (inject_Z x ?= inject_Z y)%Q = (x ?= y)%Z.
Proof. unfold Qcompare. simpl. rewrite !Z.mul_1_r. reflexivity. Qed.

(** X21: on whole-number scores from 0 to 100: when the last five samples
    all have content quality [a] and the samples just before them (five of
    them, or all the earlier ones when the window holds fewer than ten) all
    have content quality [b], the trend is improving when [a - b > 2],
    declining when [a - b < -2] and stable otherwise. *)
Theorem trend_of_plateaus (t : Tracker)
  (front olds recents : list PerformanceMetrics) (a b : Z) :
  metrics t = front ++ olds ++ recents ->
  length recents = 5 ->
  length olds = 5 \/ (front = [] /\ 1 <= length olds <= 5) ->
  Forall (fun m => wholeScore (contentQualityScore m) a) recents ->
  Forall (fun m => wholeScore (contentQualityScore m) b) olds ->
  getPerformanceTrend t
  = if (2 <? a - b)%Z then improving
    else if (a - b <? -2)%Z then declining
    else stable.
Proof.
  intros Hwin Hrec Hold Ha Hb. unfold getPerformanceTrend. rewrite Hwin.
  assert (Hlen : length (front ++ olds ++ recents)
                 = length front + length olds + 5)
    by (rewrite !length_app; lia).
  destruct (Nat.ltb_spec (length (front ++ olds ++ recents)) 5); [lia|].
  assert (Hrecent : sliceFrom (front ++ olds ++ recents) (-5) = recents).
  { rewrite (sliceFrom_lastN 5) by lia. unfold lastN.
    rewrite Hlen, app_assoc.
    replace (length front + length olds + 5 - 5) with (length (front ++ olds))
      by (rewrite length_app; lia).
    apply drop_app_length. }
  assert (Holder : slice (front ++ olds ++ recents) (-10) (-5) = olds).
  { unfold slice, relIndex. change (-5 <? 0)%Z with true.
    change (-10 <? 0)%Z with true. cbv iota. rewrite Hlen.
    match goal with
    | |- take ?n (drop ?k _) = _ =>
        replace n with (length olds) by (destruct Hold as [|[-> ?]]; simpl; lia);
        replace k with (length front) by (destruct Hold as [|[-> ?]]; simpl; lia)
    end.
    rewrite drop_app_length. apply take_app_length. }
  rewrite Hrecent, Holder.
  destruct (Nat.eqb_spec (length olds) 0); [lia|].
  assert (Ha' : Forall (fun m => contentQualityScore m == inject_Z a)%Q recents)
    by (eapply List.Forall_impl; [|exact Ha]; intros m [_ E]; exact E).
  assert (Hb' : Forall (fun m => contentQualityScore m == inject_Z b)%Q olds)
    by (eapply List.Forall_impl; [|exact Hb]; intros m [_ E]; exact E).
  assert (Hdiff : (meanQuality recents - meanQuality olds
                   == inject_Z (a - b))%Q).
  { rewrite (meanQuality_of_equal (inject_Z a) recents),
      (meanQuality_of_equal (inject_Z b) olds);
      auto; try (intros ->; simpl in *; lia).
    rewrite inject_Z_sub. reflexivity. }
  cbv zeta. rewrite !Hdiff.
  change 2%Q with (inject_Z 2). change (-2)%Q with (inject_Z (-2)).
  rewrite !Qcompare_inject_Z.
  destruct (Z.ltb_spec 2 (a - b)) as [Hgt|Hle].
  - apply Z.lt_gt in Hgt. unfold Z.gt in Hgt. rewrite Hgt. reflexivity.
  - destruct (Z.compare_spec (a - b) 2) as [E|Hlt|Hgt]; try lia;
      destruct (Z.ltb_spec (a - b) (-2)) as [Hneg|Hpos];
      destruct (Z.compare_spec (a - b) (-2)); try lia; reflexivity.
Qed.

(** The sum of values between two bounds. *)
Lemma sum_between (lo hi acc : Q) (l : list Q) :
  Forall (fun v => lo <= v <= hi)%Q l ->
  (acc + inject_Z (Z.of_nat (length l)) * lo
   <= foldl (fun acc val => acc + val) acc l
   <= acc + inject_Z (Z.of_nat (length l)) * hi)%Q.
Proof.
  intros H. revert acc. induction H as [|v l [Hlo Hhi] _ IH]; intros acc;
    simpl foldl.
  - simpl. split; ring_simplify; apply Qle_refl.
  - destruct (IH (acc + v)%Q) as [IHlo IHhi].
    simpl length. rewrite Nat2Z.inj_succ. unfold Z.succ. rewrite inject_Z_plus.
    split.
    + eapply Qle_trans; [|exact IHlo].
      assert (E : (acc + (inject_Z (Z.of_nat (length l)) + inject_Z 1) * lo
                   == (acc + lo) + inject_Z (Z.of_nat (length l)) * lo)%Q) by ring.
      rewrite E.
      apply Qplus_le_compat; [|apply Qle_refl].
      apply Qplus_le_compat; [apply Qle_refl | exact Hlo].
    + eapply Qle_trans; [exact IHhi|].
      assert (E : (acc + (inject_Z (Z.of_nat (length l)) + inject_Z 1) * hi
                   == (acc + hi) + inject_Z (Z.of_nat (length l)) * hi)%Q) by ring.
      rewrite E.
      apply Qplus_le_compat; [|apply Qle_refl].
      apply Qplus_le_compat; [apply Qle_refl | exact Hhi].
Qed.

(** X22: [getAverageImprovement] is 0 without logs; with logs whose
    scores are whole numbers from 0 to 100 it lies between any two whole
    numbers that bound the improvement [afterScore - beforeScore] of every
    log. *)
Theorem average_improvement_between (t : Tracker) (lo hi : Z) :
  (logs t = [] -> getAverageImprovement t = 0%Q)
  /\ (logs t <> [] ->
      Forall (fun log =>
                exists before after,
                  wholeScore (beforeScore log) before
                  /\ wholeScore (afterScore log) after
                  /\ (lo <= after - before <= hi)%Z)
        (logs t) ->
      (inject_Z lo <= getAverageImprovement t <= inject_Z hi)%Q).
Proof.
  split; [intros H; unfold getAverageImprovement; rewrite H; reflexivity|].
  intros Hne Hall. unfold getAverageImprovement.
  destruct (Nat.eqb_spec (length (logs t)) 0) as [Hzero|Hpos];
    [destruct (logs t); [congruence | discriminate]|].
  set (improvements := map _ (logs t)).
  assert (Hbounds : Forall (fun v => inject_Z lo <= v <= inject_Z hi)%Q
                      improvements).
  { unfold improvements. apply List.Forall_forall. intros v Hv.
    apply in_map_iff in Hv as (log & <- & Hlog).
    rewrite List.Forall_forall in Hall.
    destruct (Hall log Hlog)
      as (before & after & [_ Hbefore] & [_ Hafter] & Hlo & Hhi).
    rewrite Hbefore, Hafter, <- inject_Z_sub, <- !Zle_Qle.
    split; assumption. }
  assert (Hlen : (0 < inject_Z (Z.of_nat (length improvements)))%Q).
  { change 0%Q with (inject_Z 0). rewrite <- Zlt_Qlt.
    unfold improvements. rewrite length_map. lia. }
  destruct (sum_between (inject_Z lo) (inject_Z hi) 0 improvements Hbounds)
    as [Hlo Hhi].
  split.
  - apply Qle_shift_div_l; [exact Hlen|].
    eapply Qle_trans; [|exact Hlo]. ring_simplify. apply Qle_refl.
  - apply Qle_shift_div_r; [exact Hlen|].
    eapply Qle_trans; [exact Hhi|]. ring_simplify. apply Qle_refl.
Qed.

End TrackerMore.

(** ** The score functions *)

Section ScoreFacts.

Import Scoring.

(** X23: in each of the three score functions the weights add up to
    exactly 100, so the final [Math.min] never cuts anything off, and the
    score is 100 exactly when every criterion holds: all eight for the
    content quality; six keywords or more, a strategy and three entries or
    more of FAQ, references and key takeaways for the semantic richness;
    all five for the AEO score. *)
Theorem scores_full_marks (c : GeneratedContent) :
  (calculateContentQualityScore c <= 100
   /\ (calculateContentQualityScore c = 100 <->
       longerThan (title c) 20 && atLeast (metaDescription c) 120
       && atLeast (semanticKeywords c) 5 && longerThan (content c) 1000
       && atLeast (imageDetails c) 2 && atLeast (faqSection c) 3
       && isSome (jsonLdSchema c) && atLeast (references c) 3 = true))
  /\ (calculateSemanticRichness c = 100 <->
      atLeast (semanticKeywords c) 6 && strategy c
      && atLeast (faqSection c) 3 && atLeast (references c) 3
      && atLeast (keyTakeaways c) 3 = true)
  /\ (calculateAEOScore c = 100 <->
      hasConciseAnswer c && hasList c && hasTable c
      && atLeast (faqSection c) 3 && hasSchema c = true).
Proof.
  split; [|split].
  - unfold calculateContentQualityScore, points.
    destruct (longerThan (title c) 20), (atLeast (metaDescription c) 120),
      (atLeast (semanticKeywords c) 5), (longerThan (content c) 1000),
      (atLeast (imageDetails c) 2), (atLeast (faqSection c) 3),
      (isSome (jsonLdSchema c)), (atLeast (references c) 3);
      cbn; (split; [lia | split; intro; (reflexivity || discriminate || lia)]).
  - unfold calculateSemanticRichness, points.
    change (atLeast (semanticKeywords c) 6)
      with (match semanticKeywords c with
            | Some l => 6 <=? length l
            | None => false
            end).
    destruct (semanticKeywords c) as [keywords|];
      [destruct (Nat.leb_spec 6 (length keywords))|];
      destruct (strategy c), (atLeast (faqSection c) 3),
        (atLeast (references c) 3), (atLeast (keyTakeaways c) 3);
      cbn [andb]; (split; intro; (reflexivity || discriminate || lia)).
  - unfold calculateAEOScore, points.
    destruct (hasConciseAnswer c), (hasList c), (hasTable c),
      (atLeast (faqSection c) 3), (hasSchema c);
      cbn; (split; intro; (reflexivity || discriminate || lia)).
Qed.

(** X24: a text that holds [<p>] and no [</p>] at all gets the 20 points of
    the concise answer whatever its length: [indexOf] answers -1, which is
    below 300. *)
Theorem unclosed_paragraph_counts_as_concise (c : GeneratedContent)
  (text : jsstring) :
  content c = Some text ->
  includes text (lit "<p>") = true ->
  indexOf text (lit "</p>") 0 = None ->
  20 <= calculateAEOScore c.
Proof.
  intros Hc Hp Hclose.
  assert (Hconcise : hasConciseAnswer c = true).
  { unfold hasConciseAnswer, indexBelow. rewrite Hc, Hp, Hclose. reflexivity. }
  unfold calculateAEOScore. rewrite Hconcise. cbn [points].
  apply Nat.min_glb; lia.
Qed.

End ScoreFacts.

(** ** The answer-engine optimizer: the direct answer *)

Section DirectAnswerFacts.

Import AEOOptimizer.

Lemma directAnswerAt_guard keyword para :
  directAnswerAt keyword para
  = if passesGuard keyword para
    then Some {| type := paragraph; content := stripTags para;
                 score := scoreParagraphForAEO (stripTags para) keyword;
                 optimization := lit "Direct answer optimized for AI Overview" |}
    else None.
Proof.
  unfold directAnswerAt, passesGuard.
  destruct ((40 <=? length (stripTags para))
            && (length (stripTags para) <=? 300)
            && includes (toLowerCase (stripTags para)) (toLowerCase keyword))
    eqn:G; [|reflexivity].
  apply andb_prop in G as [G Hinc]. apply andb_prop in G as [Hlo Hhi].
  apply Nat.leb_le in Hlo, Hhi.
  pose proof (guarded_paragraph_reaches_70 (stripTags para) keyword
                (conj Hlo Hhi) Hinc) as H70.
  apply Nat.leb_le in H70. cbv zeta. rewrite H70. reflexivity.
Qed.

Lemma firstAnswer_Some keyword paras snippet :
  firstAnswer keyword paras = Some snippet ->
  exists para, In para paras /\ directAnswerAt keyword para = Some snippet.
Proof.
  induction paras as [|p paras IH]; simpl; [discriminate|].
  destruct (directAnswerAt keyword p) eqn:E.
  - intros [= <-]. exists p. split; [now left | exact E].
  - intros H. destruct (IH H) as (para & Hin & Hp).
    exists para. split; [now right | exact Hp].
Qed.

Lemma firstAnswer_None keyword paras :
  firstAnswer keyword paras = None <->
  Forall (fun para => directAnswerAt keyword para = None) paras.
Proof.
  induction paras as [|p paras IH]; simpl.
  - split; [constructor | reflexivity].
  - destruct (directAnswerAt keyword p) eqn:E.
    + split; [discriminate|]. intros H. inversion H; congruence.
    + rewrite IH. split; [now constructor | intros H; now inversion H].
Qed.

(** X25: the threshold of 70 never rejects a paragraph:
    [createDirectAnswer] returns null exactly when no paragraph passes the
    guard on the length and the keyword.  The snippet it returns otherwise
    is a paragraph snippet whose content is one of the paragraphs of the
    text with its tags removed, 40 to 300 characters long and holding the
    keyword (case ignored), with a score between 75 and 100. *)
Theorem direct_answer_characterised (text keyword : jsstring) :
  (createDirectAnswer text keyword = None <->
   Forall (fun para => passesGuard keyword para = false) (paragraphsOf text))
  /\ (forall snippet, createDirectAnswer text keyword = Some snippet ->
       type snippet = paragraph
       /\ (exists para, In para (paragraphsOf text)
                        /\ content snippet = stripTags para)
       /\ 40 <= length (content snippet) <= 300
       /\ includes (toLowerCase (content snippet)) (toLowerCase keyword)
          = true
       /\ 75 <= score snippet <= 100
       /\ optimization snippet
          = lit "Direct answer optimized for AI Overview").
Proof.
  unfold createDirectAnswer. split.
  - rewrite firstAnswer_None.
    split; intros H; eapply List.Forall_impl; try exact H;
      intros para; cbv beta; rewrite directAnswerAt_guard;
      destruct (passesGuard keyword para);
      intros E; (reflexivity || discriminate E).
  - intros snippet H.
    apply firstAnswer_Some in H as (para & Hin & Hp).
    rewrite directAnswerAt_guard in Hp. unfold passesGuard in Hp.
    destruct ((40 <=? length (stripTags para))
              && (length (stripTags para) <=? 300)
              && includes (toLowerCase (stripTags para))
                   (toLowerCase keyword))
      eqn:G; [|discriminate].
    injection Hp as <-. cbn [type content score optimization].
    apply andb_prop in G as [G Hinc]. apply andb_prop in G as [Hlo Hhi].
    apply Nat.leb_le in Hlo, Hhi.
    split; [reflexivity|].
    split; [exists para; split; [exact Hin | reflexivity]|].
    split; [lia|]. split; [exact Hinc|]. split; [|reflexivity].
    unfold scoreParagraphForAEO, rawParagraphScore. rewrite Hinc.
    destruct (Nat.leb_spec 40 (length (stripTags para))); [|lia].
    destruct (Nat.leb_spec (length (stripTags para)) 160);
      destruct (Nat.ltb_spec 160 (length (stripTags para)));
      destruct (Nat.leb_spec (length (stripTags para)) 300); try lia; simpl;
      destruct (startsWith (toLowerCase (stripTags para))
                  (toLowerCase keyword));
      destruct (hasDefinitionPattern (stripTags para));
      destruct (hasNumbersOrData (stripTags para)); simpl; lia.
Qed.

End DirectAnswerFacts.

(** ** The answer-engine optimizer: the assembled result *)

Section OptimizerScore.

Import AEOOptimizer.

(** The snippet [createDirectAnswer] returns is a paragraph snippet with a
    score from 75 to 100. *)
Lemma createDirectAnswer_fields (text keyword : jsstring) (found : AEOSnippet) :
  createDirectAnswer text keyword = Some found ->
  exists body sc note,
    found = {| type := paragraph; content := body; score := sc;
               optimization := note |}
    /\ 75 <= sc <= 100.
Proof.
  unfold createDirectAnswer. intros H.
  apply firstAnswer_Some in H as (para & _ & Hp).
  unfold directAnswerAt in Hp.
  destruct ((40 <=? length (stripTags para))
            && (length (stripTags para) <=? 300)
            && includes (toLowerCase (stripTags para)) (toLowerCase keyword))
    eqn:G; [|discriminate].
  cbv zeta in Hp.
  destruct (70 <=? scoreParagraphForAEO (stripTags para) keyword) eqn:E;
    [|discriminate].
  injection Hp as <-. eexists _, _, _. split; [reflexivity|].
  apply andb_prop in G as [G Hinc]. apply andb_prop in G as [Hlo Hhi].
  apply Nat.leb_le in Hlo, Hhi.
  unfold scoreParagraphForAEO, rawParagraphScore. rewrite Hinc.
  destruct (Nat.leb_spec 40 (length (stripTags para))); [|lia].
  destruct (Nat.leb_spec (length (stripTags para)) 160);
    destruct (Nat.ltb_spec 160 (length (stripTags para)));
    destruct (Nat.leb_spec (length (stripTags para)) 300); try lia; simpl;
    destruct (startsWith (toLowerCase (stripTags para)) (toLowerCase keyword));
    destruct (hasDefinitionPattern (stripTags para));
    destruct (hasNumbersOrData (stripTags para)); simpl; lia.
Qed.

Lemma createListSnippet_fields (text : jsstring) (found : AEOSnippet) :
  createListSnippet text = Some found ->
  exists body note,
    found = {| type := list_; content := body; score := 85;
               optimization := note |}.
Proof.
  unfold createListSnippet.
  destruct (firstMatch listAt text 0) as [[k n]|]; [|discriminate].
  cbv zeta.
  destruct ((3 <=? countRegex itemAt (take n (drop k text)))
            && (countRegex itemAt (take n (drop k text)) <=? 10));
    [|discriminate].
  intros [= <-]. eexists _, _. reflexivity.
Qed.

Lemma createTableSnippet_fields (text : jsstring) (found : AEOSnippet) :
  createTableSnippet text = Some found ->
  exists body note,
    found = {| type := table; content := body; score := 90;
               optimization := note |}.
Proof.
  unfold createTableSnippet.
  destruct (firstMatch tableAt text 0) as [[k n]|]; [|discriminate].
  cbv zeta.
  destruct ((3 <=? countRegex rowAt (take n (drop k text)))
            && (countRegex rowAt (take n (drop k text)) <=? 8));
    [|discriminate].
  intros [= <-]. eexists _, _. reflexivity.
Qed.

Lemma total_between (l : list AEOSnippet) (acc : nat) :
  Forall (fun s => 75 <= score s <= 100) l ->
  acc + 75 * length l
  <= foldl (fun sum snippet => sum + score snippet) acc l
  <= acc + 100 * length l.
Proof.
  intros H. revert acc.
  induction H as [|s l Hs _ IH]; intros acc; simpl; [lia|].
  specialize (IH (acc + score s)). lia.
Qed.

Lemma ofNat_le (a b : nat) : a <= b -> (ofNat a <= ofNat b)%Q.
Proof.
  intros H. unfold ofNat. rewrite <- Zle_Qle. lia.
Qed.

Lemma ofNat_mult (a b : nat) : (ofNat (a * b) == ofNat a * ofNat b)%Q.
Proof.
  unfold ofNat. rewrite Nat2Z.inj_mul, inject_Z_mult. reflexivity.
Qed.

Lemma ofNat_plus (a b : nat) : (ofNat (a + b) == ofNat a + ofNat b)%Q.
Proof.
  unfold ofNat. rewrite Nat2Z.inj_add, inject_Z_plus. reflexivity.
Qed.

Lemma minQ_le_r (a b : Q) : (minQ a b <= b)%Q.
Proof.
  unfold minQ. destruct (Qle_bool a b) eqn:E.
  - apply Qle_bool_iff. exact E.
  - apply Qle_refl.
Qed.

Lemma minQ_glb (c a b : Q) : (c <= a)%Q -> (c <= b)%Q -> (c <= minQ a b)%Q.
Proof.
  intros Ha Hb. unfold minQ. destruct (Qle_bool a b); assumption.
Qed.

(** The score of a collection that is not empty, whose snippets score 75 to
    100 and none of which has the type [featured]. *)
Lemma calculateAEOScore_between (l : list AEOSnippet) :
  l <> [] ->
  Forall (fun s => 75 <= score s <= 100) l ->
  hasType paragraph l || hasType list_ l || hasType table l || hasType faq l
  = true ->
  (85 <= calculateAEOScore l <= 100)%Q.
Proof.
  intros Hne Hall Hty. destruct l as [|s l]; [congruence|].
  unfold calculateAEOScore.
  set (snips := s :: l) in *.
  set (total := foldl (fun sum snippet => sum + score snippet) 0 snips).
  set (bonus := (if hasType faq snips then _ else _)).
  assert (Hbonus : 10 <= bonus).
  { subst bonus.
    destruct (hasType paragraph snips), (hasType list_ snips),
      (hasType table snips), (hasType faq snips); simpl in *;
      try discriminate; lia. }
  split; [|apply minQ_le_r].
  apply minQ_glb; [|unfold Qle; simpl; lia].
  pose proof (total_between snips 0 Hall) as [Hlo _]. fold total in Hlo.
  assert (Hlen : (0 < ofNat (length snips))%Q).
  { unfold ofNat, Qlt. simpl. lia. }
  assert (Havg : (75 <= ofNat total / ofNat (length snips))%Q).
  { apply Qle_shift_div_l; [exact Hlen|].
    assert (E : (75 * ofNat (length snips) == ofNat (75 * length snips))%Q)
      by (rewrite ofNat_mult; reflexivity).
    rewrite E. apply ofNat_le. lia. }
  apply Qle_trans with (75 + 10)%Q; [unfold Qle; simpl; lia|].
  apply Qplus_le_compat; [exact Havg|].
  change 10%Q with (ofNat 10). apply ofNat_le. exact Hbonus.
Qed.

(** The number of recommendations: one for each type that is missing, and
    one more below a score of 70. *)
Lemma generateRecommendations_length (l : list AEOSnippet) (sc : Q) :
  length (generateRecommendations l sc)
  = (if hasType paragraph l then 0 else 1) + (if hasType list_ l then 0 else 1)
    + (if hasType table l then 0 else 1) + (if hasType faq l then 0 else 1)
    + (if Qle_bool 70 sc then 0 else 1).
Proof.
  unfold generateRecommendations.
  destruct (hasType paragraph l), (hasType list_ l), (hasType table l),
    (hasType faq l), (Qle_bool 70 sc); reflexivity.
Qed.

Lemma score_passes_70 (sc : Q) : (85 <= sc)%Q -> Qle_bool 70 sc = true.
Proof.
  intros H. apply Qle_bool_iff.
  apply Qle_trans with 85%Q; [unfold Qle; simpl; lia | exact H].
Qed.

(** X26: the snippets of [optimizeForAnswerEngines] come in the order
    paragraph, list, table, FAQ, at most one of each, and each scores 75 to
    100; the FAQ snippet is there exactly when a FAQ section with an entry
    is given.  Without a snippet the overall score is 0 and all five
    recommendations are made; with a snippet the overall score lies between
    85 and 100, and there is one recommendation for each of the four types
    that is missing and no other. *)
Theorem optimize_snippets_and_score (text primaryKeyword : jsstring)
  (faqSection : option (list FAQ)) :
  let result := optimizeForAnswerEngines text primaryKeyword faqSection in
  sublist (map type (snippets result)) [paragraph; list_; table; faq]
  /\ Forall (fun s => 75 <= score s <= 100) (snippets result)
  /\ (hasType faq (snippets result) = true <->
      exists entry rest, faqSection = Some (entry :: rest))
  /\ (snippets result = [] ->
      (overallScore result == 0)%Q /\ length (recommendations result) = 5)
  /\ (snippets result <> [] ->
      (85 <= overallScore result <= 100)%Q
      /\ length (recommendations result) = 4 - length (snippets result)).
Proof.
  cbv zeta. unfold optimizeForAnswerEngines. cbv zeta.
  cbn [snippets overallScore recommendations].
  destruct (createDirectAnswer text primaryKeyword) as [d|] eqn:Hd;
    [apply createDirectAnswer_fields in Hd as (bd & sd & nd & -> & Hsd)|];
    (destruct (createListSnippet text) as [l|] eqn:Hl;
     [apply createListSnippet_fields in Hl as (bl & nl' & ->)|]);
    (destruct (createTableSnippet text) as [t|] eqn:Ht;
     [apply createTableSnippet_fields in Ht as (bt & nt & ->)|]);
    destruct faqSection as [[|entry rest]|];
    cbn [pushIf option_map app]; unfold createFAQSnippet; cbv zeta;
    (split; [cbn [map type];
             repeat first [apply sublist_nil_l | apply sublist_skip
                          | apply sublist_cons]|]);
    (split; [repeat (apply List.Forall_cons; [cbn [score]; lia|]);
             apply List.Forall_nil|]);
    (split; [cbn; split;
             [intros; first [discriminate | eauto]
             |intros (? & ? & ?); first [discriminate | reflexivity]]|]);
    (split; [intros Hnil; try discriminate Hnil; split; reflexivity|]);
    intros Hne; try congruence;
    match goal with
    | |- (_ <= calculateAEOScore ?l <= _)%Q /\ _ =>
        assert (Hsc : (85 <= calculateAEOScore l <= 100)%Q)
          by (apply calculateAEOScore_between;
              [discriminate
              |repeat (apply List.Forall_cons; [cbn [score]; lia|]);
               apply List.Forall_nil
              |reflexivity]);
        split; [exact Hsc|];
        rewrite generateRecommendations_length,
          (score_passes_70 _ (proj1 Hsc)); reflexivity
    end.
Qed.

End OptimizerScore.

(** ** The answer-engine optimizer: matches and the rewritten text *)

Section MatchFacts.

Import AEOOptimizer.

(** [firstMatch] returns the leftmost match. *)
Lemma firstMatch_spec (m : jsstring -> option nat) (s : jsstring) (k i n : nat) :
  firstMatch m s k = Some (i, n) ->
  k <= i /\ i - k <= length s /\ m (drop (i - k) s) = Some n
  /\ forall j, j < i - k -> m (drop j s) = None.
Proof.
  revert k. induction s as [|c s IH]; intros k; cbn [firstMatch].
  - destruct (m []) as [n0|] eqn:E; [|discriminate].
    intros [= <- <-]. rewrite Nat.sub_diag. cbn.
    repeat split; try lia. exact E.
  - destruct (m (c :: s)) as [n0|] eqn:E.
    + intros [= <- <-]. rewrite Nat.sub_diag. cbn.
      repeat split; try lia. exact E.
    + intros H. apply IH in H as (Hk & Hlen & Hm & Hbefore).
      replace (i - k) with (S (i - S k)) by lia. cbn.
      repeat split; try lia; [exact Hm|].
      intros [|j] Hj; [exact E|]. cbn. apply Hbefore. lia.
Qed.

Lemma startsWith_take_app (s p t : jsstring) (n : nat) :
  length p <= n -> n <= length s ->
  startsWith (take n s ++ t) p = startsWith s p.
Proof.
  revert s n. induction p as [|a p IH]; intros s n Hp Hn.
  - rewrite !startsWith_nil. reflexivity.
  - destruct s as [|b s]; cbn in Hp, Hn; [lia|].
    destruct n as [|n]; [lia|]. cbn.
    rewrite IH by lia. reflexivity.
Qed.

Lemma startsWith_take (s p : jsstring) :
  startsWith s p = true -> take (length p) s = p.
Proof.
  intros H. apply startsWith_app in H as [r ->].
  apply take_app_length.
Qed.

Lemma toLowerCase_take_app (s t : jsstring) (n : nat) :
  toLowerCase (take n s ++ t) = take n (toLowerCase s) ++ toLowerCase t.
Proof.
  unfold toLowerCase. rewrite map_app, firstn_map. reflexivity.
Qed.

Lemma alternative_Some (alts : list jsstring) (s a : jsstring) :
  alternative alts s = Some a ->
  In a alts /\ startsWith (toLowerCase s) a = true.
Proof. apply find_some. Qed.

Lemma alternative_one (a s : jsstring) :
  alternative [a] s = if startsWith (toLowerCase s) a then Some a else None.
Proof. reflexivity. Qed.

Lemma alternative_local (a s t : jsstring) (n : nat) :
  length a <= n -> n <= length s ->
  alternative [a] (take n s ++ t) = alternative [a] s.
Proof.
  intros Ha Hn. rewrite !alternative_one, toLowerCase_take_app.
  rewrite startsWith_take_app by (rewrite ?toLowerCase_length; lia).
  reflexivity.
Qed.

Lemma throughGt_bound (s : jsstring) (a : nat) :
  throughGt s = Some a -> 1 <= a <= length s.
Proof.
  revert a. induction s as [|c s IH]; intros a; cbn; [discriminate|].
  destruct (isGt c); [intros [= <-]; lia|].
  destruct (throughGt s) as [a'|]; [|discriminate].
  intros [= <-]. specialize (IH a' eq_refl). lia.
Qed.

Lemma throughGt_local (s t : jsstring) (a n : nat) :
  throughGt s = Some a -> a <= n -> throughGt (take n s ++ t) = Some a.
Proof.
  revert a n. induction s as [|c s IH]; intros a n; cbn; [discriminate|].
  destruct (isGt c) eqn:Hc.
  - intros [= <-] Hn. destruct n as [|n]; [lia|]. cbn. rewrite Hc. reflexivity.
  - destruct (throughGt s) as [a'|] eqn:E; [|discriminate].
    intros [= <-] Hn. destruct n as [|n]; [lia|]. cbn. rewrite Hc.
    rewrite (IH a' n eq_refl) by lia. reflexivity.
Qed.

Lemma lazyThrough_eq (anyChar : bool) (closes : list jsstring) (s : jsstring) :
  lazyThrough anyChar closes s
  = match alternative closes s with
    | Some close => Some (length close)
    | None =>
        match s with
        | [] => None
        | c :: s' =>
            if anyChar || negb (isLineTerminator c)
            then option_map S (lazyThrough anyChar closes s')
            else None
        end
    end.
Proof. destruct s; reflexivity. Qed.

(** The closing tag that ends the lazy run, and where it stands. *)
Lemma lazyThrough_bound (anyChar : bool) (closes : list jsstring)
  (s : jsstring) (m : nat) :
  lazyThrough anyChar closes s = Some m ->
  exists close,
    In close closes /\ length close <= m <= length s
    /\ startsWith (toLowerCase (drop (m - length close) s)) close = true.
Proof.
  revert m. induction s as [|c s IH]; intros m; rewrite lazyThrough_eq.
  - destruct (alternative closes []) as [close|] eqn:E; [|discriminate].
    intros [= <-]. apply alternative_Some in E as [Hin Hs].
    exists close. rewrite Nat.sub_diag. cbn.
    pose proof (startsWith_length _ _ Hs) as Hl. cbn in Hl.
    repeat split; try lia; assumption.
  - destruct (alternative closes (c :: s)) as [close|] eqn:E.
    + intros [= <-]. apply alternative_Some in E as [Hin Hs].
      exists close. rewrite Nat.sub_diag. cbn [drop].
      pose proof (startsWith_length _ _ Hs) as Hl.
      rewrite toLowerCase_length in Hl.
      repeat split; try lia; assumption.
    + destruct (anyChar || negb (isLineTerminator c)); [|discriminate].
      destruct (lazyThrough anyChar closes s) as [m'|] eqn:E'; [|discriminate].
      intros [= <-]. destruct (IH m' eq_refl) as (close & Hin & Hm & Hs).
      exists close. replace (S m' - length close) with (S (m' - length close))
        by lia.
      cbn [drop length]. repeat split; try lia; assumption.
Qed.

Lemma lazyThrough_local (anyChar : bool) (close s t : jsstring) (m n : nat) :
  lazyThrough anyChar [close] s = Some m -> m <= n -> n <= length s ->
  lazyThrough anyChar [close] (take n s ++ t) = Some m.
Proof.
  revert m n. induction s as [|c s IH]; intros m n H Hm Hn.
  - cbn in Hn. replace n with 0 in * by lia.
    destruct (lazyThrough_bound _ _ _ _ H) as (cl & [<-|[]] & Hl & _).
    cbn in Hl. destruct close; [|cbn in Hl; lia].
    rewrite lazyThrough_eq in H |- *. cbn in *.
    destruct t; reflexivity || (cbn; exact H).
  - pose proof (lazyThrough_bound _ _ _ _ H) as (cl & [<-|[]] & Hl & _).
    rewrite lazyThrough_eq in H. rewrite lazyThrough_eq.
    rewrite alternative_local; [|lia|lia].
    destruct (alternative [close] (c :: s)) as [cl|]; [exact H|].
    destruct (anyChar || negb (isLineTerminator c)) eqn:Hc; [|discriminate].
    destruct (lazyThrough anyChar [close] s) as [m'|] eqn:E; [|discriminate].
    injection H as <-. destruct n as [|n]; [lia|]. cbn [take app].
    cbn in Hn. rewrite Hc, (IH m' n eq_refl); [reflexivity|lia|lia].
Qed.

(** The opening tag of a match and its extent. *)
Lemma openTagAt_bound (opens : list jsstring) (s : jsstring) (a : nat) :
  openTagAt opens s = Some a ->
  exists open,
    In open opens /\ startsWith (toLowerCase s) open = true
    /\ length open < a <= length s.
Proof.
  unfold openTagAt.
  destruct (alternative opens s) as [open|] eqn:E; [|discriminate].
  apply alternative_Some in E as [Hin Hs].
  destruct (throughGt (drop (length open) s)) as [g|] eqn:G; [|discriminate].
  intros [= <-]. apply throughGt_bound in G. rewrite length_drop in G.
  exists open. repeat split; try lia; assumption.
Qed.

Lemma drop_take_app {A} (s t : list A) (k n : nat) :
  k <= n -> n <= length s ->
  drop k (take n s ++ t) = take (n - k) (drop k s) ++ t.
Proof.
  intros Hk Hn. rewrite drop_app_le by (rewrite length_take; lia).
  rewrite skipn_firstn_comm. reflexivity.
Qed.

Lemma openTagAt_local (open s t : jsstring) (a n : nat) :
  openTagAt [open] s = Some a -> a <= n -> n <= length s ->
  openTagAt [open] (take n s ++ t) = Some a.
Proof.
  intros H Ha Hn.
  destruct (openTagAt_bound _ _ _ H) as (o & [<-|[]] & _ & Hlen).
  unfold openTagAt in *. rewrite alternative_local by lia.
  destruct (alternative [open] s) as [o|] eqn:E; [|discriminate].
  apply alternative_Some in E as [[<-|[]] _].
  destruct (throughGt (drop (length open) s)) as [g|] eqn:G; [|discriminate].
  injection H as <-. rewrite drop_take_app by lia.
  rewrite (throughGt_local _ _ g) by (exact G || lia). reflexivity.
Qed.

(** A match of [<open[^>]*>X*?close] depends on the matched text only. *)
Lemma elementAt_local (open : jsstring) (anyChar : bool) (close : jsstring)
  (s t : jsstring) (n : nat) :
  elementAt [open] anyChar [close] s = Some n ->
  0 < n <= length s
  /\ elementAt [open] anyChar [close] (take n s ++ t) = Some n.
Proof.
  unfold elementAt. intros H.
  destruct (openTagAt [open] s) as [a|] eqn:Ha; [|discriminate].
  destruct (lazyThrough anyChar [close] (drop a s)) as [m|] eqn:Hm;
    [|discriminate].
  injection H as <-.
  destruct (openTagAt_bound _ _ _ Ha) as (o & _ & _ & Hlen).
  destruct (lazyThrough_bound _ _ _ _ Hm) as (cl & _ & Hl & _).
  rewrite length_drop in Hl.
  split; [lia|].
  rewrite (openTagAt_local _ _ _ a) by (exact Ha || lia).
  rewrite drop_take_app by lia.
  rewrite (lazyThrough_local _ _ _ _ m)
    by (exact Hm || rewrite ?length_drop; lia).
  reflexivity.
Qed.

(** [indexOf] finds an occurrence that has none before it. *)
Lemma indexOfScan_first (s p : jsstring) (k base : nat) :
  (forall j, j < k -> startsWith (drop j s) p = false) ->
  startsWith (drop k s) p = true -> k <= length s ->
  indexOfScan s p base = Some (base + k).
Proof.
  revert s base. induction k as [|k IH]; intros s base Hbefore Hat Hlen.
  - rewrite drop_0 in Hat. rewrite Nat.add_0_r.
    destruct s; cbn [indexOfScan]; rewrite Hat; reflexivity.
  - destruct s as [|c s]; [cbn in Hlen; lia|].
    pose proof (Hbefore 0 ltac:(lia)) as H0. rewrite drop_0 in H0.
    cbn [indexOfScan]. rewrite H0, (IH s (S base)).
    + f_equal. lia.
    + intros j Hj. apply (Hbefore (S j)). lia.
    + exact Hat.
    + cbn in Hlen. lia.
Qed.

(** The text of the first paragraph element does not occur before it. *)
Lemma first_paragraph_index (text : jsstring) (k n : nat) :
  firstMatch paragraphAt text 0 = Some (k, n) ->
  indexOf text (take n (drop k text)) 0 = Some k
  /\ length (take n (drop k text)) = n /\ k + n <= length text.
Proof.
  intros H. apply firstMatch_spec in H as (_ & Hk & Hm & Hbefore).
  rewrite Nat.sub_0_r in *.
  destruct (elementAt_local _ _ _ _ [] _ Hm) as [[Hpos Hn] _].
  rewrite length_drop in Hn.
  assert (Hlen : length (take n (drop k text)) = n)
    by (rewrite length_take, length_drop; lia).
  split; [|split; [exact Hlen | lia]].
  unfold indexOf. rewrite drop_0. cbn [Nat.min].
  apply (indexOfScan_first text _ k 0); [| |exact Hk].
  - intros j Hj.
    destruct (startsWith (drop j text) (take n (drop k text))) eqn:E;
      [|reflexivity].
    apply startsWith_app in E as [r E].
    specialize (Hbefore j Hj). rewrite E in Hbefore.
    destruct (elementAt_local _ _ _ _ r _ Hm) as [_ Hloc].
    unfold paragraphAt in Hbefore. congruence.
  - apply startsWith_app. exists (drop n (drop k text)).
    symmetry. apply take_drop.
Qed.

End MatchFacts.

Section OptimizerContent.

Import AEOOptimizer.

Lemma getSubstitution_plain (matched before after r : jsstring) :
  Forall plainChar r -> getSubstitution matched before after r = r.
Proof.
  induction 1 as [|c r Hc _ IH]; [reflexivity|].
  cbn [getSubstitution]. unfold plainChar in Hc. rewrite Hc, IH. reflexivity.
Qed.

Lemma dropWhile_Forall {A} (P : A -> Prop) (f : A -> bool) (l : list A) :
  Forall P l -> Forall P (dropWhile f l).
Proof.
  induction 1 as [|x l Hx Hl IH]; cbn; [constructor|].
  destruct (f x); [exact IH | now constructor].
Qed.

Lemma trim_Forall (P : ascii -> Prop) (s : jsstring) :
  Forall P s -> Forall P (trim s).
Proof.
  intros H. unfold trim.
  apply Forall_rev, dropWhile_Forall, Forall_rev, dropWhile_Forall, H.
Qed.

Lemma splitOnAux_Forall (P : ascii -> Prop) (sep : jsstring) (skip : nat)
  (cur s : jsstring) :
  Forall P cur -> Forall P s -> Forall (Forall P) (splitOnAux sep skip cur s).
Proof.
  intros Hcur Hs. revert skip cur Hcur.
  induction Hs as [|c s Hc Hs IH]; intros skip cur Hcur; cbn [splitOnAux].
  - constructor; [apply Forall_rev, Hcur | constructor].
  - destruct skip as [|k]; [|apply IH, Hcur].
    destruct (startsWith (c :: s) sep).
    + constructor; [apply Forall_rev, Hcur | apply IH; constructor].
    + apply IH. now constructor.
Qed.

Lemma stripTagsAux_Forall (P : ascii -> Prop) (s : jsstring) (inTag : bool)
  (buf : jsstring) :
  Forall P (lit "<") -> Forall P s -> Forall P buf ->
  Forall P (stripTagsAux s inTag buf).
Proof.
  intros Hlt Hs. revert inTag buf.
  induction Hs as [|c s Hc Hs IH]; intros inTag buf Hbuf; cbn [stripTagsAux].
  - destruct inTag; [|constructor].
    apply Forall_app. split; [exact Hlt | apply Forall_rev, Hbuf].
  - destruct inTag.
    + destruct (isGt c).
      * destruct buf; [|apply IH; constructor].
        apply Forall_app. split; [exact Hlt|].
        constructor; [exact Hc | apply IH; constructor].
      * apply IH. now constructor.
    + destruct (isLt c); [apply IH; constructor|].
      constructor; [exact Hc | apply IH; constructor].
Qed.

Lemma paragraphsOf_Forall (P : ascii -> Prop) (text para : jsstring) :
  Forall P text -> In para (paragraphsOf text) -> Forall P para.
Proof.
  intros Htext Hin. unfold paragraphsOf in Hin.
  apply list_elem_of_In, list_elem_of_filter in Hin as [_ Hin].
  apply list_elem_of_In, in_map_iff in Hin as (piece & <- & Hin).
  apply trim_Forall.
  pose proof (splitOnAux_Forall P (lit "</p>") 0 [] text
                (List.Forall_nil _) Htext) as Hall.
  rewrite List.Forall_forall in Hall. apply Hall. exact Hin.
Qed.

Lemma createDirectAnswer_plain (text keyword : jsstring) (found : AEOSnippet) :
  Forall plainChar text ->
  createDirectAnswer text keyword = Some found ->
  Forall plainChar (content found).
Proof.
  intros Htext H. unfold createDirectAnswer in H.
  apply firstAnswer_Some in H as (para & Hin & Hp).
  rewrite directAnswerAt_guard in Hp.
  match type of Hp with (if ?g then _ else _) = _ => destruct g end;
    [|discriminate].
  injection Hp as <-. cbn [content].
  apply stripTagsAux_Forall.
  - repeat constructor.
  - apply (paragraphsOf_Forall _ text); assumption.
  - constructor.
Qed.

Lemma directAnswerBox_plain (answer : jsstring) :
  Forall plainChar answer -> Forall plainChar (directAnswerBox answer).
Proof.
  intros H. unfold directAnswerBox.
  repeat (apply Forall_app; split); try exact H; repeat constructor.
Qed.

(** X27: in a text without a dollar sign, [optimizeForAnswerEngines] only
    adds to the text: when there is a direct answer and the text holds a
    paragraph element, the answer box goes right in front of the first
    paragraph element, and when a FAQ section with an entry is given, its
    markup goes to the end; everything else stays as it was. *)
Theorem optimized_content_structure (text primaryKeyword : jsstring)
  (faqSection : option (list FAQ)) :
  Forall plainChar text ->
  optimizedContent (optimizeForAnswerEngines text primaryKeyword faqSection)
  = match createDirectAnswer text primaryKeyword,
          firstMatch paragraphAt text 0 with
    | Some found, Some (k, _) =>
        take k text ++ directAnswerBox (content found) ++ drop k text
    | _, _ => text
    end
    ++ match faqSection with
       | Some (entry :: rest) => faqMarkup (entry :: rest)
       | _ => []
       end.
Proof.
  intros Htext. unfold optimizeForAnswerEngines. cbv zeta.
  cbn [optimizedContent].
  assert (Hbody :
    match createDirectAnswer text primaryKeyword with
    | Some found => injectDirectAnswer text found
    | None => text
    end
    = match createDirectAnswer text primaryKeyword,
            firstMatch paragraphAt text 0 with
      | Some found, Some (k, _) =>
          take k text ++ directAnswerBox (content found) ++ drop k text
      | _, _ => text
      end).
  { destruct (createDirectAnswer text primaryKeyword) as [found|] eqn:Hd;
      [|reflexivity].
    unfold injectDirectAnswer.
    destruct (firstMatch paragraphAt text 0) as [[k n]|] eqn:Hm;
      [|reflexivity].
    destruct (first_paragraph_index _ _ _ Hm) as (Hidx & Hlen & Hfit).
    cbv zeta. unfold replace. rewrite Hidx. cbv zeta. rewrite Hlen.
    rewrite getSubstitution_plain.
    - rewrite <- !app_assoc. do 2 f_equal.
      rewrite <- (take_drop n (drop k text)) at 2.
      rewrite drop_drop. reflexivity.
    - apply Forall_app. split.
      + apply directAnswerBox_plain.
        apply (createDirectAnswer_plain text primaryKeyword); assumption.
      + apply Forall_take, Forall_drop, Htext. }
  rewrite Hbody.
  destruct faqSection as [[|entry rest]|]; rewrite ?app_nil_r; reflexivity.
Qed.

End OptimizerContent.

Section SnippetShape.

Import AEOOptimizer.

Lemma elementAt_bound (opens : list jsstring) (anyChar : bool)
  (closes : list jsstring) (s : jsstring) (n : nat) :
  elementAt opens anyChar closes s = Some n ->
  exists open close,
    In open opens /\ In close closes
    /\ startsWith (toLowerCase s) open = true
    /\ length open + length close < n <= length s
    /\ startsWith (toLowerCase (drop (n - length close) s)) close = true.
Proof.
  unfold elementAt. intros H.
  destruct (openTagAt opens s) as [a|] eqn:Ha; [|discriminate].
  destruct (lazyThrough anyChar closes (drop a s)) as [m|] eqn:Hm;
    [|discriminate].
  injection H as <-.
  destruct (openTagAt_bound _ _ _ Ha) as (open & Hopen & Hs & Hlen).
  destruct (lazyThrough_bound _ _ _ _ Hm) as (close & Hclose & Hl & Hc).
  rewrite length_drop in Hl. rewrite drop_drop in Hc.
  exists open, close.
  replace (a + m - length close) with (a + (m - length close)) by lia.
  repeat split; try lia; assumption.
Qed.

(** The text of the first match of an element is delimited by its tags. *)
Lemma firstMatch_delimited (opens : list jsstring) (anyChar : bool)
  (closes : list jsstring) (text : jsstring) (k n : nat) :
  firstMatch (elementAt opens anyChar closes) text 0 = Some (k, n) ->
  delimited opens closes text (take n (drop k text)).
Proof.
  intros H. apply firstMatch_spec in H as (_ & _ & Hm & _).
  rewrite Nat.sub_0_r in Hm.
  apply elementAt_bound in Hm
    as (open & close & Hopen & Hclose & Hs & Hlen & Hc).
  set (s := drop k text) in *.
  assert (Hbody : length (take n s) = n) by (rewrite length_take; lia).
  split; [|split].
  - exists (take k text), (drop n s).
    rewrite take_drop. symmetry. apply take_drop.
  - exists open. split; [exact Hopen|].
    rewrite <- (app_nil_r (take n s)), toLowerCase_take_app.
    rewrite startsWith_take_app
      by (rewrite ?toLowerCase_length; lia).
    exact Hs.
  - exists close. split; [exact Hclose|].
    rewrite Hbody. unfold toLowerCase in *.
    rewrite <- firstn_map, skipn_firstn_comm, skipn_map.
    replace (n - (n - length close)) with (length close) by lia.
    apply startsWith_take. exact Hc.
Qed.

(** X28: the list snippet is the first list element of the text, from its
    opening tag [<ul] or [<ol] to the closing tag that ends it, and holds 3
    to 10 item elements; the table snippet is the first table element of the
    text and holds 3 to 8 row tags.  Their scores are 85 and 90. *)
Theorem list_and_table_snippets (text : jsstring) :
  (forall found, createListSnippet text = Some found ->
     type found = list_ /\ score found = 85
     /\ 3 <= countRegex itemAt (content found) <= 10
     /\ delimited [lit "<ul"; lit "<ol"] [lit "</ul>"; lit "</ol>"] text
          (content found))
  /\ (forall found, createTableSnippet text = Some found ->
       type found = table /\ score found = 90
       /\ 3 <= countRegex rowAt (content found) <= 8
       /\ delimited [lit "<table"] [lit "</table>"] text (content found)).
Proof.
  split; intros found.
  - unfold createListSnippet.
    destruct (firstMatch listAt text 0) as [[k n]|] eqn:Hm; [|discriminate].
    cbv zeta.
    destruct ((3 <=? countRegex itemAt (take n (drop k text)))
              && (countRegex itemAt (take n (drop k text)) <=? 10)) eqn:G;
      [|discriminate].
    intros [= <-]. cbn [type score content].
    apply andb_prop in G as [Hlo Hhi]. apply Nat.leb_le in Hlo, Hhi.
    repeat split; try assumption.
    all: apply (firstMatch_delimited _ true _ text k n Hm).
  - unfold createTableSnippet.
    destruct (firstMatch tableAt text 0) as [[k n]|] eqn:Hm; [|discriminate].
    cbv zeta.
    destruct ((3 <=? countRegex rowAt (take n (drop k text)))
              && (countRegex rowAt (take n (drop k text)) <=? 8)) eqn:G;
      [|discriminate].
    intros [= <-]. cbn [type score content].
    apply andb_prop in G as [Hlo Hhi]. apply Nat.leb_le in Hlo, Hhi.
    repeat split; try assumption.
    all: apply (firstMatch_delimited _ true _ text k n Hm).
Qed.

End SnippetShape.

(** ** The scheduler: the tasks of [createOptimizedAITasks] *)

Section CreatedTasks.

Import ParallelEngine.

Context {Payload : Type}.
Variable callAI : AITask -> @Outcome Payload.
Variable typeErrorMessage : jsstring.
Variable maxConcurrent : Z.

Lemma tasksFrom_length (operation : Operation) (index : nat)
  (contentItems : list ContentItem) :
  length (tasksFrom operation index contentItems) = length contentItems.
Proof.
  revert index. induction contentItems as [|item rest IH]; intros index;
    cbn; [reflexivity|]. rewrite IH. reflexivity.
Qed.

Lemma tasksFrom_medium (operation : Operation) (index : nat)
  (contentItems : list ContentItem) :
  3 <= index ->
  Forall (fun t => priority t = medium)
    (tasksFrom operation index contentItems).
Proof.
  revert index. induction contentItems as [|item rest IH]; intros index H;
    cbn [tasksFrom]; constructor.
  - cbn [priority]. destruct (Nat.ltb_spec index 3); [lia | reflexivity].
  - apply IH. lia.
Qed.

Lemma filter_one_priority (p q : Priority) (tasks : list AITask) :
  Forall (fun t => priority t = p) tasks ->
  filter (fun t => priority t = q) tasks = if decide (p = q) then tasks else [].
Proof.
  induction 1 as [|t tasks Ht _ IH].
  - destruct (decide (p = q)); reflexivity.
  - destruct (decide (p = q)) as [<-|Hne].
    + rewrite filter_cons_True by exact Ht. rewrite IH. reflexivity.
    + rewrite filter_cons_False by congruence. exact IH.
Qed.

(** The tasks are grouped by priority as they stand: at most three
    high-priority tasks, then medium-priority tasks. *)
Lemma created_tasks_by_priority (contentItems : list ContentItem)
  (operation : Operation) :
  let tasks := createOptimizedAITasks contentItems operation in
  filter (fun t => priority t = high) tasks
  ++ filter (fun t => priority t = medium) tasks
  ++ filter (fun t => priority t = low) tasks
  = tasks.
Proof.
  cbv zeta. unfold createOptimizedAITasks.
  destruct contentItems as [|a [|b [|c rest]]]; try reflexivity.
  cbn [tasksFrom Nat.ltb Nat.leb].
  pose proof (tasksFrom_medium operation 3 rest (le_n 3)) as Hrest.
  rewrite !filter_cons_True by reflexivity.
  rewrite !filter_cons_False by discriminate.
  rewrite !(filter_one_priority medium _ _ Hrest).
  destruct (decide (medium = high)); [discriminate|].
  destruct (decide (medium = medium)); [|congruence].
  destruct (decide (medium = low)); [discriminate|].
  rewrite app_nil_r. reflexivity.
Qed.

(** X29: the tasks of [createOptimizedAITasks] are as many as the content
    items, and with a positive limit [executeBatch] returns their results
    in the order of the items, the same results as [executeParallelBatch]:
    the first three tasks are the high-priority ones and the others have
    medium priority, so grouping by priority moves no task. *)
Theorem created_tasks_keep_input_order (contentItems : list ContentItem)
  (operation : Operation) :
  (0 < maxConcurrent)%Z ->
  let tasks := createOptimizedAITasks contentItems operation in
  length tasks = length contentItems
  /\ exists results,
      (forall fuel, length contentItems < fuel ->
         executeBatch callAI typeErrorMessage maxConcurrent fuel tasks
         = Some results
         /\ executeParallelBatch callAI typeErrorMessage maxConcurrent fuel
              tasks
            = Some results)
      /\ map resultId results = map id tasks.
Proof.
  intros Hlimit tasks.
  assert (Hlen : length tasks = length contentItems)
    by apply tasksFrom_length.
  split; [exact Hlen|].
  exists (runChunk callAI typeErrorMessage tasks). split.
  - intros fuel Hfuel. rewrite <- Hlen in Hfuel.
    rewrite executeBatch_total, executeParallelBatch_total by assumption.
    rewrite runChunk_groups, pendingTasks_groupByPriority.
    subst tasks. rewrite created_tasks_by_priority. split; reflexivity.
  - apply runChunk_ids.
Qed.

End CreatedTasks.

(** ** The score functions: the density of internal links *)

Section LinkDensityFacts.

Import Scoring.

Lemma splitWsAux_nonempty (cur : jsstring) (inSep : bool) (s : jsstring) :
  1 <= length (splitWsAux cur inSep s).
Proof.
  revert cur inSep. induction s as [|c s IH]; intros cur inSep; cbn.
  - lia.
  - destruct (isWhitespace c); [destruct inSep|]; cbn; try apply IH; lia.
Qed.

Lemma filter_all {A} (f : A -> bool) (l : list A) :
  (forall x, In x l -> f x = true) -> List.filter f l = l.
Proof.
  induction l as [|x l IH]; intros H; cbn; [reflexivity|].
  rewrite (H x) by now left. f_equal. apply IH. intros y Hy. apply H. now right.
Qed.

Lemma ofNat_nonneg (n : nat) : (0 <= LinkingEngine.ofNat n)%Q.
Proof. unfold LinkingEngine.ofNat, Qle. simpl. lia. Qed.

(** X30: the density [calculateInternalLinkDensity] reports lies between 0
    and 100; the word count it divides by is never 0; the density is 0
    exactly when no link of the text holds the slug of a page; and a page
    with an empty slug makes every link of the text count. *)
Theorem link_density_bounds (text : jsstring) (existingPages : list ExistingPage) :
  1 <= length (splitWhitespace text)
  /\ (0 <= calculateInternalLinkDensity text existingPages <= 100)%Q
  /\ ((calculateInternalLinkDensity text existingPages == 0)%Q <->
      internalLinks text existingPages = [])
  /\ (forall page, In page existingPages -> slug page = [] ->
        internalLinks text existingPages = matchAll hrefAt text).
Proof.
  pose proof (splitWsAux_nonempty [] false text) as Hwords.
  fold (splitWhitespace text) in Hwords.
  split; [exact Hwords|].
  unfold calculateInternalLinkDensity. cbv zeta.
  set (n := length (internalLinks text existingPages)).
  set (w := length (splitWhitespace text)) in *.
  assert (Hw : (0 < LinkingEngine.ofNat w)%Q)
    by (unfold LinkingEngine.ofNat, Qlt; simpl; lia).
  assert (Hx : (0 <= LinkingEngine.ofNat n / LinkingEngine.ofNat w * 100 * 10)%Q).
  { apply Qmult_le_0_compat; [|discriminate].
    apply Qmult_le_0_compat; [|discriminate].
    apply Qle_shift_div_l; [exact Hw|].
    rewrite Qmult_0_l. apply ofNat_nonneg. }
  split; [split|split].
  - apply minQ_glb; [exact Hx | discriminate].
  - apply minQ_le_r.
  - unfold AEOOptimizer.minQ.
    destruct (internalLinks text existingPages) as [|link links] eqn:E.
    + subst n. cbn [length].
      split; [reflexivity|]. intros _. reflexivity.
    + split; [|discriminate]. intros H0. exfalso.
      assert (Hpos : (0 < LinkingEngine.ofNat n / LinkingEngine.ofNat w * 100 * 10)%Q).
      { apply Qmult_lt_0_compat; [|reflexivity].
        apply Qmult_lt_0_compat; [|reflexivity].
        apply Qlt_shift_div_l; [exact Hw|].
        rewrite Qmult_0_l. subst n. cbn [length].
        unfold LinkingEngine.ofNat, Qlt. simpl. lia. }
      destruct (Qle_bool _ 100).
      * rewrite H0 in Hpos. discriminate Hpos.
      * discriminate H0.
  - intros page Hin Hslug. unfold internalLinks. cbv zeta.
    apply filter_all. intros link _.
    apply existsb_exists. exists page. split; [exact Hin|].
    rewrite Hslug. unfold includes.
    rewrite indexOf_at_head by apply startsWith_nil. reflexivity.
Qed.

End LinkDensityFacts.

(** ** Instances of the further properties *)

Section SchedulerMoreInstances.

Import ParallelEngine Data.

(** X1 at three tasks and windows of two. *)
Lemma chunkTasks_window_sizes_witness :
  exists cs,
    (forall fuel, length [taskHigh; taskLow; taskHigh] < fuel ->
       chunkTasks fuel [taskHigh; taskLow; taskHigh] 2 = Some cs)
    /\ concat cs = [taskHigh; taskLow; taskHigh]
    /\ map length cs = windowSizes (length [taskHigh; taskLow; taskHigh])
                                   (Z.to_nat 2).
Proof.
  apply (chunkTasks_window_sizes [taskHigh; taskLow; taskHigh] 2).
  reflexivity.
Defined.

(** X2 at a low-priority task given before a high-priority one. *)
Lemma executeBatch_results_by_priority_witness :
  exists results,
    (forall fuel, length [taskLow; taskHigh] < fuel ->
       executeBatch mixedCall [] 2 fuel [taskLow; taskHigh] = Some results)
    /\ map resultId results
       = map id (filter (fun t => priority t = high) [taskLow; taskHigh]
                 ++ filter (fun t => priority t = medium) [taskLow; taskHigh]
                 ++ filter (fun t => priority t = low) [taskLow; taskHigh])
    /\ length results = length [taskLow; taskHigh]
    /\ Permutation (map resultId results) (map id [taskLow; taskHigh]).
Proof.
  apply (executeBatch_results_by_priority mixedCall [] 2 [taskLow; taskHigh]).
  reflexivity.
Defined.

(** X3 at the limit 0. *)
Lemma executeBatch_nonpositive_limit_witness :
  executeBatch mixedCall [] 0 7 [] = Some []
  /\ ([taskHigh] <> [] -> executeBatch mixedCall [] 0 7 [taskHigh] = None).
Proof.
  apply (executeBatch_nonpositive_limit mixedCall [] 0 [taskHigh] 7).
  discriminate.
Defined.

(** X4 at a batch with one call that raises and one that resolves. *)
Lemma success_tells_resolved_witness :
  Forall2
    (fun t r =>
       resultId r = id t
       /\ match mixedCall t with
          | Resolved value elapsed =>
              success r = true /\ data r = value /\ error r = None
              /\ duration r = elapsed
          | Failed _ _ => success r = false
          end)
    [taskLow; taskHigh] (runChunk mixedCall [] [taskLow; taskHigh]).
Proof.
  apply (success_tells_resolved mixedCall [] 5 3 [taskLow; taskHigh]
           (runChunk mixedCall [] [taskLow; taskHigh])).
  reflexivity.
Defined.

End SchedulerMoreInstances.

Section LinkingMoreInstances.

Import LinkingEngine Data.

(** X6 at the title of the corpus page. *)
Lemma extractKeywords_shape_witness :
  3 < length (lit "cycling")
  /\ (lit "cycling" ∉ stopWords)
  /\ toLowerCase (lit "cycling") = lit "cycling"
  /\ Forall (fun c => isWhitespace c = false) (lit "cycling").
Proof.
  apply (extractKeywords_shape (title cyclingPage) (lit "cycling")).
  vm_compute. tauto.
Defined.

(** X7 at the first sentence of the guide. *)
Lemma extractSentences_substring_witness :
  guideSentence = substring guideText 0 24 /\ 0 < 24 <= length guideText.
Proof.
  apply (extractSentences_substring guideText
           {| text := guideSentence; start := 0; end_ := 24 |}).
  vm_compute. tauto.
Defined.

(** X10 at a text without a terminator. *)
Lemma no_terminator_no_opportunity_witness :
  extractSentences plainText = []
  /\ generateLinkOpportunities 20 plainText [cyclingPage] 5 = Some [].
Proof.
  apply (no_terminator_no_opportunity 20 plainText [cyclingPage] 5).
  - vm_compute. lia.
  - repeat constructor.
Defined.

(** X8 at the mention of the guide. *)
Lemma returned_opportunity_is_wellformed_witness :
  occursAt (toLowerCase guideText) (toLowerCase (anchorText guideMention))
    (position guideMention)
  /\ 50 <= relevanceScore guideMention <= 100
  /\ hasLinkNearby guideText (position guideMention) 100 = false
  /\ fromPage guideMention = lit "current"
  /\ length (contextSnippet guideMention) <= 100
  /\ exists page,
       In page [cyclingPage]
       /\ In (anchorText guideMention) (extractKeywords (title page))
       /\ toPage guideMention = slug page.
Proof.
  apply (returned_opportunity_is_wellformed 100 guideText [cyclingPage] 5
           [guideMention] guideMention).
  - vm_compute. reflexivity.
  - left. reflexivity.
Defined.

(** X9 at the guide and a limit of one link. *)
Lemma at_most_maxLinks_witness : length [guideMention] <= Z.to_nat 1.
Proof.
  apply (at_most_maxLinks 100 guideText [cyclingPage] 1 [guideMention]).
  - discriminate.
  - vm_compute. reflexivity.
Defined.

(** X12 at a single mention. *)
Lemma inject_in_place_witness :
  injectStep (mentionText, ∅) (cyclingAt 6)
  = (take (position (cyclingAt 6)) mentionText ++ linkTag (cyclingAt 6)
     ++ drop (position (cyclingAt 6) + length (anchorText (cyclingAt 6)))
          mentionText,
     ∅ ∪ {[position (cyclingAt 6)]}).
Proof.
  apply (inject_in_place mentionText ∅ (cyclingAt 6)).
  - reflexivity.
  - apply not_elem_of_empty.
Defined.

(** X14 at the four pages. *)
Lemma cluster_is_wellformed_witness :
  In (pillarPage clusterA) fourPages
  /\ 2 <= length (clusterPages clusterA) <= 8
  /\ forall m, In m (clusterPages clusterA) ->
       In m fourPages /\ id m <> id (pillarPage clusterA)
       /\ exists k, In k (extractKeywords (title (pillarPage clusterA)))
                    /\ In k (extractKeywords (title m)).
Proof.
  apply (cluster_is_wellformed fourPages clusterA).
  vm_compute. tauto.
Defined.

(** X16 at the four pages. *)
Lemma cluster_scores_bounds_witness :
  (20 <= topicRelevance clusterA)%Q /\ (0 < linkDensity clusterA)%Q
  /\ (linkDensity clusterA <= 4 # 5)%Q.
Proof.
  apply (cluster_scores_bounds fourPages clusterA).
  vm_compute. tauto.
Defined.

End LinkingMoreInstances.

Section TrackerMoreInstances.

Import PerformanceTracker Data.

(** X20 at a tracker of five samples. *)
Lemma trend_needs_six_samples_witness : getPerformanceTrend youngTracker = stable.
Proof.
  apply (trend_needs_six_samples youngTracker).
  vm_compute. lia.
Defined.

(** X21 at five samples of quality 60 followed by five of quality 70. *)
Lemma trend_of_plateaus_witness :
  getPerformanceTrend risingTracker
  = if (2 <? 70 - 60)%Z then improving
    else if (70 - 60 <? -2)%Z then declining
    else stable.
Proof.
  apply (trend_of_plateaus risingTracker [] (plateau 60) (plateau 70) 70 60).
  - reflexivity.
  - reflexivity.
  - left. reflexivity.
  - repeat (apply List.Forall_cons; [split; [lia | reflexivity]|]).
    apply List.Forall_nil.
  - repeat (apply List.Forall_cons; [split; [lia | reflexivity]|]).
    apply List.Forall_nil.
Defined.

End TrackerMoreInstances.

Section ScoreInstances.

Import Scoring AEOOptimizer Data.

(** X24 at a paragraph that is never closed. *)
Lemma unclosed_paragraph_counts_as_concise_witness :
  20 <= Scoring.calculateAEOScore unclosedContent.
Proof.
  apply (unclosed_paragraph_counts_as_concise unclosedContent unclosedText);
    reflexivity.
Defined.

(** X25 at the article whose second paragraph is the definitional one. *)
Lemma direct_answer_characterised_witness :
  exists snippet,
    createDirectAnswer articleText (lit "cycling") = Some snippet
    /\ type snippet = paragraph
    /\ (exists para, In para (paragraphsOf articleText)
                     /\ AEOOptimizer.content snippet = stripTags para)
    /\ 40 <= length (AEOOptimizer.content snippet) <= 300
    /\ includes (toLowerCase (AEOOptimizer.content snippet))
         (toLowerCase (lit "cycling")) = true
    /\ 75 <= score snippet <= 100
    /\ optimization snippet = lit "Direct answer optimized for AI Overview".
Proof.
  exists {| type := paragraph; AEOOptimizer.content := definitionalParagraph;
            score := 100;
            optimization := lit "Direct answer optimized for AI Overview" |}.
  split; [vm_compute; reflexivity|].
  apply (proj2 (direct_answer_characterised articleText (lit "cycling"))).
  vm_compute. reflexivity.
Defined.

End ScoreInstances.

Section OptimizerInstances.

Import AEOOptimizer Data.

(** X27 at the article and one FAQ entry. *)
Lemma optimized_content_structure_witness :
  optimizedContent
    (optimizeForAnswerEngines articleText (lit "cycling") (Some [cyclingFAQ]))
  = match createDirectAnswer articleText (lit "cycling"),
          firstMatch paragraphAt articleText 0 with
    | Some found, Some (k, _) =>
        take k articleText ++ directAnswerBox (content found)
        ++ drop k articleText
    | _, _ => articleText
    end
    ++ faqMarkup [cyclingFAQ].
Proof.
  apply (optimized_content_structure articleText (lit "cycling")
           (Some [cyclingFAQ])).
  repeat constructor.
Defined.

(** The box of the article goes in front of its first paragraph element,
    which is not the paragraph the answer was taken from. *)
Example article_box_position :
  optimizedContent (optimizeForAnswerEngines articleText (lit "cycling") None)
  = directAnswerBox definitionalParagraph ++ articleText.
Proof. vm_compute. reflexivity. Qed.

(** With a dollar sign the text does not stay as it was: the replacement
    string of [replace] is read as a pattern, so a doubled dollar sign of
    the first paragraph comes out as a single one, in the box and in the
    paragraph. *)
Example doubled_dollar_is_collapsed :
  optimizedContent (optimizeForAnswerEngines pricedText (lit "cycling") None)
  = directAnswerBox (lit "Cycling is a sport that costs $ and uses bikes")
    ++ lit "<p>Cycling is a sport that costs $ and uses bikes</p>".
Proof. vm_compute. reflexivity. Qed.

(** A list whose tags are in upper case and carry attributes. *)
Example list_snippet_of_listText :
  option_map content (createListSnippet listText)
  = Some (lit "<UL class='x'><li>one</li><li>two</li><li>three</li></ul>").
Proof. vm_compute. reflexivity. Qed.

End OptimizerInstances.

Section CreatedTasksInstances.

Import ParallelEngine Data.

(** X29 at four items and windows of two. *)
Lemma created_tasks_keep_input_order_witness :
  length (createOptimizedAITasks fourItems generate) = length fourItems
  /\ exists results,
      (forall fuel, length fourItems < fuel ->
         executeBatch mixedCall [] 2 fuel
           (createOptimizedAITasks fourItems generate)
         = Some results
         /\ executeParallelBatch mixedCall [] 2 fuel
              (createOptimizedAITasks fourItems generate)
            = Some results)
      /\ map resultId results
         = map id (createOptimizedAITasks fourItems generate).
Proof.
  apply (created_tasks_keep_input_order mixedCall [] 2 fourItems generate).
  reflexivity.
Defined.

(** The identifiers of the tasks need not differ: an item whose [id] is the
    index of another item that has none gets the same identifier. *)
Example created_task_ids_can_collide :
  map id (createOptimizedAITasks fourItems generate)
  = [lit "generate-1"; lit "generate-1"; lit "generate-c"; lit "generate-3"].
Proof. reflexivity. Qed.

End CreatedTasksInstances.
